(** * padre: a shallow embedding of [src/padre.c]

    The C functions of [padre.c] are rendered as Rocq functions over byte
    lists.  A C [char] is an [ascii] (eight bits of storage); its value as a
    signed or unsigned integer is taken where the C code takes it.  Pointers
    into a buffer are offsets, [nullptr] is [None].  Memory that C leaves
    indeterminate (a fresh stack array, a block returned by [malloc]) is a
    parameter of the function that reads or writes it, so that independence
    from its contents is a theorem and not a convention.  Loops that need not
    terminate are run with fuel. *)

From Stdlib Require Import ZArith Lia String Ascii List Bool.
From stdpp Require Import base list.
Import ListNotations.
Open Scope Z_scope.

(* ================================================================== *)
(** * Part I: definitions                                              *)
(* ================================================================== *)

(** ** Characters and C strings *)

Definition NUL : ascii := "000"%char.

(** The bytes of a string literal. *)
Definition bytes (s : string) : list ascii := list_ascii_of_string s.

(** [(unsigned char)c], also the value of a [uint8_t]. *)
Definition uchar (c : ascii) : Z := Z.of_N (N_of_ascii c).

(** The value of a [char] where [char] is signed, as on x86-64.  Only the
    comparison [l <= c] of the range loop depends on it, and for seven-bit
    characters the signed and the unsigned value are the same. *)
Definition schar (c : ascii) : Z :=
  if uchar c <? 128 then uchar c else uchar c - 256.

(** Conversion of an integer to [char]: the low eight bits. *)
Definition char_of_Z (z : Z) : ascii := ascii_of_N (Z.to_N (z mod 256)).

(** [l++] on a [char]. *)
Definition char_incr (c : ascii) : ascii := char_of_Z (uchar c + 1).

(** [isspace] in the C locale: space and [\t \n \v \f \r]. *)
Definition isspace (c : ascii) : bool :=
  (uchar c =? 32) || ((9 <=? uchar c) && (uchar c <=? 13)).

(** [isdigit]. *)
Definition isdigit (c : ascii) : bool :=
  (48 <=? uchar c) && (uchar c <=? 57).

(** The C string stored at a pointer: the bytes before the first [NUL].  A
    pointer is modelled by the list of bytes found from its address on; the
    end of the list counts as a terminator. *)
Fixpoint cstr (p : list ascii) : list ascii :=
  match p with
  | [] => []
  | c :: r => if Ascii.eqb c NUL then [] else c :: cstr r
  end.

Definition strlen (p : list ascii) : nat := length (cstr p).

Fixpoint bytes_eqb (a b : list ascii) : bool :=
  match a, b with
  | [], [] => true
  | x :: a', y :: b' => Ascii.eqb x y && bytes_eqb a' b'
  | _, _ => false
  end.

(** [strcmp(p, lit) == 0]. *)
Definition streq (p : list ascii) (lit : string) : bool :=
  bytes_eqb (cstr p) (bytes lit).

(** [*p] for a [const char *p]. *)
Definition deref (p : list ascii) : ascii :=
  match p with
  | [] => NUL
  | c :: _ => c
  end.

(** [memcpy(dst + off, src, n)]: [n] bytes read at [src], a terminator
    standing at the end of the list. *)
Definition memcpy (dst : list ascii) (off : nat) (src : list ascii) (n : nat)
  : list ascii :=
  take off dst ++ take n (src ++ repeat NUL n) ++ drop (off + n) dst.

(** A fresh array of [n] bytes whose indeterminate contents are [init]. *)
Definition fresh (init : nat -> ascii) (n : nat) : list ascii :=
  map init (seq 0 n).

(** Conversion of a [size_t] to [int] (32 bits, two's complement). *)
Definition int_of_size_t (z : Z) : Z := (z + 2 ^ 31) mod 2 ^ 32 - 2 ^ 31.

(** ** The alphabet mapper: [to_chars] *)

(** [to_chars(bytes, len, chars, clen)] rewrites the buffer in place and
    terminates it.  [None] is undefined behaviour: a division by zero, or an
    access outside [chars] or outside the buffer. *)
Fixpoint to_chars (buf : list ascii) (len : nat) (chars : list ascii)
    (clen : Z) : option (list ascii) :=
  match len, buf with
  | O, _ :: rest => Some (NUL :: rest)
  | S len', b :: rest =>
      let d := int_of_size_t clen in
      if d =? 0 then None
      else
        match chars !! Z.to_nat (Z.rem (uchar b) d) with
        | Some ch =>
            match to_chars rest len' chars clen with
            | Some rest' => Some (ch :: rest')
            | None => None
            end
        | None => None
        end
  | _, [] => None
  end.

(** ** The charset compiler: [push_char] and [enumerate_charset] *)

(** [push_char(begin, end, c)] on the array [chars]; [begin] is an offset
    into it and [end_] the offset one past its last element. *)
Definition push_char (chars : list ascii) (begin : option nat) (end_ : nat)
    (c : ascii) : list ascii * option nat :=
  match begin with
  | Some b =>
      if (b <? end_)%nat then (<[b := c]> chars, Some (S b))
      else (chars, None)
  | None => (chars, None)
  end.

(** The locals of [enumerate_charset] while it scans. *)
Record scan_state := {
  sc_spec : list ascii;      (* [spec], the bytes from the scan pointer on *)
  sc_chars : list ascii;     (* [chars], the 95-byte array *)
  sc_result : option nat;    (* [result], an offset into [chars] *)
  sc_l : ascii;              (* [l] *)
  sc_op : bool               (* [op], only ever 0 or 1 *)
}.

Definition chars_end : nat := 95.

Definition sc_push (s : scan_state) (c : ascii) : scan_state :=
  let '(chars', result') := push_char (sc_chars s) (sc_result s) chars_end c in
  {| sc_spec := sc_spec s; sc_chars := chars'; sc_result := result';
     sc_l := sc_l s; sc_op := sc_op s |}.

Definition sc_set_l (s : scan_state) (c : ascii) : scan_state :=
  {| sc_spec := sc_spec s; sc_chars := sc_chars s; sc_result := sc_result s;
     sc_l := c; sc_op := sc_op s |}.

Definition sc_set_op (s : scan_state) (b : bool) : scan_state :=
  {| sc_spec := sc_spec s; sc_chars := sc_chars s; sc_result := sc_result s;
     sc_l := sc_l s; sc_op := b |}.

(** [++spec] *)
Definition sc_advance (s : scan_state) : scan_state :=
  {| sc_spec := tail (sc_spec s); sc_chars := sc_chars s;
     sc_result := sc_result s; sc_l := sc_l s; sc_op := sc_op s |}.

(** Where control stands: at the test of the [while] loop, or at the test of
    the [for] loop that expands a range up to [c]. *)
Inductive point :=
  | AtWhile
  | AtFor (c : ascii).

(** One turn of the loop that control stands at.  [None]: the [while] loop
    is left.  A whitespace character takes the [continue], which returns to
    the test with [spec] where it was. *)
Definition scan_step (pt : point) (s : scan_state)
  : option (point * scan_state) :=
  match pt with
  | AtWhile =>
      let c := deref (sc_spec s) in
      if Ascii.eqb c NUL then None
      else if isspace c then Some (AtWhile, s)
      else if Ascii.eqb (sc_l s) NUL && Ascii.eqb c "-" then
        Some (AtWhile, sc_advance (sc_push s c))
      else if Ascii.eqb (sc_l s) NUL then
        Some (AtWhile, sc_advance (sc_set_l s c))
      else if Ascii.eqb c "-" then
        Some (AtWhile, sc_advance (sc_set_op s true))
      else if sc_op s then
        Some (AtFor c, s)
      else
        Some (AtWhile, sc_advance (sc_set_l (sc_push s (sc_l s)) c))
  | AtFor c =>
      if schar (sc_l s) <=? schar c then
        Some (AtFor c, sc_set_l (sc_push s (sc_l s)) (char_incr (sc_l s)))
      else
        Some (AtWhile, sc_advance (sc_set_l (sc_set_op s false) NUL))
  end.

(** The loops, run for at most [fuel] turns; [None] when the fuel is spent
    before the [while] loop is left. *)
Fixpoint scan_run (fuel : nat) (pt : point) (s : scan_state)
  : option scan_state :=
  match fuel with
  | O => None
  | S fuel' =>
      match scan_step pt s with
      | None => Some s
      | Some (pt', s') => scan_run fuel' pt' s'
      end
  end.

(** The last alias of the chain: ["!-~"] followed by the UTF-8 bytes of the
    seven non-ASCII characters of the source literal. *)
Definition star_extended : list ascii :=
  bytes "!-~" ++
  map (fun n => ascii_of_nat n)
    [195; 182; 195; 164; 195; 188; 194; 181; 226; 130; 172; 194; 167; 194;
     176]%nat.

(** Resolution of the character classes, in the order of the source. *)
Definition resolve_class (spec : list ascii) : list ascii :=
  if streq spec "" || streq spec ":graph:" || streq spec "*" then bytes "!-~"
  else if streq spec ":alnum:" then bytes "a-zA-Z0-9"
  else if streq spec ":alpha:" then bytes "a-zA-Z"
  else if streq spec ":digit:" then bytes "0-9"
  else if streq spec ":lower:" then bytes "a-z"
  else if streq spec ":punct:" then bytes "!-/:-@[-`{-~"
  else if streq spec ":upper:" then bytes "A-Z"
  else if streq spec ":word:" then bytes "A-Za-z0-9_"
  else if streq spec ":xdigit:" then bytes "A-Fa-f0-9"
  else if streq spec "*" then star_extended
  else spec.

Inductive errno := EINVAL | ENOMEM.

(** What [enumerate_charset] hands back: [-1] with [errno], or [0] with
    [*res] and [*rlen]. *)
Inductive charset_result :=
  | Failed (e : errno)
  | Enumerated (res : list ascii) (rlen : nat).

(** The statements after the [while] loop. *)
Definition scan_finish (malloc_ok : bool) (s : scan_state) : charset_result :=
  let s := if Ascii.eqb (sc_l s) NUL then s else sc_push s (sc_l s) in
  let s := if sc_op s then sc_push s "-" else s in
  let s := sc_push s NUL in
  match sc_result s with
  | None => Failed EINVAL
  | Some _ =>
      let rlen := strlen (sc_chars s) in
      if malloc_ok then Enumerated (take rlen (sc_chars s)) rlen
      else Failed ENOMEM
  end.

(** [enumerate_charset(spec, res, rlen)] with [res] and [rlen] valid.
    [stack] is what the array [chars] holds on entry and [malloc_ok] whether
    the allocation of [*res] succeeds.  [*res] is given as the [rlen]
    characters it holds; the terminator that the final [memcpy] writes falls
    one byte past the block of [rlen] bytes and is not part of the model.
    [None]: the fuel is spent. *)
Definition enumerate_charset (fuel : nat) (stack : nat -> ascii)
    (malloc_ok : bool) (spec : option (list ascii)) : option charset_result :=
  match spec with
  | None => Some (Failed EINVAL)
  | Some spec =>
      let spec := resolve_class spec in
      let s0 := {| sc_spec := spec; sc_chars := fresh stack chars_end;
                   sc_result := Some O; sc_l := NUL; sc_op := false |} in
      match scan_run fuel AtWhile s0 with
      | None => None
      | Some s => Some (scan_finish malloc_ok s)
      end
  end.

(** ** The expansion of a specification, in the words of the specification

    [class_expression] and [expansion] follow the resolution rules of the
    charset compiler as the specification words them, with no bound on the
    size of the result; [enumerate_charset] is compared with them below. *)

(** The range expression that a class name stands for. *)
Definition class_expression (spec : list ascii) : list ascii :=
  if bytes_eqb spec (bytes "") || bytes_eqb spec (bytes ":graph:")
     || bytes_eqb spec (bytes "*") then bytes "!-~"
  else if bytes_eqb spec (bytes ":alnum:") then bytes "a-zA-Z0-9"
  else if bytes_eqb spec (bytes ":alpha:") then bytes "a-zA-Z"
  else if bytes_eqb spec (bytes ":digit:") then bytes "0-9"
  else if bytes_eqb spec (bytes ":lower:") then bytes "a-z"
  else if bytes_eqb spec (bytes ":punct:") then bytes "!-/:-@[-`{-~"
  else if bytes_eqb spec (bytes ":upper:") then bytes "A-Z"
  else if bytes_eqb spec (bytes ":word:") then bytes "A-Za-z0-9_"
  else if bytes_eqb spec (bytes ":xdigit:") then bytes "A-Fa-f0-9"
  else spec.

(** The inclusive range between two endpoints, ascending; empty when the
    left endpoint lies above the right one. *)
Definition char_range (l c : ascii) : list ascii :=
  map char_of_Z (seqZ (schar l) (schar c - schar l + 1)).

(** A left-to-right scan of a range expression.  [pending] is the left
    endpoint read and not yet emitted, [op] whether a range operator
    follows it. *)
Fixpoint expand (pending : option ascii) (op : bool) (expr : list ascii)
  : list ascii :=
  match expr with
  | [] =>
      match pending with Some l => [l] | None => [] end
      ++ (if op then ["-"%char] else [])
  | c :: rest =>
      match pending with
      | None =>
          if Ascii.eqb c "-" then c :: expand None op rest
          else expand (Some c) op rest
      | Some l =>
          if Ascii.eqb c "-" then expand (Some l) true rest
          else if op then char_range l c ++ expand None false rest
          else l :: expand (Some c) false rest
      end
  end.

Definition expansion (spec : list ascii) : list ascii :=
  expand None false (class_expression spec).

(** The characters a specification may be made of for the comparison:
    seven-bit, not [NUL], not [DEL], not whitespace. *)
Definition plain_char (c : ascii) : bool :=
  (0 <? uchar c) && (uchar c <? 127) && negb (isspace c).

(** ** The salt and the derivation: [derive_password] *)

Section Derivation.

(** [crypto_scrypt(passwd, passwdlen, salt, saltlen, N, r, p, buf, buflen)]
    of libscrypt-kdf, an external library: [Some out] when it returns [0]
    having written [out] to [buf], [None] when it returns [-1]. *)
Variable crypto_scrypt :
  list ascii -> list ascii -> Z -> Z -> Z -> nat -> option (list ascii).

(** The cost parameters, macros of [padre.h]. *)
Variables MP_N MP_r MP_p : Z.

Definition salt_length (domain username passno : list ascii) : nat :=
  (strlen domain + strlen username + strlen passno)%nat.

(** Lines 32 to 40 of [derive_password]: the block of [salt_len + 1] bytes,
    holding [block] when [malloc] returns it, after the three [memcpy]. *)
Definition build_salt (block : nat -> ascii)
    (domain username passno : list ascii) : list ascii :=
  let salt := fresh block (salt_length domain username passno + 1) in
  let salt := memcpy salt 0 domain (strlen domain + 1) in
  let salt := memcpy salt (strlen salt) username (strlen username + 1) in
  memcpy salt (strlen salt) passno (strlen passno + 1).

(** [derive_password]; [heap] is what [malloc] returns, [None] for
    [nullptr].  [Some buf']: it returns [0] and leaves [buf'] in [buf];
    [None]: it returns [-1]. *)
Definition derive_password (heap : option (nat -> ascii))
    (master_password domain username passno : list ascii)
    (buf_len : nat) (buf : list ascii) : option (list ascii) :=
  match heap with
  | None => None
  | Some block =>
      let salt := build_salt block domain username passno in
      match crypto_scrypt master_password
              (take (salt_length domain username passno) salt)
              MP_N MP_r MP_p buf_len with
      | Some out => Some (out ++ drop buf_len buf)
      | None => None
      end
  end.

(** What a run finds in the memory it does not initialise, and how its
    allocations fare. *)
Record environment := {
  env_fuel : nat;
  env_stack : nat -> ascii;
  env_charset_alloc : bool;
  env_salt_alloc : option (nat -> ascii);
  env_output : nat -> ascii
}.

(** Modelled from the spec: the driver that chains the stages is not in
    [padre.c].  Section 2 of the specification gives the control flow: the
    charset compiler on the record's charset specification, the salt and the
    derivation on master secret, domain, username, iteration and length,
    then the alphabet mapper on the raw bytes and the compiled alphabet.
    The output buffer has [len + 1] bytes, the last for the terminator that
    [to_chars] writes; the password is its first [len] bytes. *)
Definition generate_password (e : environment)
    (master_password domain username iteration charset_spec : list ascii)
    (len : nat) : option (list ascii) :=
  match enumerate_charset (env_fuel e) (env_stack e) (env_charset_alloc e)
          (Some charset_spec) with
  | Some (Enumerated chars clen) =>
      match derive_password (env_salt_alloc e) master_password domain
              username iteration len (fresh (env_output e) (len + 1)) with
      | Some buf =>
          match to_chars buf len chars (Z.of_nat clen) with
          | Some buf' => Some (take len buf')
          | None => None
          end
      | None => None
      end
  | _ => None
  end.

End Derivation.

(** ** The account database parser: [parse_accounts] *)

Fixpoint skip_spaces (p : list ascii) : list ascii :=
  match p with
  | c :: r => if isspace c then skip_spaces r else p
  | [] => []
  end.

Fixpoint digits_value (acc : Z) (p : list ascii) : Z :=
  match p with
  | c :: r =>
      if isdigit c then digits_value (acc * 10 + (uchar c - 48)) r else acc
  | [] => acc
  end.

(** The number that [strtol] reads in base 10: leading whitespace, an
    optional sign, decimal digits up to the first other character; 0 when
    there is no digit. *)
Definition decimal_value (p : list ascii) : Z :=
  match skip_spaces p with
  | c :: r =>
      if Ascii.eqb c "-" then - digits_value 0 r
      else if Ascii.eqb c "+" then digits_value 0 r
      else digits_value 0 (c :: r)
  | [] => 0
  end.

Definition LONG_MIN : Z := - 2 ^ 63.
Definition LONG_MAX : Z := 2 ^ 63 - 1.

(** [strtol(p, NULL, 10)] with a [long] of 64 bits: a number out of range
    gives [LONG_MIN] or [LONG_MAX]. *)
Definition strtol (p : list ascii) : Z :=
  Z.max LONG_MIN (Z.min LONG_MAX (decimal_value p)).

(** Conversion of a [long] to [int] (32 bits, two's complement). *)
Definition int_of_long (z : Z) : Z := (z + 2 ^ 31) mod 2 ^ 32 - 2 ^ 31.

(** [atoi], an [int].  C leaves it undefined where the number does not fit
    an [int]; the value here is the one of glibc on x86-64, where [atoi(p)]
    is [(int) strtol(p, NULL, 10)]. *)
Definition atoi (p : list ascii) : Z := int_of_long (strtol p).

(** [struct account]: pointers into the database buffer as offsets. *)
Record account := {
  a_domain : option nat;
  a_username : option nat;
  a_iteration : option nat;
  a_characters : option nat;
  a_length : Z
}.

Definition no_account : account :=
  {| a_domain := None; a_username := None; a_iteration := None;
     a_characters := None; a_length := 0 |}.

(** [struct account_list]; [al_accounts] holds the [al_size] elements in
    use.  Allocation is taken to succeed, as the source takes it. *)
Record account_list := {
  al_accounts : list account;
  al_size : nat;
  al_capacity : nat
}.

Definition new_account_list (initial_capacity : nat) : account_list :=
  {| al_accounts := []; al_size := 0; al_capacity := initial_capacity |}.

Definition free_account_list (list : account_list) : account_list :=
  {| al_accounts := []; al_size := 0; al_capacity := 0 |}.

Definition push_account (list : account_list) (a : account) : account_list :=
  let capacity :=
    if (al_size list =? al_capacity list)%nat then (al_capacity list * 2)%nat
    else al_capacity list in
  {| al_accounts := take (al_size list) (al_accounts list) ++ [a];
     al_size := S (al_size list);
     al_capacity := capacity |}.

(** The two messages written to [stderr], with the number they print. *)
Inductive diagnostic :=
  | InvalidEntry (line : nat)
  | InvalidLength (line : nat).

(** The locals of [parse_accounts] and what it has written so far.  [str]
    is the length of [ps_buf]: the bytes before [str], as the loop left
    them. *)
Record parse_state := {
  ps_buf : list ascii;
  ps_cur : nat;
  ps_account : account;
  ps_list : account_list;
  ps_stderr : list diagnostic
}.

Inductive parse_flow :=
  | Return (s : parse_state)
  | Next (s : parse_state).

(** The body of the [for] loop on the byte [c] at [str]. *)
Definition parse_byte (c : ascii) (s : parse_state) : parse_flow :=
  let str := length (ps_buf s) in
  let a := ps_account s in
  let keep :=
    Next {| ps_buf := ps_buf s ++ [c]; ps_cur := ps_cur s;
            ps_account := a; ps_list := ps_list s;
            ps_stderr := ps_stderr s |} in
  let field a' :=
    Next {| ps_buf := ps_buf s ++ [NUL]; ps_cur := S str;
            ps_account := a'; ps_list := ps_list s;
            ps_stderr := ps_stderr s |} in
  if Ascii.eqb c "010" then
    let a' := {| a_domain := a_domain a; a_username := a_username a;
                 a_iteration := a_iteration a;
                 a_characters := Some (ps_cur s); a_length := a_length a |} in
    match a_domain a', a_username a' with
    | Some _, Some _ =>
        Next {| ps_buf := ps_buf s ++ [NUL]; ps_cur := S str;
                ps_account := no_account;
                ps_list := push_account (ps_list s) a';
                ps_stderr := ps_stderr s |}
    | _, _ =>
        Next {| ps_buf := ps_buf s ++ [NUL]; ps_cur := S str;
                ps_account := no_account;
                ps_list := ps_list s;
                ps_stderr :=
                  ps_stderr s ++ [InvalidEntry (al_size (ps_list s) + 1)] |}
    end
  else if Ascii.eqb c "," then
    match a_domain a, a_username a, a_iteration a with
    | None, _, _ =>
        field {| a_domain := Some (ps_cur s); a_username := a_username a;
                 a_iteration := a_iteration a;
                 a_characters := a_characters a; a_length := a_length a |}
    | Some _, None, _ =>
        field {| a_domain := a_domain a; a_username := Some (ps_cur s);
                 a_iteration := a_iteration a;
                 a_characters := a_characters a; a_length := a_length a |}
    | Some _, Some _, None =>
        field {| a_domain := a_domain a; a_username := a_username a;
                 a_iteration := Some (ps_cur s);
                 a_characters := a_characters a; a_length := a_length a |}
    | Some _, Some _, Some _ =>
        if a_length a =? 0 then
          let tmp := atoi (drop (ps_cur s) (ps_buf s ++ [NUL])) in
          if (tmp =? 0) || (tmp <? 0) then
            Return {| ps_buf := ps_buf s ++ [NUL]; ps_cur := ps_cur s;
                      ps_account := a;
                      ps_list := free_account_list (ps_list s);
                      ps_stderr :=
                        ps_stderr s
                        ++ [InvalidLength (al_size (ps_list s) + 1)] |}
          else
            field {| a_domain := a_domain a; a_username := a_username a;
                     a_iteration := a_iteration a;
                     a_characters := a_characters a; a_length := tmp |}
        else keep
    end
  else keep.

(** The [for] loop over the bytes from [str] to [end]. *)
Fixpoint parse_loop (rest : list ascii) (s : parse_state) : parse_flow :=
  match rest with
  | [] => Next s
  | c :: rest' =>
      match parse_byte c s with
      | Return r => Return r
      | Next s' => parse_loop rest' s'
      end
  end.

(** What a call of [parse_accounts] leaves: the list it returns, the buffer
    as rewritten, the lines written to [stderr]. *)
Record parsed := {
  p_list : account_list;
  p_buffer : list ascii;
  p_stderr : list diagnostic
}.

(** [parse_accounts] from a list of a given initial capacity. *)
Definition parse_from (initial_capacity : nat) (buffer : list ascii)
  : parsed :=
  let s0 := {| ps_buf := []; ps_cur := 0; ps_account := no_account;
               ps_list := new_account_list initial_capacity;
               ps_stderr := [] |} in
  match parse_loop buffer s0 with
  | Return s =>
      {| p_list := ps_list s;
         p_buffer := ps_buf s ++ drop (length (ps_buf s)) buffer;
         p_stderr := ps_stderr s |}
  | Next s =>
      let list :=
        if (ps_cur s <? length buffer)%nat then
          let a := ps_account s in
          push_account (ps_list s)
            {| a_domain := a_domain a; a_username := a_username a;
               a_iteration := a_iteration a;
               a_characters := Some (ps_cur s); a_length := a_length a |}
        else ps_list s in
      {| p_list := list; p_buffer := ps_buf s; p_stderr := ps_stderr s |}
  end.

Section Parser.

(** A macro of [padre.h]. *)
Variable AVERAGE_DATABASE_ENTRY_SIZE : Z.

(** [parse_accounts(begin, end)] on the buffer of the bytes from [begin] to
    [end]. *)
Definition parse_accounts (buffer : list ascii) : parsed :=
  let n := Z.of_nat (length buffer) in
  parse_from
    (if n <? AVERAGE_DATABASE_ENTRY_SIZE then 1%nat
     else Z.to_nat (Z.quot n AVERAGE_DATABASE_ENTRY_SIZE))
    buffer.

End Parser.

(** The text of a field of a record: the C string at its offset in the
    rewritten buffer.  The end of the buffer counts as a terminator, which
    the caller's buffer has to supply for a last line without newline. *)
Definition field_text (p : parsed) (field : option nat)
  : option (list ascii) :=
  match field with
  | Some off => Some (cstr (drop off (p_buffer p)))
  | None => None
  end.

(** The line feed that ends a record. *)
Definition LF : ascii := "010"%char.

(** ** The pipeline on a record *)

Section Driver.

Variable crypto_scrypt :
  list ascii -> list ascii -> Z -> Z -> Z -> nat -> option (list ascii).
Variables MP_N MP_r MP_p : Z.

(** Modelled from the spec: the driver that walks the account list is not in
    [padre.c].  Following section 2 of the specification, the pipeline is
    run on the fields of the record, each the C string at its offset in the
    parsed buffer, and on the record's length; a record with a null field
    yields no password. *)
Definition record_password (e : environment) (master_password : list ascii)
    (p : parsed) (a : account) : option (list ascii) :=
  match a_domain a, a_username a, a_iteration a, a_characters a with
  | Some d, Some u, Some i, Some c =>
      generate_password crypto_scrypt MP_N MP_r MP_p e master_password
        (drop d (p_buffer p)) (drop u (p_buffer p)) (drop i (p_buffer p))
        (drop c (p_buffer p)) (Z.to_nat (a_length a))
  | _, _, _, _ => None
  end.

End Driver.

(** [isalnum] in the C locale. *)
Definition isalnum (c : ascii) : bool :=
  isdigit c
  || ((65 <=? uchar c) && (uchar c <=? 90))
  || ((97 <=? uchar c) && (uchar c <=? 122)).

(** A stand-in for the key derivation, to run the pipeline on examples: the
    first [n] bytes of secret, salt and padding. *)
Definition sample_kdf (passwd salt : list ascii) (N r p : Z) (n : nat)
  : option (list ascii) :=
  Some (take n (passwd ++ salt ++ repeat "A"%char n)).

(** Two environments that differ in everything a run does not control. *)
Definition sample_env_1 : environment :=
  {| env_fuel := 300; env_stack := fun _ => "x"%char;
     env_charset_alloc := true; env_salt_alloc := Some (fun _ => "y"%char);
     env_output := fun _ => "z"%char |}.

Definition sample_env_2 : environment :=
  {| env_fuel := 500; env_stack := fun n => ascii_of_nat n;
     env_charset_alloc := true; env_salt_alloc := Some (fun _ => NUL);
     env_output := fun n => ascii_of_nat (n + 7) |}.

(* ================================================================== *)
(** * Part I, continued: notions used in the statements and proofs     *)
(* ================================================================== *)

(** The text that the specification asks of the mapper. *)
Definition mapped (raw alphabet : list ascii) : list ascii :=
  map (fun b =>
         nth (Z.to_nat (uchar b mod Z.of_nat (length alphabet))) alphabet NUL)
      raw.

(** Two states of the scan that differ at most in the part of [chars] not
    yet written. *)
Definition related (s1 s2 : scan_state) : Prop :=
  sc_spec s1 = sc_spec s2 /\ sc_l s1 = sc_l s2 /\ sc_op s1 = sc_op s2
  /\ sc_result s1 = sc_result s2
  /\ length (sc_chars s1) = chars_end /\ length (sc_chars s2) = chars_end
  /\ forall k, sc_result s1 = Some k ->
               take k (sc_chars s1) = take k (sc_chars s2).

(** The string at [p] holds a whitespace character. *)
Definition has_space (p : list ascii) : bool := existsb isspace (cstr p).

(** Whitespace lies ahead of the scan pointer; inside the range loop the
    pointer still stands on the right endpoint. *)
Definition space_ahead (pt : point) (s : scan_state) : bool :=
  match pt with
  | AtWhile => has_space (sc_spec s)
  | AtFor _ => has_space (tail (sc_spec s))
  end.

(** The array and the write offset, the part of the state that
    [push_char] acts on. *)
Definition sc_mem (s : scan_state) : list ascii * option nat :=
  (sc_chars s, sc_result s).

Definition push_all (xs : list ascii) (m : list ascii * option nat)
  : list ascii * option nat :=
  fold_left (fun m c => push_char (fst m) (snd m) chars_end c) xs m.

(** What the statements after the loop push before the terminator. *)
Definition tail_pushes (l : ascii) (op : bool) : list ascii :=
  (if Ascii.eqb l NUL then [] else [l]) ++ (if op then ["-"%char] else []).

Definition pending_of (l : ascii) : option ascii :=
  if Ascii.eqb l NUL then None else Some l.

(** The return of [enumerate_charset] from the array and the offset. *)
Definition finish (malloc_ok : bool) (m : list ascii * option nat)
  : charset_result :=
  match snd m with
  | None => Failed EINVAL
  | Some _ =>
      let rlen := strlen (fst m) in
      if malloc_ok then Enumerated (take rlen (fst m)) rlen
      else Failed ENOMEM
  end.

(** A list and a state with the capacity forgotten. *)
Definition forget_capacity (l : account_list) : account_list :=
  {| al_accounts := al_accounts l; al_size := al_size l; al_capacity := 0 |}.

Definition forget_state (s : parse_state) : parse_state :=
  {| ps_buf := ps_buf s; ps_cur := ps_cur s; ps_account := ps_account s;
     ps_list := forget_capacity (ps_list s); ps_stderr := ps_stderr s |}.

Definition forget_flow (f : parse_flow) : parse_flow :=
  match f with
  | Return s => Return (forget_state s)
  | Next s => Next (forget_state s)
  end.

(** What a caller can see of a parse apart from the capacity: the accounts,
    their number, the buffer and the diagnostics. *)
Definition observable (p : parsed)
  : list account * nat * list ascii * list diagnostic :=
  (al_accounts (p_list p), al_size (p_list p), p_buffer p, p_stderr p).

(** The state in which [parse_accounts] returns early: the list freed and
    the message about the length written last. *)
Definition aborted (r : parse_state) : Prop :=
  al_accounts (ps_list r) = [] /\ al_size (ps_list r) = 0%nat
  /\ exists n, last (ps_stderr r) = Some (InvalidLength n).

(** The state at the start of a line. *)
Definition line_start (s : parse_state) : Prop :=
  ps_account s = no_account /\ ps_cur s = length (ps_buf s).

(** Text made of whole lines. *)
Definition whole_lines (text : list ascii) : Prop :=
  text = [] \/ exists body, text = body ++ [LF].

(** The bytes of a text before its first newline. *)
Fixpoint upto_LF (xs : list ascii) : list ascii :=
  match xs with
  | [] => []
  | c :: r => if Ascii.eqb c "010" then [] else c :: upto_LF r
  end.

(** The line of the buffer that starts at offset [off]. *)
Definition line_at (buffer : list ascii) (off : nat) : list ascii :=
  upto_LF (drop off buffer).

Fixpoint commas (xs : list ascii) : nat :=
  match xs with
  | [] => 0
  | c :: r => if Ascii.eqb c "," then S (commas r) else commas r
  end.

(** A record whose line a newline ends: the buffer, as it was before the
    parse, holds a newline at or after the place that the characters of the
    record point to. *)
Definition line_ended (buffer : list ascii) (a : account) : Prop :=
  exists c, a_characters a = Some c /\ In "010"%char (drop c buffer).

(** What the loop has made sure of when it appends a record at a newline:
    the domain points to the start of the line, the username is there, and
    a line with four commas or more, whose length field was read, has a
    length above zero. *)
Definition checked (buffer : list ascii) (a : account) : Prop :=
  exists d,
    a_domain a = Some d /\ a_username a <> None
    /\ ((4 <= commas (line_at buffer d))%nat -> 0 < a_length a).

(** The record under construction when [n] commas of a line that starts at
    offset [start] have been read. *)
Definition fields_read (start n : nat) (a : account) : Prop :=
  match n with
  | 0%nat => a = no_account
  | 1%nat =>
      a_domain a = Some start /\ a_username a = None
      /\ a_iteration a = None /\ a_length a = 0
  | 2%nat =>
      a_domain a = Some start /\ a_username a <> None
      /\ a_iteration a = None /\ a_length a = 0
  | 3%nat =>
      a_domain a = Some start /\ a_username a <> None
      /\ a_iteration a <> None /\ a_length a = 0
  | _ =>
      a_domain a = Some start /\ a_username a <> None
      /\ a_iteration a <> None /\ 0 < a_length a
  end.

(** The state of the loop when it has read the lines [done] of [buffer] and
    the part [line] of the line after them. *)
Definition scanning (buffer done line : list ascii) (s : parse_state)
  : Prop :=
  length (ps_buf s) = length (done ++ line)
  /\ (length done <= ps_cur s <= length (done ++ line))%nat
  /\ (commas line = 0%nat -> ps_cur s = length done)
  /\ fields_read (length done) (commas line) (ps_account s)
  /\ Forall (fun a => line_ended buffer a /\ checked buffer a)
       (al_accounts (ps_list s)).

(** The invariant that the specification gives for a record: domain and
    username present and not empty, length above zero. *)
Definition record_invariant (p : parsed) (a : account) : Prop :=
  (exists d, field_text p (a_domain a) = Some d /\ d <> [])
  /\ (exists u, field_text p (a_username a) = Some u /\ u <> [])
  /\ 0 < a_length a.

(** The bytes of a field: neither comma nor newline. *)
Definition field_bytes (xs : list ascii) : bool :=
  forallb (fun c => negb (Ascii.eqb c LF) && negb (Ascii.eqb c ",")) xs.

Definition put_buf (s : parse_state) (buf : list ascii) : parse_state :=
  {| ps_buf := buf; ps_cur := ps_cur s; ps_account := ps_account s;
     ps_list := ps_list s; ps_stderr := ps_stderr s |}.

(** The alphabet of [:alnum:]. *)
Definition alnum_alphabet : list ascii :=
  bytes "abcdefghijklmnopqrstuvwxyzABCDEFGHIJKLMNOPQRSTUVWXYZ0123456789".

(** The buffer as the parser leaves it on the example line. *)
Definition example_buffer : list ascii :=
  bytes "example.com" ++ NUL :: bytes "alice" ++ NUL ::
  bytes "1" ++ NUL :: bytes "12" ++ NUL :: bytes ":alnum:" ++ [NUL].

Definition example_account : account :=
  {| a_domain := Some 0%nat; a_username := Some 12%nat;
     a_iteration := Some 18%nat; a_characters := Some 23%nat;
     a_length := 12 |}.

(** A run of [push_char] calls on an array with its end at [end_], each
    call taking the pointer that the one before returned. *)
Definition push_seq (end_ : nat) (xs : list ascii)
    (m : list ascii * option nat) : list ascii * option nat :=
  fold_left (fun m c => push_char (fst m) (snd m) end_ c) xs m.

(** The character [DEL], the largest value of a signed [char]. *)
Definition DEL : ascii := "127"%char.

(** A character that stands for itself in a specification: plain, and none
    of the characters that make a range or a class name. *)
Definition literal_char (c : ascii) : bool :=
  plain_char c && negb (Ascii.eqb c "-") && negb (Ascii.eqb c ":")
  && negb (Ascii.eqb c "*").

(** The invariant of an account list: [al_size] counts the elements in use
    and does not exceed the capacity. *)
Definition well_sized (l : account_list) : Prop :=
  al_size l = length (al_accounts l) /\ (al_size l <= al_capacity l)%nat.

(** A byte of the buffer after the parse, against the byte before: the same
    byte, or a NUL written over a comma or a newline. *)
Definition rewritten (old new : ascii) : Prop :=
  new = old \/ (new = NUL /\ (old = ","%char \/ old = LF)).

(** A pointer that is null or points into a buffer of [n] bytes. *)
Definition inside (n : nat) (field : option nat) : Prop :=
  match field with
  | Some off => (off < n)%nat
  | None => True
  end.

Definition fields_inside (n : nat) (a : account) : Prop :=
  inside n (a_domain a) /\ inside n (a_username a)
  /\ inside n (a_iteration a) /\ inside n (a_characters a).

(** The state that a turn of the loop leaves, however the loop goes on. *)
Definition flow_state (f : parse_flow) : parse_state :=
  match f with
  | Return s => s
  | Next s => s
  end.

(** The pointers of the parser stay inside the part of the buffer read so
    far. *)
Definition pointers_inside (s : parse_state) : Prop :=
  (ps_cur s <= length (ps_buf s))%nat
  /\ fields_inside (length (ps_buf s)) (ps_account s)
  /\ Forall (fields_inside (length (ps_buf s))) (al_accounts (ps_list s)).

(** ** Databases as text, to state what the parser reads back *)

(** The five fields of a line, as bytes; [e_length] is the text of the
    length. *)
Record entry := {
  e_domain : list ascii;
  e_username : list ascii;
  e_iteration : list ascii;
  e_length : list ascii;
  e_characters : list ascii
}.

(** The line of an entry, in the field order that the parser reads. *)
Definition entry_text (e : entry) : list ascii :=
  e_domain e ++ ","%char :: e_username e ++ ","%char :: e_iteration e
  ++ ","%char :: e_length e ++ ","%char :: e_characters e.

Definition no_newline (xs : list ascii) : bool :=
  forallb (fun c => negb (Ascii.eqb c LF)) xs.

(** The first four fields hold neither comma nor newline, the fifth no
    newline, and [atoi] reads the length as an [int] above zero. *)
Definition entry_ok (e : entry) : bool :=
  field_bytes (e_domain e) && field_bytes (e_username e)
  && field_bytes (e_iteration e) && field_bytes (e_length e)
  && no_newline (e_characters e) && (0 <? atoi (e_length e)).

(** A line of the database: an entry, or a line that stops before its
    second comma, with one field or two. *)
Inductive db_line :=
  | Entry (e : entry)
  | Incomplete (first : list ascii) (second : option (list ascii)).

Definition line_text (l : db_line) : list ascii :=
  match l with
  | Entry e => entry_text e
  | Incomplete a None => a
  | Incomplete a (Some b) => a ++ ","%char :: b
  end.

Definition line_ok (l : db_line) : bool :=
  match l with
  | Entry e => entry_ok e
  | Incomplete a None => field_bytes a
  | Incomplete a (Some b) => field_bytes a && field_bytes b
  end.

(** The text of a database: each line followed by a newline. *)
Definition database (ls : list db_line) : list ascii :=
  flat_map (fun l => line_text l ++ [LF]) ls.

(** A line as the parser leaves it in the buffer. *)
Definition line_rewritten (l : db_line) : list ascii :=
  match l with
  | Entry e =>
      e_domain e ++ NUL :: e_username e ++ NUL :: e_iteration e ++ NUL ::
      e_length e ++ NUL :: e_characters e ++ [NUL]
  | Incomplete a None => a ++ [NUL]
  | Incomplete a (Some b) => a ++ NUL :: b ++ [NUL]
  end.

(** The record of an entry whose line starts at offset [pos]. *)
Definition entry_account (pos : nat) (e : entry) : account :=
  {| a_domain := Some pos;
     a_username := Some (pos + S (length (e_domain e)))%nat;
     a_iteration :=
       Some (pos + S (length (e_domain e)) + S (length (e_username e)))%nat;
     a_characters :=
       Some (pos + S (length (e_domain e)) + S (length (e_username e))
             + S (length (e_iteration e)) + S (length (e_length e)))%nat;
     a_length := atoi (e_length e) |}.

Fixpoint expected_accounts (pos : nat) (ls : list db_line) : list account :=
  match ls with
  | [] => []
  | l :: ls' =>
      let rest := expected_accounts (pos + S (length (line_text l))) ls' in
      match l with
      | Entry e => entry_account pos e :: rest
      | Incomplete _ _ => rest
      end
  end.

(** The diagnostics for the incomplete lines, the list holding [size]
    records before the first line: each carries one more than the number of
    records appended so far. *)
Fixpoint expected_stderr (size : nat) (ls : list db_line) : list diagnostic :=
  match ls with
  | [] => []
  | Entry _ :: ls' => expected_stderr (S size) ls'
  | Incomplete _ _ :: ls' =>
      InvalidEntry (size + 1) :: expected_stderr size ls'
  end.

(** The entries among the lines, in order. *)
Fixpoint entries (ls : list db_line) : list entry :=
  match ls with
  | [] => []
  | Entry e :: ls' => e :: entries ls'
  | Incomplete _ _ :: ls' => entries ls'
  end.

(** The text of a field in a buffer, and the texts and the length of a
    record. *)
Definition text_at (buf : list ascii) (field : option nat)
  : option (list ascii) :=
  match field with
  | Some off => Some (cstr (drop off buf))
  | None => None
  end.

Definition texts_in (buf : list ascii) (a : account)
  : option (list ascii) * option (list ascii) * option (list ascii)
    * option (list ascii) * Z :=
  (text_at buf (a_domain a), text_at buf (a_username a),
   text_at buf (a_iteration a), text_at buf (a_characters a), a_length a).

(** What a record for an entry has to show: the fields as C strings and the
    value of the length. *)
Definition entry_view (e : entry)
  : option (list ascii) * option (list ascii) * option (list ascii)
    * option (list ascii) * Z :=
  (Some (cstr (e_domain e)), Some (cstr (e_username e)),
   Some (cstr (e_iteration e)), Some (cstr (e_characters e)),
   atoi (e_length e)).

(* ================================================================== *)
(** * Part II: properties                                              *)
(* ================================================================== *)

(** ** Characters *)

Lemma uchar_range (c : ascii) : 0 <= uchar c < 256.
Proof.
  unfold uchar. pose proof (N_ascii_bounded c). lia.
Qed.

Lemma uchar_inj (a b : ascii) : uchar a = uchar b -> a = b.
Proof.
  unfold uchar. intros H.
  rewrite <- (ascii_N_embedding a), <- (ascii_N_embedding b).
  f_equal. lia.
Qed.

Lemma uchar_char_of_Z (z : Z) : 0 <= z < 256 -> uchar (char_of_Z z) = z.
Proof.
  intros H. unfold uchar, char_of_Z.
  rewrite Z.mod_small by lia.
  rewrite N_ascii_embedding by lia. lia.
Qed.

Lemma char_of_Z_uchar (c : ascii) : char_of_Z (uchar c) = c.
Proof.
  apply uchar_inj. apply uchar_char_of_Z, uchar_range.
Qed.

Lemma eqb_NUL_uchar (c : ascii) : Ascii.eqb c NUL = (uchar c =? 0).
Proof.
  destruct (Ascii.eqb_spec c NUL) as [->|Hne].
  - reflexivity.
  - symmetry. apply Z.eqb_neq. intros H. apply Hne.
    apply uchar_inj. exact H.
Qed.

(** ** C strings *)

Lemma cstr_nul_free (p : list ascii) : Forall (fun c => c <> NUL) (cstr p).
Proof.
  induction p as [|c r IH]; simpl.
  - constructor.
  - destruct (Ascii.eqb_spec c NUL); [constructor|].
    constructor; assumption.
Qed.

Lemma cstr_app_nul (xs rest : list ascii) :
  Forall (fun c => c <> NUL) xs -> cstr (xs ++ NUL :: rest) = xs.
Proof.
  induction 1 as [|c xs Hc _ IH]; simpl.
  - reflexivity.
  - destruct (Ascii.eqb_spec c NUL); [contradiction|].
    now rewrite IH.
Qed.

Lemma cstr_nul_free_id (xs : list ascii) :
  Forall (fun c => c <> NUL) xs -> cstr xs = xs.
Proof.
  induction 1 as [|c xs Hc _ IH]; simpl.
  - reflexivity.
  - destruct (Ascii.eqb_spec c NUL); [contradiction|].
    now rewrite IH.
Qed.

Lemma cstr_idemp (p : list ascii) : cstr (cstr p) = cstr p.
Proof.
  apply cstr_nul_free_id, cstr_nul_free.
Qed.

Lemma strlen_app_nul (xs rest : list ascii) :
  Forall (fun c => c <> NUL) xs -> strlen (xs ++ NUL :: rest) = length xs.
Proof.
  intros H. unfold strlen. now rewrite cstr_app_nul.
Qed.

(** The [strlen p + 1] bytes at [p] are the string and its terminator. *)
Lemma take_terminated (p : list ascii) (m : nat) :
  (1 <= m)%nat ->
  take (strlen p + 1) (p ++ repeat NUL m) = cstr p ++ [NUL].
Proof.
  intros Hm. unfold strlen. induction p as [|c r IH]; simpl.
  - destruct m; [lia|]. reflexivity.
  - destruct (Ascii.eqb_spec c NUL) as [->|Hne]; simpl.
    + reflexivity.
    + now rewrite IH.
Qed.

Lemma lookup_map {A B : Type} (f : A -> B) (xs : list A) (i : nat) :
  map f xs !! i = option_map f (xs !! i).
Proof.
  revert i. induction xs as [|x xs IH]; intros [|i]; simpl; auto.
Qed.

(** ** The alphabet mapper *)

Lemma int_of_size_t_small (z : Z) : 0 <= z < 2 ^ 31 -> int_of_size_t z = z.
Proof.
  intros H. unfold int_of_size_t.
  rewrite Z.mod_small by lia. lia.
Qed.

Lemma to_chars_mapped (raw more alphabet : list ascii) (t : ascii) :
  alphabet <> [] ->
  Z.of_nat (length alphabet) < 2 ^ 31 ->
  to_chars (raw ++ t :: more) (length raw) alphabet
    (Z.of_nat (length alphabet))
  = Some (mapped raw alphabet ++ NUL :: more).
Proof.
  intros Hne Hlen.
  assert (Hpos : 0 < Z.of_nat (length alphabet)).
  { destruct alphabet; [contradiction|]. simpl length. lia. }
  induction raw as [|b raw IH].
  - reflexivity.
  - cbn [to_chars length app].
    rewrite int_of_size_t_small by lia.
    destruct (Z.eqb_spec (Z.of_nat (length alphabet)) 0) as [E|_]; [lia|].
    pose proof (uchar_range b) as Hb.
    rewrite Z.rem_mod_nonneg by lia.
    pose proof (Z.mod_pos_bound (uchar b) _ Hpos) as Hm.
    destruct (lookup_lt_is_Some_2 alphabet
                (Z.to_nat (uchar b mod Z.of_nat (length alphabet))))
      as [ch Hch]; [lia|].
    rewrite Hch, IH. cbn [mapped map].
    now rewrite (nth_lookup_Some _ _ NUL _ Hch).
Qed.

Lemma mapped_in (raw alphabet : list ascii) :
  alphabet <> [] -> Forall (fun ch => In ch alphabet) (mapped raw alphabet).
Proof.
  intros Hne.
  assert (Hpos : 0 < Z.of_nat (length alphabet)).
  { destruct alphabet; [contradiction|]. simpl length. lia. }
  unfold mapped. apply Forall_map, Forall_forall. intros b _.
  apply nth_In.
  pose proof (Z.mod_pos_bound (uchar b) _ Hpos). lia.
Qed.

(** C3 (to_chars): for every sequence of raw bytes in a buffer with room for
    the terminator and every non-empty alphabet whose length fits an [int],
    [to_chars] succeeds and leaves a text of as many characters as there
    were raw bytes, followed by the terminator; its i-th character is the
    alphabet's entry at the i-th raw byte modulo the alphabet's length; and
    every character of the text is an element of the alphabet. *)
Theorem to_chars_maps_each_byte_into_alphabet
    (raw more alphabet : list ascii) (t : ascii) :
  alphabet <> [] ->
  Z.of_nat (length alphabet) < 2 ^ 31 ->
  exists text,
    to_chars (raw ++ t :: more) (length raw) alphabet
      (Z.of_nat (length alphabet)) = Some (text ++ NUL :: more)
    /\ length text = length raw
    /\ (forall (i : nat) (b : ascii),
          raw !! i = Some b ->
          exists ch,
            text !! i = Some ch
            /\ alphabet
                 !! Z.to_nat (uchar b mod Z.of_nat (length alphabet))
               = Some ch)
    /\ Forall (fun ch => In ch alphabet) text.
Proof.
  intros Hne Hlen. exists (mapped raw alphabet).
  split; [now apply to_chars_mapped|].
  split; [unfold mapped; now rewrite length_map|].
  split; [|now apply mapped_in].
  intros i b Hb.
  assert (Hpos : 0 < Z.of_nat (length alphabet)).
  { destruct alphabet; [contradiction|]. simpl length. lia. }
  pose proof (Z.mod_pos_bound (uchar b) _ Hpos) as Hm.
  destruct (lookup_lt_is_Some_2 alphabet
              (Z.to_nat (uchar b mod Z.of_nat (length alphabet))))
    as [ch Hch]; [lia|].
  exists ch. split; [|exact Hch].
  unfold mapped. rewrite lookup_map, Hb. simpl. f_equal.
  now apply nth_lookup_Some with (d := NUL) in Hch.
Qed.

Lemma to_chars_maps_each_byte_into_alphabet_witness :
  exists text,
    to_chars (bytes "abcd") 3 (bytes "01") 2 = Some (text ++ [NUL])
    /\ length text = 3%nat
    /\ (forall (i : nat) (b : ascii),
          bytes "abc" !! i = Some b ->
          exists ch,
            text !! i = Some ch
            /\ bytes "01" !! Z.to_nat (uchar b mod 2) = Some ch)
    /\ Forall (fun ch => In ch (bytes "01")) text.
Proof.
  apply (to_chars_maps_each_byte_into_alphabet
           (bytes "abc") [] (bytes "01") "d"%char).
  - discriminate.
  - vm_compute. reflexivity.
Defined.

(** ** The salt *)

Lemma length_fresh (init : nat -> ascii) (n : nat) : length (fresh init n) = n.
Proof.
  unfold fresh. now rewrite length_map, length_seq.
Qed.

(** Copying a string and its terminator over the tail [g0 :: g] of a
    block. *)
Lemma memcpy_terminated (xs g src : list ascii) (g0 : ascii) :
  memcpy (xs ++ g0 :: g) (length xs) src (strlen src + 1)
  = xs ++ cstr src ++ NUL :: drop (strlen src) g.
Proof.
  unfold memcpy.
  rewrite take_app_length, take_terminated by lia.
  rewrite drop_app_add.
  rewrite Nat.add_1_r. cbn [drop].
  now rewrite <- app_assoc.
Qed.

Lemma build_salt_bytes (block : nat -> ascii) (d u i : list ascii) :
  build_salt block d u i = cstr d ++ cstr u ++ cstr i ++ [NUL].
Proof.
  unfold build_salt.
  pose proof (length_fresh block (salt_length d u i + 1)) as Hlen.
  destruct (fresh block (salt_length d u i + 1)) as [|g0 g] eqn:E.
  { simpl in Hlen. lia. }
  simpl in Hlen. unfold salt_length in Hlen.
  pose proof (memcpy_terminated [] g d g0) as H0.
  cbn [app length] in H0. rewrite H0. clear H0.
  rewrite (strlen_app_nul (cstr d)) by apply cstr_nul_free.
  rewrite (memcpy_terminated (cstr d) _ u NUL).
  rewrite app_assoc.
  rewrite (strlen_app_nul (cstr d ++ cstr u))
    by (apply Forall_app; split; apply cstr_nul_free).
  rewrite (memcpy_terminated (cstr d ++ cstr u) _ i NUL).
  rewrite !drop_drop, <- app_assoc.
  rewrite drop_ge by lia. reflexivity.
Qed.

Lemma salt_bytes (block : nat -> ascii) (d u i : list ascii) :
  take (salt_length d u i) (build_salt block d u i)
  = cstr d ++ cstr u ++ cstr i.
Proof.
  rewrite build_salt_bytes.
  rewrite !app_assoc. apply take_app_length'.
  unfold salt_length, strlen. rewrite !length_app. lia.
Qed.

(** Two lists of the same length that differ, each followed by anything,
    still differ. *)
Lemma app_differs (a b x y : list ascii) :
  length a = length b -> a <> b -> a ++ x <> b ++ y.
Proof.
  intros Hlen Hne Heq. apply Hne.
  apply (f_equal (take (length a))) in Heq.
  rewrite take_app_length in Heq.
  rewrite Hlen, take_app_length in Heq. exact Heq.
Qed.

(** C4, as the code has it (build_salt in derive_password): the salt handed
    to the key derivation is the bytes of domain, then username, then
    iteration, with no separator, and its length is the sum of the three
    byte-lengths, the terminator that follows it in the block not counted.
    Swapping two fields changes the salt whenever the two fields differ and
    have the same length, and so does every swap of the fields a, b, c. *)
Theorem salt_is_ordered_concatenation
    (block : nat -> ascii) (d u i : list ascii) :
  take (salt_length d u i) (build_salt block d u i)
    = cstr d ++ cstr u ++ cstr i
  /\ salt_length d u i
     = (length (cstr d) + length (cstr u) + length (cstr i))%nat
  /\ build_salt block d u i = (cstr d ++ cstr u ++ cstr i) ++ [NUL]
  /\ (length (cstr d) = length (cstr u) /\ cstr d <> cstr u ->
      take (salt_length u d i) (build_salt block u d i)
      <> take (salt_length d u i) (build_salt block d u i))
  /\ (length (cstr u) = length (cstr i) /\ cstr u <> cstr i ->
      take (salt_length d i u) (build_salt block d i u)
      <> take (salt_length d u i) (build_salt block d u i))
  /\ (length (cstr d) = length (cstr i) /\ cstr d <> cstr i ->
      take (salt_length i u d) (build_salt block i u d)
      <> take (salt_length d u i) (build_salt block d u i))
  /\ (let a := bytes "a" in
      let b := bytes "b" in
      let c := bytes "c" in
      let salt x y z := take (salt_length x y z) (build_salt block x y z) in
      salt a b c = bytes "abc"
      /\ salt b a c <> salt a b c
      /\ salt a c b <> salt a b c
      /\ salt c b a <> salt a b c).
Proof.
  rewrite !salt_bytes, build_salt_bytes.
  split; [reflexivity|].
  split; [reflexivity|].
  split; [now rewrite <- !app_assoc|].
  split; [|split; [|split]].
  - intros [Hlen Hne]. apply app_differs; [lia|congruence].
  - intros [Hlen Hne] Heq. apply app_inv_head in Heq.
    revert Heq. apply app_differs; [lia|congruence].
  - intros [Hlen Hne]. apply app_differs; [lia|congruence].
  - cbv beta zeta. rewrite !salt_bytes. vm_compute.
    repeat split; congruence.
Qed.

(** C4, as stated, fails: the salts of ("a", "aa", "c") and ("aa", "a", "c")
    coincide although domain and username differ and are swapped. *)
Lemma salt_swap_collision :
  cstr (bytes "a") <> cstr (bytes "aa")
  /\ (forall block block' : nat -> ascii,
        take (salt_length (bytes "a") (bytes "aa") (bytes "c"))
          (build_salt block (bytes "a") (bytes "aa") (bytes "c"))
        = take (salt_length (bytes "aa") (bytes "a") (bytes "c"))
            (build_salt block' (bytes "aa") (bytes "a") (bytes "c"))).
Proof.
  split.
  - vm_compute. congruence.
  - intros block block'. now rewrite !salt_bytes.
Qed.

(** ** The charset compiler: fuel and indeterminate memory *)

Lemma scan_run_mono (fuel fuel' : nat) (pt : point) (s t : scan_state) :
  scan_run fuel pt s = Some t -> (fuel <= fuel')%nat ->
  scan_run fuel' pt s = Some t.
Proof.
  revert fuel' pt s. induction fuel as [|fuel IH]; intros fuel' pt s H Hle.
  - discriminate.
  - destruct fuel' as [|fuel']; [lia|]. simpl in *.
    destruct (scan_step pt s) as [[pt' s']|]; [|exact H].
    apply IH; [exact H|lia].
Qed.

Lemma take_store (a b : list ascii) (k : nat) (c : ascii) :
  (k < length a)%nat -> (k < length b)%nat -> take k a = take k b ->
  take (S k) (<[k := c]> a) = take (S k) (<[k := c]> b).
Proof.
  intros Ha Hb H.
  rewrite (take_S_r (<[k := c]> a) k c)
    by (now apply list_lookup_insert_eq).
  rewrite (take_S_r (<[k := c]> b) k c)
    by (now apply list_lookup_insert_eq).
  rewrite !take_insert_ge by lia. now rewrite H.
Qed.

Lemma related_push (s1 s2 : scan_state) (c : ascii) :
  related s1 s2 -> related (sc_push s1 c) (sc_push s2 c).
Proof.
  intros (Hs & Hl & Ho & Hr & L1 & L2 & Ht).
  unfold related, sc_push, push_char. rewrite <- Hr.
  destruct (sc_result s1) as [k|]; [|simpl; repeat split; auto; discriminate].
  destruct (Nat.ltb_spec k chars_end) as [Hk|Hk]; simpl;
    [|repeat split; auto; discriminate].
  rewrite !length_insert. repeat split; auto.
  intros k' [= <-]. apply take_store; [lia|lia|now apply Ht].
Qed.

Lemma related_set_l (s1 s2 : scan_state) (c : ascii) :
  related s1 s2 -> related (sc_set_l s1 c) (sc_set_l s2 c).
Proof.
  intros (Hs & Hl & Ho & Hr & L1 & L2 & Ht). repeat split; auto.
Qed.

Lemma related_set_op (s1 s2 : scan_state) (b : bool) :
  related s1 s2 -> related (sc_set_op s1 b) (sc_set_op s2 b).
Proof.
  intros (Hs & Hl & Ho & Hr & L1 & L2 & Ht). repeat split; auto.
Qed.

Lemma related_advance (s1 s2 : scan_state) :
  related s1 s2 -> related (sc_advance s1) (sc_advance s2).
Proof.
  intros (Hs & Hl & Ho & Hr & L1 & L2 & Ht). repeat split; auto.
  simpl. now rewrite Hs.
Qed.

Create HintDb scan.

#[local] Hint Resolve related_push related_set_l related_set_op
  related_advance : scan.

(** The two scans take the same turn. *)
Lemma scan_step_related (pt : point) (s1 s2 : scan_state) :
  related s1 s2 ->
  match scan_step pt s1, scan_step pt s2 with
  | None, None => True
  | Some (pt1, t1), Some (pt2, t2) => pt1 = pt2 /\ related t1 t2
  | _, _ => False
  end.
Proof.
  intros H. pose proof H as (Hs & Hl & Ho & _).
  unfold scan_step. rewrite <- Hs, <- Hl, <- Ho.
  destruct pt as [|c].
  - destruct (Ascii.eqb (deref (sc_spec s1)) NUL); [exact I|].
    destruct (isspace (deref (sc_spec s1))); [split; auto|].
    destruct (Ascii.eqb (sc_l s1) NUL && Ascii.eqb (deref (sc_spec s1)) "-");
      [split; auto with scan|].
    destruct (Ascii.eqb (sc_l s1) NUL); [split; auto with scan|].
    destruct (Ascii.eqb (deref (sc_spec s1)) "-"); [split; auto with scan|].
    destruct (sc_op s1); split; auto with scan.
  - destruct (schar (sc_l s1) <=? schar c); split; auto with scan.
Qed.

Lemma scan_run_related (fuel : nat) (pt : point) (s1 s2 t1 : scan_state) :
  related s1 s2 -> scan_run fuel pt s1 = Some t1 ->
  exists t2, scan_run fuel pt s2 = Some t2 /\ related t1 t2.
Proof.
  revert pt s1 s2. induction fuel as [|fuel IH]; intros pt s1 s2 HR H.
  - discriminate.
  - simpl in *. pose proof (scan_step_related pt s1 s2 HR) as Hstep.
    destruct (scan_step pt s1) as [[pt1 u1]|],
             (scan_step pt s2) as [[pt2 u2]|]; try contradiction.
    + destruct Hstep as [<- HR']. eapply IH; eauto.
    + injection H as <-. eauto.
Qed.

(** [strlen] and the string itself only look at the bytes up to the first
    terminator. *)
Lemma take_strlen (p : list ascii) : take (strlen p) p = cstr p.
Proof.
  unfold strlen. induction p as [|c r IH]; simpl.
  - reflexivity.
  - destruct (Ascii.eqb c NUL); simpl; [reflexivity|now rewrite IH].
Qed.

Lemma cstr_take (p : list ascii) (k j : nat) :
  p !! j = Some NUL -> (j < k)%nat -> cstr (take k p) = cstr p.
Proof.
  revert k j. induction p as [|c r IH]; intros k j Hj Hlt.
  - discriminate.
  - destruct k as [|k]; [lia|]. simpl.
    destruct (Ascii.eqb_spec c NUL) as [->|Hne]; [reflexivity|].
    destruct j as [|j]; simpl in Hj; [congruence|].
    f_equal. apply (IH k j); [exact Hj|lia].
Qed.

Lemma push_writes_terminator (s : scan_state) (k : nat) :
  length (sc_chars s) = chars_end ->
  sc_result (sc_push s NUL) = Some k ->
  exists j, sc_chars (sc_push s NUL) !! j = Some NUL /\ (j < k)%nat.
Proof.
  unfold sc_push, push_char. intros Hlen.
  destruct (sc_result s) as [b|]; [|discriminate].
  destruct (Nat.ltb_spec b chars_end) as [Hb|Hb]; simpl; [|discriminate].
  intros [= <-]. exists b. split; [|lia].
  apply list_lookup_insert_eq. lia.
Qed.

Lemma related_finish (malloc_ok : bool) (s1 s2 : scan_state) :
  related s1 s2 -> scan_finish malloc_ok s1 = scan_finish malloc_ok s2.
Proof.
  intros HR. unfold scan_finish.
  pose proof HR as (_ & Hl & Ho & _). rewrite <- Hl.
  set (a1 := if Ascii.eqb (sc_l s1) NUL then s1 else sc_push s1 (sc_l s1)).
  set (a2 := if Ascii.eqb (sc_l s1) NUL then s2 else sc_push s2 (sc_l s1)).
  assert (Ha : related a1 a2).
  { subst a1 a2. destruct (Ascii.eqb (sc_l s1) NUL); auto with scan. }
  assert (Hop : sc_op a1 = sc_op a2) by apply Ha.
  rewrite <- Hop.
  set (b1 := if sc_op a1 then sc_push a1 "-" else a1).
  set (b2 := if sc_op a1 then sc_push a2 "-" else a2).
  assert (Hb : related b1 b2).
  { subst b1 b2. destruct (sc_op a1); auto with scan. }
  pose proof (related_push b1 b2 NUL Hb) as (_ & _ & _ & Hr & L1 & L2 & Ht).
  assert (Lb1 : length (sc_chars b1) = chars_end) by apply Hb.
  assert (Lb2 : length (sc_chars b2) = chars_end) by apply Hb.
  rewrite <- Hr.
  destruct (sc_result (sc_push b1 NUL)) as [k|] eqn:E; [|reflexivity].
  destruct (push_writes_terminator b1 k Lb1 E) as (j1 & Hj1 & Hlt1).
  destruct (push_writes_terminator b2 k Lb2 (eq_sym Hr))
    as (j2 & Hj2 & Hlt2).
  assert (Hc : cstr (sc_chars (sc_push b1 NUL))
               = cstr (sc_chars (sc_push b2 NUL))).
  { rewrite <- (cstr_take _ k j1 Hj1 Hlt1), <- (cstr_take _ k j2 Hj2 Hlt2).
    now rewrite (Ht k). }
  rewrite !take_strlen. unfold strlen. now rewrite Hc.
Qed.

Lemma related_fresh (stack stack' : nat -> ascii) (spec : list ascii) :
  related
    {| sc_spec := spec; sc_chars := fresh stack chars_end;
       sc_result := Some O; sc_l := NUL; sc_op := false |}
    {| sc_spec := spec; sc_chars := fresh stack' chars_end;
       sc_result := Some O; sc_l := NUL; sc_op := false |}.
Proof.
  unfold related. cbn [sc_spec sc_chars sc_result sc_l sc_op].
  rewrite !length_fresh.
  repeat split; auto. intros k [= <-]. reflexivity.
Qed.

(** A result of [enumerate_charset] is the result for any larger fuel and
    any other contents of the array [chars] on entry. *)
Lemma enumerate_charset_transfer (fuel fuel' : nat)
    (stack stack' : nat -> ascii) (malloc_ok : bool)
    (spec : option (list ascii)) (r : charset_result) :
  enumerate_charset fuel stack malloc_ok spec = Some r ->
  (fuel <= fuel')%nat ->
  enumerate_charset fuel' stack' malloc_ok spec = Some r.
Proof.
  unfold enumerate_charset. destruct spec as [spec|]; [|auto].
  intros H Hle.
  destruct (scan_run fuel AtWhile _) as [t1|] eqn:E1; [|discriminate].
  destruct (scan_run_related _ _ _ _ _
              (related_fresh stack stack' (resolve_class spec)) E1)
    as (t2 & E2 & HR).
  rewrite (scan_run_mono _ fuel' _ _ _ E2 Hle).
  now rewrite <- (related_finish malloc_ok t1 t2 HR).
Qed.

(** Two runs that both return agree, whatever their fuel and whatever the
    array held. *)
Lemma enumerate_charset_agree (fuel fuel' : nat)
    (stack stack' : nat -> ascii) (malloc_ok : bool)
    (spec : option (list ascii)) (r r' : charset_result) :
  enumerate_charset fuel stack malloc_ok spec = Some r ->
  enumerate_charset fuel' stack' malloc_ok spec = Some r' ->
  r = r'.
Proof.
  intros H H'.
  destruct (Nat.le_ge_cases fuel fuel') as [Hle|Hle].
  - pose proof (enumerate_charset_transfer _ _ _ stack' _ _ _ H Hle).
    congruence.
  - pose proof (enumerate_charset_transfer _ _ _ stack _ _ _ H' Hle).
    congruence.
Qed.

(** ** The charset compiler: whitespace *)

Lemma bytes_eqb_eq (a b : list ascii) : bytes_eqb a b = true -> a = b.
Proof.
  revert b. induction a as [|x a IH]; intros [|y b] H; simpl in H;
    try discriminate; [reflexivity|].
  apply andb_prop in H as [Hx Hab].
  apply Ascii.eqb_eq in Hx. subst y. f_equal. now apply IH.
Qed.

Lemma bytes_eqb_refl (a : list ascii) : bytes_eqb a a = true.
Proof.
  induction a as [|x a IH]; simpl; [reflexivity|].
  now rewrite Ascii.eqb_refl, IH.
Qed.

(** No class name holds whitespace, so a specification that does is scanned
    as it stands. *)
Lemma resolve_class_space (spec : list ascii) :
  has_space spec = true -> resolve_class spec = spec.
Proof.
  intros Hs.
  assert (H : forall lit, existsb isspace (bytes lit) = false ->
                          streq spec lit = false).
  { intros lit Hl. destruct (streq spec lit) eqn:E; [|reflexivity].
    apply bytes_eqb_eq in E. unfold has_space in Hs.
    rewrite E in Hs. congruence. }
  unfold resolve_class. rewrite !H by reflexivity. reflexivity.
Qed.

Lemma sc_spec_push (s : scan_state) (c : ascii) :
  sc_spec (sc_push s c) = sc_spec s.
Proof.
  unfold sc_push. now destruct (push_char _ _ _ _).
Qed.

Lemma sc_l_push (s : scan_state) (c : ascii) : sc_l (sc_push s c) = sc_l s.
Proof.
  unfold sc_push. now destruct (push_char _ _ _ _).
Qed.

Lemma sc_op_push (s : scan_state) (c : ascii) : sc_op (sc_push s c) = sc_op s.
Proof.
  unfold sc_push. now destruct (push_char _ _ _ _).
Qed.

(** With whitespace ahead the scan takes another turn, and the whitespace is
    still ahead after it. *)
Lemma scan_step_space_ahead (pt : point) (s : scan_state) :
  space_ahead pt s = true ->
  exists pt' s', scan_step pt s = Some (pt', s')
                 /\ space_ahead pt' s' = true.
Proof.
  destruct pt as [|c0]; unfold space_ahead, scan_step.
  - destruct (sc_spec s) as [|c rest] eqn:E;
      [intros H; cbv in H; discriminate H|].
    unfold has_space. cbn [cstr deref].
    destruct (Ascii.eqb c NUL) eqn:En; [intros H; cbv in H; discriminate H|].
    cbn [existsb]. intros H.
    destruct (isspace c) eqn:Ec.
    + exists AtWhile, s. split; [reflexivity|].
      unfold space_ahead, has_space. rewrite E. cbn [cstr].
      rewrite En. cbn [existsb]. now rewrite Ec.
    + cbn [orb] in H.
      destruct (Ascii.eqb (sc_l s) NUL && Ascii.eqb c "-");
        [eexists _, _; split; [reflexivity|];
         cbn [space_ahead sc_advance sc_spec]; rewrite sc_spec_push, E;
         exact H|].
      destruct (Ascii.eqb (sc_l s) NUL);
        [eexists _, _; split; [reflexivity|];
         cbn [space_ahead sc_advance sc_set_l sc_spec]; rewrite E; exact H|].
      destruct (Ascii.eqb c "-");
        [eexists _, _; split; [reflexivity|];
         cbn [space_ahead sc_advance sc_set_op sc_spec]; rewrite E; exact H|].
      destruct (sc_op s).
      * eexists _, _; split; [reflexivity|].
        cbn [space_ahead]. rewrite E. exact H.
      * eexists _, _; split; [reflexivity|].
        cbn [space_ahead sc_advance sc_set_l sc_spec].
        rewrite sc_spec_push, E. exact H.
  - intros H. destruct (schar (sc_l s) <=? schar c0).
    + eexists _, _; split; [reflexivity|].
      cbn [space_ahead sc_set_l sc_spec]. rewrite sc_spec_push. exact H.
    + eexists _, _; split; [reflexivity|]. exact H.
Qed.

Lemma scan_run_space_ahead (fuel : nat) (pt : point) (s : scan_state) :
  space_ahead pt s = true -> scan_run fuel pt s = None.
Proof.
  revert pt s. induction fuel as [|fuel IH]; intros pt s H.
  - reflexivity.
  - simpl. destruct (scan_step_space_ahead pt s H) as (pt' & s' & -> & H').
    now apply IH.
Qed.

(** C8 (enumerate_charset) on the code: whenever the specification holds a
    whitespace character, the [continue] of the scan returns to the loop
    test without advancing, and the function has not returned after any
    number of turns, whatever the array held and however the allocation
    would have fared. *)
Theorem enumerate_charset_hangs_on_whitespace
    (spec : list ascii) (fuel : nat) (stack : nat -> ascii)
    (malloc_ok : bool) :
  has_space spec = true ->
  enumerate_charset fuel stack malloc_ok (Some spec) = None.
Proof.
  intros Hs. unfold enumerate_charset.
  rewrite (resolve_class_space spec Hs).
  now rewrite scan_run_space_ahead.
Qed.

Lemma enumerate_charset_hangs_on_whitespace_witness :
  enumerate_charset 1000 (fun _ => "x"%char) true (Some (bytes "a-f 0-9"))
  = None.
Proof.
  apply (enumerate_charset_hangs_on_whitespace
           (bytes "a-f 0-9") 1000 (fun _ => "x"%char) true).
  vm_compute. reflexivity.
Defined.

(** ** The charset compiler against the expansion *)

Lemma uchar_char_of_Z_mod (z : Z) : uchar (char_of_Z z) = z mod 256.
Proof.
  unfold uchar, char_of_Z.
  pose proof (Z.mod_pos_bound z 256 ltac:(lia)).
  rewrite N_ascii_embedding by lia. lia.
Qed.

Lemma schar_incr (c : ascii) :
  schar c < 127 -> schar (char_incr c) = schar c + 1.
Proof.
  unfold schar, char_incr. rewrite uchar_char_of_Z_mod.
  pose proof (uchar_range c) as Hc.
  destruct (Z.ltb_spec (uchar c) 128) as [H|H]; intros Hlt.
  - rewrite Z.mod_small by lia.
    destruct (Z.ltb_spec (uchar c + 1) 128); lia.
  - destruct (Z.eq_dec (uchar c) 255) as [E|E].
    + rewrite E. reflexivity.
    + rewrite Z.mod_small by lia.
      destruct (Z.ltb_spec (uchar c + 1) 128); lia.
Qed.

Lemma char_of_Z_schar (c : ascii) : char_of_Z (schar c) = c.
Proof.
  apply uchar_inj. rewrite uchar_char_of_Z_mod. unfold schar.
  pose proof (uchar_range c) as Hc.
  destruct (Z.ltb_spec (uchar c) 128).
  - apply Z.mod_small. lia.
  - replace (uchar c - 256) with (uchar c + (-1) * 256) by lia.
    rewrite Z.mod_add by lia. apply Z.mod_small. lia.
Qed.

Lemma plain_char_facts (c : ascii) :
  plain_char c = true ->
  0 < schar c < 127 /\ schar c = uchar c
  /\ Ascii.eqb c NUL = false /\ isspace c = false.
Proof.
  unfold plain_char. intros H.
  apply andb_prop in H as [H Hs]. apply andb_prop in H as [H0 H1].
  apply Z.ltb_lt in H0, H1. apply negb_true_iff in Hs.
  rewrite eqb_NUL_uchar. unfold schar.
  destruct (Z.ltb_spec (uchar c) 128); [|lia].
  split; [lia|]. split; [reflexivity|]. split; [|exact Hs].
  apply Z.eqb_neq. lia.
Qed.

Lemma sc_mem_push (s : scan_state) (c : ascii) :
  sc_mem (sc_push s c) = push_char (sc_chars s) (sc_result s) chars_end c.
Proof.
  unfold sc_mem, sc_push. now destruct (push_char _ _ _ _).
Qed.

Lemma push_all_cons (c : ascii) (xs : list ascii) (s : scan_state) :
  push_all (c :: xs) (sc_mem s) = push_all xs (sc_mem (sc_push s c)).
Proof.
  now rewrite sc_mem_push.
Qed.

Lemma push_all_app (xs ys : list ascii) (m : list ascii * option nat) :
  push_all (xs ++ ys) m = push_all ys (push_all xs m).
Proof.
  apply fold_left_app.
Qed.

Lemma scan_finish_push_all (malloc_ok : bool) (s : scan_state) :
  scan_finish malloc_ok s
  = finish malloc_ok
      (push_all (tail_pushes (sc_l s) (sc_op s) ++ [NUL]) (sc_mem s)).
Proof.
  unfold scan_finish, tail_pushes, finish.
  destruct (Ascii.eqb (sc_l s) NUL); rewrite ?sc_op_push;
    destruct (sc_op s); cbn [app];
    rewrite ?push_all_cons; reflexivity.
Qed.

(** The range loop: entered with [l] and the right endpoint [c] below
    [CHAR_MAX], it pushes the range and hands over to the [while] loop with
    [l] and [op] reset and [spec] advanced. *)
Lemma range_loop (n : nat) (c : ascii) (s : scan_state) :
  schar c < 127 ->
  Z.of_nat n = Z.max 0 (schar c - schar (sc_l s) + 1) ->
  exists t,
    (forall k, scan_run (S n + k) (AtFor c) s
               = scan_run k AtWhile
                   (sc_advance (sc_set_l (sc_set_op t false) NUL)))
    /\ sc_spec t = sc_spec s
    /\ sc_mem t = push_all (char_range (sc_l s) c) (sc_mem s).
Proof.
  intros Hc. revert s. induction n as [|n IH]; intros s Hn.
  - exists s. split; [|split; [reflexivity|]].
    + intros k. cbn [Nat.add scan_run scan_step].
      destruct (Z.leb_spec (schar (sc_l s)) (schar c)); [lia|reflexivity].
    + unfold char_range, seqZ.
      replace (Z.to_nat (schar c - schar (sc_l s) + 1)) with 0%nat by lia.
      reflexivity.
  - set (s1 := sc_set_l (sc_push s (sc_l s)) (char_incr (sc_l s))).
    assert (Hl : schar (sc_l s1) = schar (sc_l s) + 1).
    { subst s1. cbn [sc_set_l sc_l]. apply schar_incr. lia. }
    destruct (IH s1) as (t & Hrun & Hspec & Hmem); [lia|].
    exists t. split; [|split].
    + intros k. cbn [Nat.add scan_run scan_step].
      destruct (Z.leb_spec (schar (sc_l s)) (schar c)); [|lia].
      apply Hrun.
    + rewrite Hspec. subst s1. cbn [sc_set_l sc_spec].
      apply sc_spec_push.
    + rewrite Hmem. unfold char_range at 2.
      rewrite seqZ_cons by lia. cbn [map].
      rewrite char_of_Z_schar, push_all_cons.
      unfold char_range. rewrite Hl.
      replace (Z.pred (schar c - schar (sc_l s) + 1))
        with (schar c - (schar (sc_l s) + 1) + 1) by lia.
      reflexivity.
Qed.

(** The [while] loop on an expression of plain characters is left after
    finitely many turns, and what has been pushed then, with what the
    statements after the loop still push, is the expansion. *)
Lemma scan_plain (expr : list ascii) (s : scan_state) :
  forallb plain_char expr = true ->
  sc_spec s = expr ->
  exists n t,
    (forall k, scan_run (n + k) AtWhile s = Some t)
    /\ push_all (tail_pushes (sc_l t) (sc_op t)) (sc_mem t)
       = push_all (expand (pending_of (sc_l s)) (sc_op s) expr) (sc_mem s).
Proof.
  revert s. induction expr as [|c rest IH]; intros s Hp Hs.
  - exists 1%nat, s. split.
    + intros k. cbn [Nat.add scan_run scan_step]. now rewrite Hs.
    + unfold tail_pushes, pending_of. cbn [expand].
      now destruct (Ascii.eqb (sc_l s) NUL).
  - cbn [forallb] in Hp. apply andb_prop in Hp as [Hc Hrest].
    destruct (plain_char_facts c Hc) as (Hrange & _ & Hnul & Hsp).
    assert (Hstep : forall pt' s' k,
               scan_step AtWhile s = Some (pt', s') ->
               scan_run (S k) AtWhile s = scan_run k pt' s').
    { intros pt' s' k E. cbn [scan_run]. now rewrite E. }
    unfold scan_step in Hstep. rewrite Hs in Hstep. cbn [deref] in Hstep.
    rewrite Hnul, Hsp in Hstep.
    unfold pending_of. cbn [expand].
    destruct (Ascii.eqb (sc_l s) NUL) eqn:El; cbn [andb] in Hstep.
    + destruct (Ascii.eqb c "-") eqn:Ec.
      * destruct (IH (sc_advance (sc_push s c)) Hrest)
          as (n & t & Hrun & Hmem).
        { cbn [sc_advance sc_spec]. now rewrite sc_spec_push, Hs. }
        exists (S n), t. split.
        -- intros k. cbn [Nat.add]. rewrite (Hstep _ _ _ eq_refl).
           apply Hrun.
        -- rewrite Hmem. cbn [sc_advance sc_l sc_op].
           rewrite sc_l_push, sc_op_push. unfold pending_of. rewrite El.
           now rewrite push_all_cons.
      * destruct (IH (sc_advance (sc_set_l s c)) Hrest)
          as (n & t & Hrun & Hmem); [cbn; now rewrite Hs|].
        exists (S n), t. split.
        -- intros k. cbn [Nat.add]. rewrite (Hstep _ _ _ eq_refl).
           apply Hrun.
        -- rewrite Hmem. cbn [sc_advance sc_set_l sc_l sc_op].
           unfold pending_of. now rewrite Hnul.
    + destruct (Ascii.eqb c "-") eqn:Ec.
      * destruct (IH (sc_advance (sc_set_op s true)) Hrest)
          as (n & t & Hrun & Hmem); [cbn; now rewrite Hs|].
        exists (S n), t. split.
        -- intros k. cbn [Nat.add]. rewrite (Hstep _ _ _ eq_refl).
           apply Hrun.
        -- rewrite Hmem. cbn [sc_advance sc_set_op sc_l sc_op].
           unfold pending_of. now rewrite El.
      * destruct (sc_op s) eqn:Eo.
        -- destruct (range_loop
                       (Z.to_nat (Z.max 0 (schar c - schar (sc_l s) + 1)))
                       c s) as (u & Hfor & Hspec & Hu); [lia|lia|].
           destruct (IH (sc_advance (sc_set_l (sc_set_op u false) NUL))
                       Hrest) as (n & t & Hrun & Hmem).
           { cbn [sc_advance sc_set_l sc_set_op sc_spec].
             now rewrite Hspec, Hs. }
           eexists (S (S _ + n)), t. split.
           ++ intros k. cbn [Nat.add]. rewrite (Hstep _ _ _ eq_refl).
              rewrite <- Nat.add_assoc.
              change (S (?a + ?b)) with (S a + b)%nat.
              rewrite Hfor. apply Hrun.
           ++ rewrite Hmem. cbn [sc_advance sc_set_l sc_set_op sc_l sc_op].
              unfold pending_of. rewrite Ascii.eqb_refl.
              rewrite push_all_app. f_equal.
              exact Hu.
        -- destruct (IH (sc_advance (sc_set_l (sc_push s (sc_l s)) c))
                       Hrest) as (n & t & Hrun & Hmem).
           { cbn [sc_advance sc_set_l sc_spec].
             now rewrite sc_spec_push, Hs. }
           exists (S n), t. split.
           ++ intros k. cbn [Nat.add]. rewrite (Hstep _ _ _ eq_refl).
              apply Hrun.
           ++ rewrite Hmem. cbn [sc_advance sc_set_l sc_l sc_op].
              rewrite sc_op_push, Eo. unfold pending_of. rewrite Hnul.
              now rewrite push_all_cons.
Qed.

Lemma push_all_null (xs chars : list ascii) :
  push_all xs (chars, None) = (chars, None).
Proof.
  induction xs as [|c xs IH]; [reflexivity|exact IH].
Qed.

(** Pushes that fit are written one after the other from the offset on. *)
Lemma push_all_fits (xs chars : list ascii) (k : nat) :
  length chars = chars_end ->
  (k + length xs <= chars_end)%nat ->
  push_all xs (chars, Some k)
  = (take k chars ++ xs ++ drop (k + length xs) chars,
     Some (k + length xs)%nat).
Proof.
  revert chars k. induction xs as [|c xs IH]; intros chars k Hlen Hfit.
  - cbn [push_all fold_left length app]. rewrite Nat.add_0_r.
    now rewrite take_drop.
  - cbn [length] in Hfit.
    change (push_all (c :: xs) (chars, Some k))
      with (push_all xs (push_char chars (Some k) chars_end c)).
    unfold push_char. destruct (Nat.ltb_spec k chars_end) as [Hk|Hk]; [|lia].
    rewrite IH by (rewrite ?length_insert; lia).
    rewrite (take_S_r _ k c) by (apply list_lookup_insert_eq; lia).
    rewrite take_insert_ge by lia.
    rewrite drop_insert_lt by lia.
    cbn [length]. rewrite <- app_assoc. cbn [app].
    now rewrite Nat.add_succ_r.
Qed.

(** Pushes that do not fit leave [nullptr]. *)
Lemma push_all_overflows (xs chars : list ascii) (k : nat) :
  (k <= chars_end)%nat ->
  (chars_end < k + length xs)%nat ->
  snd (push_all xs (chars, Some k)) = None.
Proof.
  revert chars k. induction xs as [|c xs IH]; intros chars k Hk Hover.
  - cbn [length] in Hover. lia.
  - cbn [length] in Hover.
    change (push_all (c :: xs) (chars, Some k))
      with (push_all xs (push_char chars (Some k) chars_end c)).
    unfold push_char. destruct (Nat.ltb_spec k chars_end) as [Hlt|Hge].
    + apply IH; lia.
    + now rewrite push_all_null.
Qed.

(** The expansion of plain characters holds no [NUL]. *)
Lemma char_range_nul_free (l c : ascii) :
  0 < schar l -> schar c < 127 ->
  Forall (fun x => x <> NUL) (char_range l c).
Proof.
  intros Hl Hc. unfold char_range. apply Forall_map, Forall_forall.
  intros z Hz E.
  apply elem_of_seqZ in Hz.
  apply (f_equal uchar) in E. rewrite uchar_char_of_Z_mod in E.
  rewrite Z.mod_small in E by lia. change (uchar NUL) with 0 in E. lia.
Qed.

Lemma expand_nul_free (pending : option ascii) (op : bool)
    (expr : list ascii) :
  forallb plain_char expr = true ->
  (forall l, pending = Some l -> plain_char l = true) ->
  Forall (fun x => x <> NUL) (expand pending op expr).
Proof.
  assert (Hdash : "-"%char <> NUL) by discriminate.
  assert (Hne : forall x, plain_char x = true -> x <> NUL).
  { intros x Hx ->. discriminate Hx. }
  revert pending op. induction expr as [|c rest IH]; intros pending op Hp Hl.
  - cbn [expand]. apply Forall_app. split.
    + destruct pending as [l|]; repeat constructor. auto.
    + destruct op; repeat constructor. exact Hdash.
  - cbn [forallb] in Hp. apply andb_prop in Hp as [Hc Hrest].
    cbn [expand]. destruct pending as [l|].
    + destruct (Ascii.eqb c "-"); [now apply IH|].
      destruct op.
      * apply Forall_app. split.
        -- destruct (plain_char_facts l (Hl l eq_refl)) as (? & _).
           destruct (plain_char_facts c Hc) as (? & _).
           apply char_range_nul_free; lia.
        -- apply IH; [exact Hrest|discriminate].
      * constructor; [auto|]. apply IH; [exact Hrest|].
        now intros ? [= <-].
    + destruct (Ascii.eqb c "-").
      * constructor; [auto|]. apply IH; [exact Hrest|discriminate].
      * apply IH; [exact Hrest|]. now intros ? [= <-].
Qed.

(** On plain characters the class names are resolved as the specification
    lists them; the second test for ["*"] in the source is never reached. *)
Lemma resolve_class_expression (spec : list ascii) :
  forallb plain_char spec = true ->
  resolve_class spec = class_expression spec
  /\ forallb plain_char (class_expression spec) = true.
Proof.
  intros Hp.
  assert (Hc : cstr spec = spec).
  { apply cstr_nul_free_id, Forall_forall. intros x Hx ->.
    rewrite forallb_forall in Hp. apply list_elem_of_In in Hx.
    now specialize (Hp _ Hx). }
  unfold resolve_class, class_expression, streq. rewrite Hc.
  destruct (bytes_eqb spec (bytes "")); [now split|].
  destruct (bytes_eqb spec (bytes ":graph:")); [now split|].
  destruct (bytes_eqb spec (bytes "*")); [now split|].
  cbn [orb].
  repeat match goal with
         | |- context [bytes_eqb spec ?lit] =>
             destruct (bytes_eqb spec lit); [now split|]
         end.
  now split.
Qed.

(** What [enumerate_charset] returns on a specification of plain
    characters, for any fuel from some bound on. *)
Lemma enumerate_charset_plain (spec : list ascii) (stack : nat -> ascii)
    (malloc_ok : bool) :
  forallb plain_char spec = true ->
  exists n, forall fuel, (n <= fuel)%nat ->
    enumerate_charset fuel stack malloc_ok (Some spec)
    = Some (if (length (expansion spec) <=? 94)%nat then
              if malloc_ok then
                Enumerated (expansion spec) (length (expansion spec))
              else Failed ENOMEM
            else Failed EINVAL).
Proof.
  intros Hp. destruct (resolve_class_expression spec Hp) as [Hres Hplain].
  set (s0 := {| sc_spec := resolve_class spec;
                sc_chars := fresh stack chars_end;
                sc_result := Some O; sc_l := NUL; sc_op := false |}).
  destruct (scan_plain (class_expression spec) s0 Hplain)
    as (n & t & Hrun & Hmem); [subst s0; cbn; exact Hres|].
  exists n. intros fuel Hle. unfold enumerate_charset. fold s0.
  replace fuel with (n + (fuel - n))%nat by lia. rewrite Hrun.
  f_equal. rewrite scan_finish_push_all, push_all_app, Hmem.
  rewrite <- push_all_app.
  change (expand (pending_of (sc_l s0)) (sc_op s0) (class_expression spec))
    with (expansion spec).
  pose proof (expand_nul_free None false (class_expression spec) Hplain
                ltac:(discriminate)) as Hnul.
  fold (expansion spec) in Hnul.
  unfold sc_mem, s0. cbn [sc_chars sc_result].
  destruct (Nat.leb_spec (length (expansion spec)) 94) as [Hfit|Hover].
  - rewrite push_all_fits
      by (rewrite ?length_fresh, ?length_app; cbn [length chars_end]; 
          unfold chars_end; lia).
    unfold finish. cbn [fst snd]. rewrite take_0.
    rewrite <- app_assoc. cbn [app].
    rewrite strlen_app_nul by exact Hnul.
    now rewrite take_app_length.
  - unfold finish.
    rewrite push_all_overflows
      by (rewrite ?length_app; cbn [length]; unfold chars_end; lia).
    reflexivity.
Qed.

(** C6, as the code has it (push_char, enumerate_charset): the array has 95
    bytes, one of them for the terminator.  On a specification of plain
    characters (seven-bit, no whitespace, neither NUL nor DEL) the function
    returns for every fuel from some bound on; it fails with EINVAL exactly
    when the expansion has more than 94 entries; and when it succeeds it
    hands back the complete expansion and its length. *)
Theorem enumerate_charset_fails_iff_expansion_over_94
    (spec : list ascii) (stack : nat -> ascii) (malloc_ok : bool) :
  forallb plain_char spec = true ->
  exists n, forall fuel, (n <= fuel)%nat ->
    exists r,
      enumerate_charset fuel stack malloc_ok (Some spec) = Some r
      /\ (r = Failed EINVAL <-> (94 < length (expansion spec))%nat)
      /\ (forall res rlen,
            r = Enumerated res rlen ->
            res = expansion spec /\ rlen = length (expansion spec))
      /\ ((length (expansion spec) <= 94)%nat /\ malloc_ok = true ->
          r = Enumerated (expansion spec) (length (expansion spec))).
Proof.
  intros Hp.
  destruct (enumerate_charset_plain spec stack malloc_ok Hp) as [n Hn].
  exists n. intros fuel Hle. eexists. split; [now apply Hn|].
  destruct (Nat.leb_spec (length (expansion spec)) 94) as [Hfit|Hover].
  - destruct malloc_ok.
    + split; [split; [discriminate|lia]|].
      split; [now intros ? ? [= <- <-]|reflexivity].
    + split; [split; [discriminate|lia]|].
      split; [discriminate|]. now intros [_ ?].
  - split; [split; [lia|reflexivity]|].
    split; [discriminate|]. intros [? _]. lia.
Qed.

Lemma enumerate_charset_fails_iff_expansion_over_94_witness :
  exists n, forall fuel, (n <= fuel)%nat ->
    exists r,
      enumerate_charset fuel (fun _ => "x"%char) true (Some (bytes "a-z"))
      = Some r
      /\ (r = Failed EINVAL
          <-> (94 < length (expansion (bytes "a-z")))%nat)
      /\ (forall res rlen,
            r = Enumerated res rlen ->
            res = expansion (bytes "a-z")
            /\ rlen = length (expansion (bytes "a-z")))
      /\ ((length (expansion (bytes "a-z")) <= 94)%nat /\ true = true ->
          r = Enumerated (expansion (bytes "a-z"))
                (length (expansion (bytes "a-z")))).
Proof.
  apply (enumerate_charset_fails_iff_expansion_over_94
           (bytes "a-z") (fun _ => "x"%char) true).
  vm_compute. reflexivity.
Defined.

(** C6, as stated, fails: the expansion of [!-~a] has 95 entries, which does
    not exceed 95, and yet [enumerate_charset] fails on it, in every run
    that returns. *)
Lemma expansion_of_95_entries_rejected :
  length (expansion (bytes "!-~a")) = 95%nat
  /\ enumerate_charset 200 (fun _ => NUL) true (Some (bytes "!-~a"))
     = Some (Failed EINVAL)
  /\ (forall fuel stack malloc_ok r,
        enumerate_charset fuel stack malloc_ok (Some (bytes "!-~a")) = Some r
        -> r = Failed EINVAL).
Proof.
  split; [vm_compute; reflexivity|].
  split; [vm_compute; reflexivity|].
  intros fuel stack malloc_ok r H.
  assert (E : enumerate_charset 200 (fun _ => NUL) malloc_ok
                (Some (bytes "!-~a")) = Some (Failed EINVAL))
    by (vm_compute; reflexivity).
  exact (enumerate_charset_agree _ _ _ _ _ _ _ _ H E).
Qed.

(** C10 on the code: the specification [z-a], a range whose left endpoint
    lies above the right one, pushes nothing; [enumerate_charset] returns
    success with an empty alphabet of length 0, and [to_chars] on any raw
    byte then divides by that length. *)
Theorem descending_range_compiles_to_empty_alphabet
    (stack : nat -> ascii) (raw : ascii) (rest : list ascii) (len : nat) :
  (exists n, forall fuel, (n <= fuel)%nat ->
     enumerate_charset fuel stack true (Some (bytes "z-a"))
     = Some (Enumerated [] 0))
  /\ to_chars (raw :: rest) (S len) [] (Z.of_nat 0) = None.
Proof.
  split; [|reflexivity].
  destruct (enumerate_charset_plain (bytes "z-a") stack true eq_refl)
    as [n Hn].
  exists n. intros fuel Hle. rewrite (Hn fuel Hle). reflexivity.
Qed.

(** ** The parser: the capacity of the list *)

Lemma parse_byte_capacity (c : ascii) (s1 s2 : parse_state) :
  forget_state s1 = forget_state s2 ->
  forget_flow (parse_byte c s1) = forget_flow (parse_byte c s2).
Proof.
  destruct s1 as [b1 c1 a1 [l1 n1 k1] e1], s2 as [b2 c2 a2 [l2 n2 k2] e2].
  unfold forget_state, forget_capacity. cbn. intros [= -> -> -> -> -> ->].
  unfold parse_byte. cbn.
  repeat case_match; reflexivity.
Qed.

Lemma parse_loop_capacity (rest : list ascii) (s1 s2 : parse_state) :
  forget_state s1 = forget_state s2 ->
  forget_flow (parse_loop rest s1) = forget_flow (parse_loop rest s2).
Proof.
  revert s1 s2. induction rest as [|c rest IH]; intros s1 s2 H.
  - cbn. now rewrite H.
  - cbn [parse_loop]. pose proof (parse_byte_capacity c s1 s2 H) as Hb.
    destruct (parse_byte c s1) as [r1|t1], (parse_byte c s2) as [r2|t2];
      cbn in Hb; try discriminate.
    + exact Hb.
    + apply IH. congruence.
Qed.

Lemma parse_from_capacity (k1 k2 : nat) (buffer : list ascii) :
  observable (parse_from k1 buffer) = observable (parse_from k2 buffer).
Proof.
  unfold parse_from.
  set (s1 := {| ps_buf := []; ps_cur := 0%nat; ps_account := no_account;
                ps_list := new_account_list k1; ps_stderr := [] |}).
  set (s2 := {| ps_buf := []; ps_cur := 0%nat; ps_account := no_account;
                ps_list := new_account_list k2; ps_stderr := [] |}).
  pose proof (parse_loop_capacity buffer s1 s2 eq_refl) as H.
  destruct (parse_loop buffer s1) as [r1|r1],
           (parse_loop buffer s2) as [r2|r2];
    cbn in H; try discriminate;
    assert (E : forget_state r1 = forget_state r2) by congruence;
    destruct r1 as [b1 c1 a1 [l1 n1 q1] e1], r2 as [b2 c2 a2 [l2 n2 q2] e2];
    unfold forget_state, forget_capacity in E; cbn in E;
    injection E as -> -> -> -> -> ->.
  - reflexivity.
  - unfold observable.
    cbn [p_list p_buffer p_stderr ps_list ps_cur ps_buf ps_stderr].
    now destruct (c2 <? length buffer)%nat.
Qed.

(** The capacity that [parse_accounts] starts from has no bearing on what
    the caller sees. *)
Lemma parse_accounts_observable (avg : Z) (buffer : list ascii) :
  observable (parse_accounts avg buffer) = observable (parse_from 1 buffer).
Proof.
  unfold parse_accounts. apply parse_from_capacity.
Qed.

Lemma parse_accounts_accounts (avg : Z) (buffer : list ascii) :
  al_accounts (p_list (parse_accounts avg buffer))
  = al_accounts (p_list (parse_from 1 buffer)).
Proof.
  pose proof (parse_accounts_observable avg buffer) as H.
  unfold observable in H. congruence.
Qed.

Lemma parse_accounts_size (avg : Z) (buffer : list ascii) :
  al_size (p_list (parse_accounts avg buffer))
  = al_size (p_list (parse_from 1 buffer)).
Proof.
  pose proof (parse_accounts_observable avg buffer) as H.
  unfold observable in H. congruence.
Qed.

Lemma parse_accounts_buffer (avg : Z) (buffer : list ascii) :
  p_buffer (parse_accounts avg buffer) = p_buffer (parse_from 1 buffer).
Proof.
  pose proof (parse_accounts_observable avg buffer) as H.
  unfold observable in H. congruence.
Qed.

Lemma parse_accounts_stderr (avg : Z) (buffer : list ascii) :
  p_stderr (parse_accounts avg buffer) = p_stderr (parse_from 1 buffer).
Proof.
  pose proof (parse_accounts_observable avg buffer) as H.
  unfold observable in H. congruence.
Qed.

(** ** The parser: the loop *)

Lemma parse_loop_app (xs ys : list ascii) (s : parse_state) :
  parse_loop (xs ++ ys) s
  = match parse_loop xs s with
    | Return r => Return r
    | Next s' => parse_loop ys s'
    end.
Proof.
  revert s. induction xs as [|c xs IH]; intros s; cbn [app parse_loop].
  - reflexivity.
  - destruct (parse_byte c s); [reflexivity|apply IH].
Qed.

Lemma parse_byte_return (c : ascii) (s r : parse_state) :
  parse_byte c s = Return r -> aborted r.
Proof.
  unfold parse_byte. repeat case_match; try discriminate.
  intros [= <-]. unfold aborted. cbn.
  split; [reflexivity|]. split; [reflexivity|].
  eexists. apply last_snoc.
Qed.

Lemma parse_loop_return (xs : list ascii) (s r : parse_state) :
  parse_loop xs s = Return r -> aborted r.
Proof.
  revert s. induction xs as [|c xs IH]; intros s; cbn [parse_loop].
  - discriminate.
  - destruct (parse_byte c s) as [r'|s'] eqn:E.
    + intros [= <-]. eapply parse_byte_return, E.
    + apply IH.
Qed.

Lemma parse_byte_LF (s : parse_state) :
  exists s', parse_byte LF s = Next s' /\ line_start s'.
Proof.
  unfold parse_byte, line_start.
  change (Ascii.eqb LF "010") with true. cbv iota.
  repeat case_match; eexists; (split; [reflexivity|]); cbn;
    rewrite length_app; cbn; (split; [reflexivity|lia]).
Qed.

Lemma parse_loop_whole_lines (text : list ascii) (s s' : parse_state) :
  whole_lines text -> line_start s -> parse_loop text s = Next s' ->
  line_start s'.
Proof.
  intros [->|[body ->]] Hs.
  - now intros [= <-].
  - rewrite parse_loop_app.
    destruct (parse_loop body s) as [r|t]; [discriminate|].
    cbn [parse_loop].
    destruct (parse_byte_LF t) as (t' & -> & Ht').
    now intros [= <-].
Qed.

Lemma parse_byte_length (c : ascii) (s s' : parse_state) :
  parse_byte c s = Next s' -> length (ps_buf s') = S (length (ps_buf s)).
Proof.
  unfold parse_byte. repeat case_match; try discriminate;
    intros [= <-]; cbn; rewrite length_app; cbn; lia.
Qed.

Lemma parse_loop_length (xs : list ascii) (s s' : parse_state) :
  parse_loop xs s = Next s' ->
  length (ps_buf s') = (length (ps_buf s) + length xs)%nat.
Proof.
  revert s. induction xs as [|c xs IH]; intros s; cbn [parse_loop length].
  - intros [= <-]. lia.
  - destruct (parse_byte c s) as [r|t] eqn:E; [discriminate|].
    intros H. rewrite (IH t H), (parse_byte_length c s t E). lia.
Qed.

(** ** The parser: what the records hold *)

Lemma commas_app (xs ys : list ascii) :
  commas (xs ++ ys) = (commas xs + commas ys)%nat.
Proof.
  induction xs as [|c xs IH]; cbn [app commas]; [reflexivity|].
  destruct (Ascii.eqb c ","); now rewrite IH.
Qed.

Lemma upto_LF_line (line rest : list ascii) :
  ~ In LF line -> upto_LF (line ++ LF :: rest) = line.
Proof.
  induction line as [|c line IH]; intros Hn; cbn [app upto_LF].
  - reflexivity.
  - destruct (Ascii.eqb_spec c "010") as [->|_].
    + exfalso. apply Hn. now left.
    + rewrite IH; [reflexivity|]. intros H. apply Hn. now right.
Qed.

Lemma In_drop (c : ascii) (n : nat) (xs : list ascii) :
  In c (drop n xs) -> In c xs.
Proof.
  revert n. induction xs as [|x xs IH]; intros [|n]; cbn; auto.
  intros H. right. eapply IH, H.
Qed.

(** The fields read so far give a domain only after the first comma and a
    username only after the second. *)
Lemma fields_read_pointers (start n : nat) (a : account) :
  fields_read start n a ->
  (a_domain a <> None -> a_domain a = Some start)
  /\ (a_username a <> None -> (2 <= n)%nat)
  /\ ((4 <= n)%nat -> 0 < a_length a).
Proof.
  destruct n as [|[|[|[|n]]]]; cbn [fields_read].
  - intros ->. cbn. repeat split; try congruence; lia.
  - intros (Hd & Hu & _ & _). repeat split; try congruence; lia.
  - intros (Hd & _ & _ & _). repeat split; try congruence; lia.
  - intros (Hd & _ & _ & _). repeat split; try congruence; lia.
  - intros (Hd & _ & _ & Hl). repeat split; try congruence; lia.
Qed.

(** A newline: the record, if it is appended, is one of a line that the
    newline ends, and the next line starts. *)
Lemma parse_byte_scanning_LF (done line todo : list ascii)
    (s s' : parse_state) :
  ~ In LF line ->
  scanning (done ++ line ++ LF :: todo) done line s ->
  parse_byte LF s = Next s' ->
  scanning (done ++ line ++ LF :: todo) (done ++ line ++ [LF]) [] s'.
Proof.
  intros Hline (Hbuf & Hcur & Hzero & Hacc & Hrec).
  set (buffer := done ++ line ++ LF :: todo) in *.
  assert (Hnext : length (ps_buf s ++ [NUL])
                  = length ((done ++ line ++ [LF]) ++ [])).
  { rewrite app_nil_r, !length_app in *. cbn [length]. lia. }
  assert (Hpos : S (length (ps_buf s)) = length (done ++ line ++ [LF])).
  { rewrite !length_app in *. cbn [length]. lia. }
  unfold parse_byte. change (Ascii.eqb LF "010") with true. cbv iota.
  cbn [a_domain a_username].
  destruct (a_domain (ps_account s)) as [d|] eqn:Ed;
    [destruct (a_username (ps_account s)) as [u|] eqn:Eu|];
    intros [= <-]; unfold scanning;
    cbn [ps_buf ps_cur ps_account ps_list ps_stderr commas];
    (split; [exact Hnext|]);
    (split; [rewrite app_nil_r; lia|]);
    (split; [intros _; exact Hpos|]);
    (split; [reflexivity|]); try exact Hrec.
  destruct (fields_read_pointers _ _ _ Hacc) as (Hd & Hu & Hl).
  rewrite Ed in Hd. rewrite Eu in Hu.
  unfold push_account. cbn [al_accounts].
  apply Forall_app. split; [now apply Forall_take|].
  constructor; [|constructor]. split.
  - exists (ps_cur s). split; [reflexivity|]. subst buffer.
    rewrite app_assoc, drop_app_le by lia.
    apply in_or_app. right. now left.
  - exists (length done). cbn [a_domain a_username a_length].
    split; [apply Hd; discriminate|]. split; [discriminate|].
    unfold line_at. subst buffer.
    rewrite drop_app_length, (upto_LF_line line todo Hline). exact Hl.
Qed.

(** Any other byte: the line read so far grows by it. *)
Lemma parse_byte_scanning (buffer done line : list ascii) (c : ascii)
    (s s' : parse_state) :
  c <> LF ->
  scanning buffer done line s ->
  parse_byte c s = Next s' ->
  scanning buffer done (line ++ [c]) s'.
Proof.
  intros Hc (Hbuf & Hcur & Hzero & Hacc & Hrec).
  assert (Hnext : forall b, length (ps_buf s ++ [b])
                            = length (done ++ line ++ [c])).
  { intros b. rewrite !length_app in *. cbn [length]. lia. }
  assert (Hpos : S (length (ps_buf s)) = length (done ++ line ++ [c])).
  { rewrite !length_app in *. cbn [length]. lia. }
  assert (Hle : (length (done ++ line) <= length (done ++ line ++ [c]))%nat).
  { rewrite !length_app. lia. }
  assert (Hdone : (length done <= length (done ++ line ++ [c]))%nat).
  { rewrite length_app. lia. }
  unfold parse_byte. apply Ascii.eqb_neq in Hc.
  change (Ascii.eqb c "010") with (Ascii.eqb c LF). rewrite Hc.
  unfold scanning. rewrite commas_app.
  destruct (Ascii.eqb_spec c ",") as [->|Hcomma].
  - cbn [commas]. change (Ascii.eqb "," ",") with true. cbv iota.
    replace (commas line + 1)%nat with (S (commas line)) by lia.
    destruct (commas line) as [|[|[|[|n]]]] eqn:En; cbn [fields_read] in Hacc.
    + rewrite Hacc. cbn [no_account a_domain]. intros [= <-].
      cbn [ps_buf ps_cur ps_account ps_list fields_read a_domain a_username
           a_iteration a_length].
      rewrite (Hzero eq_refl).
      repeat split; try apply Hnext; try lia; try discriminate; exact Hrec.
    + destruct Hacc as (Hd & Hu & Hi & Hl). rewrite Hd, Hu.
      intros [= <-].
      cbn [ps_buf ps_cur ps_account ps_list fields_read a_domain a_username
           a_iteration a_length].
      repeat split; try apply Hnext; try lia; try discriminate;
        try assumption.
    + destruct Hacc as (Hd & Hu & Hi & Hl). rewrite Hd, Hi.
      destruct (a_username (ps_account s)) as [u|] eqn:Eu; [|congruence].
      intros [= <-].
      cbn [ps_buf ps_cur ps_account ps_list fields_read a_domain a_username
           a_iteration a_length].
      repeat split; try apply Hnext; try lia; try discriminate;
        try assumption; congruence.
    + destruct Hacc as (Hd & Hu & Hi & Hl). rewrite Hd, Hl.
      destruct (a_username (ps_account s)) as [u|] eqn:Eu; [|congruence].
      destruct (a_iteration (ps_account s)) as [i|] eqn:Ei; [|congruence].
      change (0 =? 0) with true. cbv iota.
      set (tmp := atoi _).
      destruct (Z.eqb_spec tmp 0) as [E0|E0]; cbn [orb]; [discriminate|].
      destruct (Z.ltb_spec tmp 0) as [Eneg|Epos]; [discriminate|].
      intros [= <-].
      cbn [ps_buf ps_cur ps_account ps_list fields_read a_domain a_username
           a_iteration a_length].
      repeat split; try apply Hnext; try lia; try discriminate;
        try assumption; congruence.
    + destruct Hacc as (Hd & Hu & Hi & Hl). rewrite Hd.
      destruct (a_username (ps_account s)) as [u|] eqn:Eu; [|congruence].
      destruct (a_iteration (ps_account s)) as [i|] eqn:Ei; [|congruence].
      destruct (Z.eqb_spec (a_length (ps_account s)) 0) as [E0|_]; [lia|].
      intros [= <-].
      cbn [ps_buf ps_cur ps_account ps_list fields_read a_domain a_username
           a_iteration a_length].
      repeat split; try apply Hnext; try lia; try discriminate;
        try assumption; congruence.
  - cbn [commas]. apply Ascii.eqb_neq in Hcomma. rewrite Hcomma.
    rewrite Nat.add_0_r. intros [= <-].
    cbn [ps_buf ps_cur ps_account ps_list].
    repeat split; try apply Hnext; try lia; try assumption.
Qed.

(** The loop keeps the invariant, from any place of the buffer on. *)
Lemma parse_loop_scanning (todo done line : list ascii)
    (s s' : parse_state) :
  ~ In LF line ->
  scanning (done ++ line ++ todo) done line s ->
  parse_loop todo s = Next s' ->
  exists done' line',
    done ++ line ++ todo = done' ++ line' /\ ~ In LF line'
    /\ scanning (done ++ line ++ todo) done' line' s'.
Proof.
  revert done line s. induction todo as [|c todo IH]; intros done line s Hl Hs.
  - intros [= <-]. exists done, line. now rewrite app_nil_r in *.
  - cbn [parse_loop]. destruct (parse_byte c s) as [r|t] eqn:E; [discriminate|].
    intros Hrun. destruct (Ascii.eqb_spec c LF) as [->|Hc].
    + pose proof (parse_byte_scanning_LF done line todo s t Hl Hs E) as Ht.
      destruct (IH (done ++ line ++ [LF]) [] t) as (d' & l' & Heq & Hl' & Hs').
      * intros [].
      * cbn [app]. now rewrite <- !app_assoc.
      * exact Hrun.
      * exists d', l'. cbn [app] in Heq, Hs'.
        rewrite <- !app_assoc in Heq, Hs'. cbn [app] in Heq, Hs'.
        auto.
    + pose proof (parse_byte_scanning _ done line c s t Hc Hs E) as Ht.
      destruct (IH done (line ++ [c]) t) as (d' & l' & Heq & Hl' & Hs').
      * intros H. apply in_app_or in H as [H|[H|[]]]; [now apply Hl|].
        now apply Hc.
      * now rewrite <- app_assoc.
      * exact Hrun.
      * exists d', l'. rewrite <- app_assoc in Heq, Hs'. auto.
Qed.

(** The list that [parse_accounts] returns: records of lines that a newline
    ends, each of them checked, then at most one record appended at the end
    of the buffer, and none when the buffer is made of whole lines. *)
Lemma parse_from_checked (k : nat) (buffer : list ascii) :
  let accounts := al_accounts (p_list (parse_from k buffer)) in
  Forall (fun a => line_ended buffer a -> checked buffer a) accounts
  /\ Forall (line_ended buffer) (removelast accounts)
  /\ (whole_lines buffer -> Forall (line_ended buffer) accounts).
Proof.
  cbv zeta. unfold parse_from.
  set (s0 := {| ps_buf := []; ps_cur := 0%nat; ps_account := no_account;
                ps_list := new_account_list k; ps_stderr := [] |}).
  assert (Hs0 : line_start s0) by (split; reflexivity).
  assert (Hi0 : scanning ([] ++ [] ++ buffer) [] [] s0).
  { unfold scanning. cbn. repeat split; try lia. constructor. }
  destruct (parse_loop buffer s0) as [r|s] eqn:E; cbn [p_list].
  - destruct (parse_loop_return _ _ _ E) as (-> & _).
    repeat split; constructor.
  - destruct (parse_loop_scanning buffer [] [] s0 s (fun H => H) Hi0 E)
      as (done & line & Heq & Hline & (Hbuf & Hcur & _ & _ & Hrec)).
    cbn [app] in Heq, Hrec.
    assert (Hboth : Forall (line_ended buffer) (al_accounts (ps_list s))
                    /\ Forall (fun a => line_ended buffer a
                                        -> checked buffer a)
                         (al_accounts (ps_list s))).
    { split; eapply Forall_impl; try exact Hrec; cbn; tauto. }
    destruct Hboth as [Hended Hchecked].
    destruct (Nat.ltb_spec (ps_cur s) (length buffer)) as [Hlt|Hge].
    + unfold push_account. cbn [al_accounts].
      split; [|split].
      * apply Forall_app. split; [now apply Forall_take|].
        constructor; [|constructor].
        intros (c & [= <-] & Hin). exfalso. apply Hline.
        rewrite Heq, drop_app_ge in Hin by lia.
        eapply In_drop, Hin.
      * rewrite removelast_last. now apply Forall_take.
      * intros Hw.
        destruct (parse_loop_whole_lines _ _ _ Hw Hs0 E) as [_ Hc].
        pose proof (parse_loop_length _ _ _ E) as Hlen. cbn in Hlen. lia.
    + split; [exact Hchecked|]. split; [|intros _; exact Hended].
      clear - Hended. induction Hended as [|a l Ha Hl IH]; [constructor|].
      destruct l as [|b l]; [constructor|].
      cbn [removelast] in *. constructor; [exact Ha|exact IH].
Qed.

(** C9, as the code has it (the newline case of parse_accounts): in the list
    returned, every record of a line that a newline ends has its domain,
    which points to the start of that line, and its username present, their
    text possibly empty, and has a length above zero if the line holds four
    commas or more, so that its length field was read.  Every record but
    the last is such a record, and so is the last when the buffer is empty
    or ends with a newline; nothing is said of the length of a record whose
    line has fewer than four commas, nor of a last record appended at the end
    of the buffer for a line without newline. *)
Theorem newline_records_have_domain_and_username
    (avg : Z) (buffer : list ascii) :
  let accounts := al_accounts (p_list (parse_accounts avg buffer)) in
  Forall (fun a => line_ended buffer a -> checked buffer a) accounts
  /\ Forall (line_ended buffer) (removelast accounts)
  /\ (whole_lines buffer -> Forall (line_ended buffer) accounts).
Proof.
  cbv zeta. rewrite parse_accounts_accounts. apply parse_from_checked.
Qed.

(** C9, as stated, fails: a line with an empty domain gives a record whose
    domain is the empty string, which the invariant of the specification
    excludes. *)
Lemma record_with_empty_domain_is_accepted :
  ~ (exists avg,
       let p := parse_accounts avg (bytes ",alice,1,12,:alnum:" ++ [LF]) in
       Forall (record_invariant p) (al_accounts (p_list p))).
Proof.
  intros [avg H]; cbv zeta in H.
  rewrite parse_accounts_accounts in H.
  vm_compute al_accounts in H.
  apply Forall_cons_1 in H as [(Hd & Hu & Hlen) _].
  destruct Hd as (d & Hd & Hne). unfold field_text in Hd.
  rewrite parse_accounts_buffer in Hd. vm_compute in Hd.
  congruence.
Qed.

(** C7 on the code: of three lines, the second and the third lacking a
    username, the second is reported as line 2 and the third as line 2 as
    well, the number printed being one more than the number of records
    accepted so far; the well-formed first line is kept. *)
Theorem invalid_entry_reported_with_record_count (avg : Z) :
  let p := parse_accounts avg
             (bytes "a.com,al,1,8,:alnum:" ++ [LF]
              ++ bytes "b.com" ++ [LF] ++ bytes "c.com" ++ [LF]) in
  p_stderr p = [InvalidEntry 2; InvalidEntry 2]
  /\ al_size (p_list p) = 1%nat
  /\ map (fun a => field_text p (a_domain a)) (al_accounts (p_list p))
     = [Some (bytes "a.com")].
Proof.
  cbv zeta. unfold field_text.
  rewrite parse_accounts_stderr, parse_accounts_size,
    parse_accounts_accounts, parse_accounts_buffer.
  vm_compute. repeat split.
Qed.

(** The partial load of the specification, with the lines in the field
    order of the code: five lines, the second without username; the four
    others are kept, in order, and the one diagnostic names line 2. *)
Example partial_load_keeps_four_records (avg : Z) :
  let p := parse_accounts avg
             (bytes "a.com,al,1,8,:alnum:" ++ [LF]
              ++ bytes "b.com" ++ [LF]
              ++ bytes "c.com,cy,1,9,a-z" ++ [LF]
              ++ bytes "d.com,di,2,10,0-9,a-f" ++ [LF]
              ++ bytes "e.com,ed,1,11," ++ [LF]) in
  map (fun a => (field_text p (a_domain a), field_text p (a_characters a),
                 a_length a))
    (al_accounts (p_list p))
  = [(Some (bytes "a.com"), Some (bytes ":alnum:"), 8);
     (Some (bytes "c.com"), Some (bytes "a-z"), 9);
     (Some (bytes "d.com"), Some (bytes "0-9,a-f"), 10);
     (Some (bytes "e.com"), Some (bytes ""), 11)]
  /\ al_size (p_list p) = 4%nat
  /\ p_stderr p = [InvalidEntry 2].
Proof.
  cbv zeta. unfold field_text.
  rewrite parse_accounts_stderr, parse_accounts_size,
    parse_accounts_accounts, parse_accounts_buffer.
  vm_compute. repeat split.
Qed.

(** The record appended at the end of the buffer, for a last line without
    newline, is appended as it stands: here with no domain and no
    username. *)
Example end_of_buffer_record_is_appended_unchecked (avg : Z) :
  al_accounts (p_list (parse_accounts avg (bytes "example.com")))
  = [{| a_domain := None; a_username := None; a_iteration := None;
        a_characters := Some 0%nat; a_length := 0 |}].
Proof.
  rewrite parse_accounts_accounts. vm_compute. reflexivity.
Qed.

(** ** The parser: the length field *)

Lemma digits_value_terminated (acc : Z) (tok rest : list ascii) :
  digits_value acc (tok ++ NUL :: rest) = digits_value acc tok.
Proof.
  revert acc. induction tok as [|c tok IH]; intros acc; cbn [app].
  - reflexivity.
  - cbn [digits_value]. destruct (isdigit c); [apply IH|reflexivity].
Qed.

Lemma decimal_value_terminated (tok rest : list ascii) :
  decimal_value (tok ++ NUL :: rest) = decimal_value tok.
Proof.
  unfold decimal_value. induction tok as [|c tok IH]; cbn [app skip_spaces].
  - reflexivity.
  - destruct (isspace c); [exact IH|].
    change (c :: tok ++ NUL :: rest) with ((c :: tok) ++ NUL :: rest).
    now rewrite !digits_value_terminated.
Qed.

(** [atoi] reads no further than the terminator written over the comma. *)
Lemma atoi_terminated (tok rest : list ascii) :
  atoi (tok ++ NUL :: rest) = atoi tok.
Proof.
  unfold atoi, strtol. now rewrite decimal_value_terminated.
Qed.

(** [atoi] stops at the first character that is no digit, and a number
    that does not fit an [int] wraps around, after it has saturated if it
    does not fit a [long]. *)
Example atoi_values :
  map (fun tok => atoi (bytes tok))
    ["12"; "-3"; "3x"; "x3"; "-4294967295"; "4294967296";
     "99999999999999999999"]%string
  = [12; -3; 3; 0; 1; 0; -1].
Proof. vm_compute. reflexivity. Qed.

(** The loop copies the bytes of a field and changes nothing else. *)
Lemma parse_loop_field (xs rest : list ascii) (s : parse_state) :
  field_bytes xs = true ->
  parse_loop (xs ++ rest) s = parse_loop rest (put_buf s (ps_buf s ++ xs)).
Proof.
  revert s. induction xs as [|c xs IH]; intros s Hf.
  - cbn [app]. rewrite app_nil_r. now destruct s.
  - cbn [field_bytes forallb] in Hf. apply andb_prop in Hf as [Hc Hxs].
    apply andb_prop in Hc as [Hlf Hcomma].
    apply negb_true_iff in Hlf, Hcomma.
    cbn [app parse_loop]. unfold parse_byte at 1.
    change (Ascii.eqb c "010") with (Ascii.eqb c LF).
    rewrite Hlf, Hcomma.
    rewrite IH by exact Hxs. unfold put_buf. cbn [ps_buf ps_cur ps_account
      ps_list ps_stderr]. now rewrite <- app_assoc.
Qed.

(** A field and its comma, while one of the first three pointers is still
    null: the pointer that is set is not null afterwards, the others and
    the length are as before, and [cur] stands after the comma. *)
Lemma parse_loop_leading_field (xs rest : list ascii) (s : parse_state) :
  field_bytes xs = true ->
  a_iteration (ps_account s) = None ->
  exists s',
    parse_loop (xs ++ "," :: rest)%char s = parse_loop rest s'
    /\ ps_cur s' = length (ps_buf s')
    /\ a_length (ps_account s') = a_length (ps_account s)
    /\ match a_domain (ps_account s), a_username (ps_account s) with
       | None, _ =>
           a_domain (ps_account s') <> None
           /\ a_username (ps_account s') = a_username (ps_account s)
           /\ a_iteration (ps_account s') = None
       | Some _, None =>
           a_domain (ps_account s') <> None
           /\ a_username (ps_account s') <> None
           /\ a_iteration (ps_account s') = None
       | Some _, Some _ =>
           a_domain (ps_account s') <> None
           /\ a_username (ps_account s') <> None
           /\ a_iteration (ps_account s') <> None
       end.
Proof.
  intros Hf Hi. rewrite (parse_loop_field xs _ s Hf).
  cbn [parse_loop]. unfold parse_byte.
  change (Ascii.eqb "," "010") with false.
  change (Ascii.eqb "," ",") with true. cbv iota.
  cbn [put_buf ps_account ps_buf ps_cur ps_list ps_stderr].
  rewrite Hi.
  destruct (a_domain (ps_account s)) as [d|] eqn:Ed;
    [destruct (a_username (ps_account s)) as [u|] eqn:Eu|];
    eexists; (split; [reflexivity|]);
    cbn [ps_cur ps_buf ps_account a_length a_domain a_username a_iteration];
    rewrite ?length_app; cbn [length];
    repeat split; try congruence; try lia; try discriminate.
Qed.

(** The fourth field and its comma, when its value is not above zero: the
    function returns at once. *)
Lemma parse_loop_length_field (tok rest : list ascii) (s : parse_state) :
  field_bytes tok = true ->
  a_domain (ps_account s) <> None ->
  a_username (ps_account s) <> None ->
  a_iteration (ps_account s) <> None ->
  a_length (ps_account s) = 0 ->
  ps_cur s = length (ps_buf s) ->
  atoi tok <= 0 ->
  exists r, parse_loop (tok ++ "," :: rest)%char s = Return r.
Proof.
  intros Hf Hd Hu Hi Hl Hcur Hbad. rewrite (parse_loop_field tok _ s Hf).
  cbn [parse_loop]. unfold parse_byte.
  change (Ascii.eqb "," "010") with false.
  change (Ascii.eqb "," ",") with true. cbv iota.
  cbn [put_buf ps_account ps_buf ps_cur ps_list ps_stderr].
  destruct (a_domain (ps_account s)); [|contradiction].
  destruct (a_username (ps_account s)); [|contradiction].
  destruct (a_iteration (ps_account s)); [|contradiction].
  rewrite Hl. change (0 =? 0) with true. cbv iota.
  rewrite Hcur, <- app_assoc, drop_app_length, atoi_terminated.
  destruct (Z.eqb_spec (atoi tok) 0) as [E|E]; cbn [orb]; [eauto|].
  destruct (Z.ltb_spec (atoi tok) 0); [eauto|lia].
Qed.

(** From the start of a line, a line whose fourth field is not above zero
    makes the function return. *)
Lemma parse_loop_bad_length (d u i tok rest : list ascii) (s : parse_state) :
  line_start s ->
  field_bytes d = true -> field_bytes u = true -> field_bytes i = true ->
  field_bytes tok = true -> atoi tok <= 0 ->
  exists r,
    parse_loop (d ++ "," :: u ++ "," :: i ++ "," :: tok ++ "," :: rest)%char s
    = Return r.
Proof.
  intros [Ha Hcur] Hd Hu Hi Htok Hbad.
  destruct (parse_loop_leading_field d
              (u ++ "," :: i ++ "," :: tok ++ "," :: rest)%char s Hd)
    as (s1 & -> & Hc1 & Hl1 & H1); [now rewrite Ha|].
  rewrite Ha in H1, Hl1. cbn in H1, Hl1. destruct H1 as (Hd1 & Hu1 & Hi1).
  destruct (parse_loop_leading_field u
              (i ++ "," :: tok ++ "," :: rest)%char s1 Hu Hi1)
    as (s2 & -> & Hc2 & Hl2 & H2).
  destruct (a_domain (ps_account s1)) eqn:E1; [|contradiction].
  rewrite Hu1 in H2. destruct H2 as (Hd2 & Hu2 & Hi2).
  destruct (parse_loop_leading_field i (tok ++ "," :: rest)%char s2 Hi Hi2)
    as (s3 & -> & Hc3 & Hl3 & H3).
  destruct (a_domain (ps_account s2)) eqn:E2; [|contradiction].
  destruct (a_username (ps_account s2)) eqn:E3; [|contradiction].
  destruct H3 as (Hd3 & Hu3 & Hi3).
  apply parse_loop_length_field; auto. congruence.
Qed.

(** C5, as the code has it (parse_accounts, free_account_list): a database
    in which, after any number of whole lines, a line carries between its
    third and its fourth comma, where the parser reads the length, a token
    that [atoi] reads as an [int] that is zero or negative (a token without
    leading digits reads as zero), is refused as a whole: the list returned
    is empty, with size 0, whatever had been accumulated, and the last
    message written is the one about the length. *)
Theorem bad_length_aborts_whole_parse
    (avg : Z) (before d u i tok rest : list ascii) :
  whole_lines before ->
  field_bytes d = true -> field_bytes u = true -> field_bytes i = true ->
  field_bytes tok = true ->
  atoi tok <= 0 ->
  let p :=
    parse_accounts avg
      (before ++ d ++ "," :: u ++ "," :: i ++ "," :: tok ++ "," :: rest)%char
  in
  al_accounts (p_list p) = [] /\ al_size (p_list p) = 0%nat
  /\ exists n, last (p_stderr p) = Some (InvalidLength n).
Proof.
  intros Hw Hd Hu Hi Htok Hbad. cbv zeta.
  unfold parse_accounts, parse_from.
  match goal with
  | |- context [parse_loop _ ?s] => set (s0 := s)
  end.
  assert (Hs0 : line_start s0) by (split; reflexivity).
  assert (Hret : exists r,
             parse_loop
               (before ++
                d ++ "," :: u ++ "," :: i ++ "," :: tok ++ "," :: rest)%char
               s0 = Return r).
  { rewrite parse_loop_app.
    destruct (parse_loop before s0) as [r|s1] eqn:E; [eauto|].
    apply parse_loop_bad_length; auto.
    eapply parse_loop_whole_lines; eauto. }
  destruct Hret as [r Hr]. rewrite Hr. cbn [p_list p_stderr].
  exact (parse_loop_return _ _ _ Hr).
Qed.

Lemma bad_length_aborts_whole_parse_witness :
  let p :=
    parse_accounts 64
      ((bytes "a.com,al,1,8,:alnum:" ++ [LF]) ++
       bytes "b.com" ++ "," :: bytes "bob" ++ "," :: bytes "1" ++ "," ::
       bytes "-3" ++ "," :: bytes ":alnum:" ++ [LF])%char
  in
  al_accounts (p_list p) = [] /\ al_size (p_list p) = 0%nat
  /\ exists n, last (p_stderr p) = Some (InvalidLength n).
Proof.
  apply (bad_length_aborts_whole_parse 64
           (bytes "a.com,al,1,8,:alnum:" ++ [LF])
           (bytes "b.com") (bytes "bob") (bytes "1") (bytes "-3")
           (bytes ":alnum:" ++ [LF])).
  - right. exists (bytes "a.com,al,1,8,:alnum:"). reflexivity.
  - reflexivity.
  - reflexivity.
  - reflexivity.
  - reflexivity.
  - vm_compute. discriminate.
Defined.

(** C5, as stated, fails: the length token [3x] is not a number, yet [atoi]
    reads its leading digit and the line is accepted with length 3; the load
    is not aborted, nothing is reported, and both records are returned. *)
Lemma length_with_trailing_letter_is_accepted :
  forallb isdigit (bytes "3x") = false
  /\ ~ (exists avg,
          let p :=
            parse_accounts avg
              (bytes "a.com,al,1,8,:alnum:" ++ [LF]
               ++ bytes "b.com,bob,1,3x,:alnum:" ++ [LF]) in
          al_accounts (p_list p) = [] \/ p_stderr p <> [])
  /\ map a_length
       (al_accounts
          (p_list (parse_from 1
                     (bytes "a.com,al,1,8,:alnum:" ++ [LF]
                      ++ bytes "b.com,bob,1,3x,:alnum:" ++ [LF]))))
     = [8; 3].
Proof.
  split; [reflexivity|]. split; [|vm_compute; reflexivity].
  intros [avg H]. cbv zeta in H.
  rewrite parse_accounts_accounts, parse_accounts_stderr in H.
  vm_compute in H. destruct H as [H|H]; [discriminate H|now apply H].
Qed.

(** ** The pipeline *)

Lemma enumerated_alloc (fuel : nat) (stack : nat -> ascii) (malloc_ok : bool)
    (spec : option (list ascii)) (res : list ascii) (rlen : nat) :
  enumerate_charset fuel stack malloc_ok spec = Some (Enumerated res rlen) ->
  malloc_ok = true.
Proof.
  unfold enumerate_charset. destruct spec as [spec|]; [|discriminate].
  destruct (scan_run _ _ _) as [s|]; [|discriminate].
  unfold scan_finish.
  destruct (sc_result _); [|discriminate].
  now destruct malloc_ok.
Qed.

Lemma fresh_last (init : nat -> ascii) (n : nat) :
  drop n (fresh init (n + 1)) = [init n].
Proof.
  unfold fresh. rewrite seq_app, map_app. cbn [seq map Nat.add].
  apply drop_app_length'. now rewrite length_map, length_seq.
Qed.

(** The text that [to_chars] leaves does not depend on what followed the
    raw bytes in the buffer. *)
Lemma to_chars_prefix (raw m1 m2 chars b1 b2 : list ascii) (t1 t2 : ascii)
    (clen : Z) :
  to_chars (raw ++ t1 :: m1) (length raw) chars clen = Some b1 ->
  to_chars (raw ++ t2 :: m2) (length raw) chars clen = Some b2 ->
  take (length raw) b1 = take (length raw) b2.
Proof.
  revert b1 b2. induction raw as [|b raw IH]; intros b1 b2.
  - reflexivity.
  - cbn [app length to_chars].
    destruct (int_of_size_t clen =? 0); [discriminate|].
    destruct (chars !! _) as [ch|]; [|discriminate].
    destruct (to_chars (raw ++ t1 :: m1) _ _ _) as [r1|]; [|discriminate].
    destruct (to_chars (raw ++ t2 :: m2) _ _ _) as [r2|]; [|discriminate].
    intros [= <-] [= <-]. cbn [take]. f_equal. now apply IH.
Qed.

Section PipelineFacts.

Variable crypto_scrypt :
  list ascii -> list ascii -> Z -> Z -> Z -> nat -> option (list ascii).
Variables MP_N MP_r MP_p : Z.

(** The key derivation writes as many bytes as it is asked for. *)
Hypothesis crypto_scrypt_length :
  forall passwd salt n out,
    crypto_scrypt passwd salt MP_N MP_r MP_p n = Some out -> length out = n.

Lemma derive_password_buffer (heap : option (nat -> ascii))
    (master d u i buf buf' : list ascii) (len : nat) :
  derive_password crypto_scrypt MP_N MP_r MP_p heap master d u i len buf
  = Some buf' ->
  exists raw,
    crypto_scrypt master (cstr d ++ cstr u ++ cstr i) MP_N MP_r MP_p len
    = Some raw
    /\ length raw = len /\ buf' = raw ++ drop len buf.
Proof.
  unfold derive_password. destruct heap as [block|]; [|discriminate].
  rewrite salt_bytes.
  destruct (crypto_scrypt _ _ _ _ _ _) as [raw|] eqn:E; [|discriminate].
  intros [= <-]. exists raw. split; [reflexivity|].
  split; [now apply crypto_scrypt_length in E|reflexivity].
Qed.

(** Two runs of the pipeline on the same inputs that both give a password
    give the same one. *)
Lemma generate_password_agree (e1 e2 : environment)
    (master d u i cs p1 p2 : list ascii) (len : nat) :
  generate_password crypto_scrypt MP_N MP_r MP_p e1 master d u i cs len
  = Some p1 ->
  generate_password crypto_scrypt MP_N MP_r MP_p e2 master d u i cs len
  = Some p2 ->
  p1 = p2.
Proof.
  unfold generate_password.
  destruct (enumerate_charset (env_fuel e1) _ _ _) as [[?|chars1 clen1]|]
    eqn:E1; try discriminate.
  destruct (enumerate_charset (env_fuel e2) _ _ _) as [[?|chars2 clen2]|]
    eqn:E2; try discriminate.
  pose proof (enumerated_alloc _ _ _ _ _ _ E1) as A1.
  pose proof (enumerated_alloc _ _ _ _ _ _ E2) as A2.
  rewrite A1 in E1. rewrite A2 in E2.
  pose proof (enumerate_charset_agree _ _ _ _ _ _ _ _ E1 E2) as [= <- <-].
  destruct (derive_password _ _ _ _ (env_salt_alloc e1) _ _ _ _ _ _)
    as [b1|] eqn:D1; [|discriminate].
  destruct (derive_password _ _ _ _ (env_salt_alloc e2) _ _ _ _ _ _)
    as [b2|] eqn:D2; [|discriminate].
  apply derive_password_buffer in D1 as (raw1 & K1 & L1 & ->).
  apply derive_password_buffer in D2 as (raw2 & K2 & L2 & ->).
  assert (raw2 = raw1) as -> by congruence.
  rewrite !fresh_last. rewrite <- L1.
  destruct (to_chars (raw1 ++ [env_output e1 _]) _ _ _) as [t1|] eqn:T1;
    [|discriminate].
  destruct (to_chars (raw1 ++ [env_output e2 _]) _ _ _) as [t2|] eqn:T2;
    [|discriminate].
  intros [= <-] [= <-]. eapply to_chars_prefix; eauto.
Qed.

(** A run in which the charset compiler returns a non-empty alphabet, the
    salt is allocated and the key derivation succeeds gives the raw bytes
    mapped onto the alphabet. *)
Lemma generate_password_runs (e : environment)
    (master d u i cs chars raw : list ascii) (len : nat) :
  enumerate_charset (env_fuel e) (env_stack e) (env_charset_alloc e)
    (Some cs) = Some (Enumerated chars (length chars)) ->
  chars <> [] ->
  Z.of_nat (length chars) < 2 ^ 31 ->
  env_salt_alloc e <> None ->
  crypto_scrypt master (cstr d ++ cstr u ++ cstr i) MP_N MP_r MP_p len
  = Some raw ->
  generate_password crypto_scrypt MP_N MP_r MP_p e master d u i cs len
  = Some (mapped raw chars).
Proof.
  intros E Hne Hlen Halloc K. unfold generate_password. rewrite E.
  unfold derive_password.
  destruct (env_salt_alloc e) as [block|]; [|contradiction].
  rewrite salt_bytes, K, fresh_last.
  pose proof (crypto_scrypt_length _ _ _ _ K) as L. rewrite <- L.
  rewrite to_chars_mapped by assumption.
  rewrite take_app_length'; [reflexivity|].
  unfold mapped. now rewrite length_map.
Qed.

End PipelineFacts.

(** C2 (derive_password, to_chars, with enumerate_charset before them): for
    fixed master secret, domain, username, iteration, charset specification
    and length, and a key derivation that is a function of its inputs and
    writes as many bytes as it is asked for, two runs of the pipeline that
    both produce a password produce the same bytes, whatever the fuel, the
    contents of the uninitialised stack array, of the allocated salt block
    and of the output buffer in either run. *)
Theorem generate_password_deterministic
    (crypto_scrypt :
       list ascii -> list ascii -> Z -> Z -> Z -> nat -> option (list ascii))
    (MP_N MP_r MP_p : Z) (e1 e2 : environment)
    (master domain username iteration charset_spec p1 p2 : list ascii)
    (len : nat) :
  (forall passwd salt n out,
     crypto_scrypt passwd salt MP_N MP_r MP_p n = Some out ->
     length out = n) ->
  generate_password crypto_scrypt MP_N MP_r MP_p e1 master domain username
    iteration charset_spec len = Some p1 ->
  generate_password crypto_scrypt MP_N MP_r MP_p e2 master domain username
    iteration charset_spec len = Some p2 ->
  p1 = p2.
Proof.
  intros Hlen H1 H2.
  exact (generate_password_agree crypto_scrypt MP_N MP_r MP_p Hlen
           e1 e2 master domain username iteration charset_spec p1 p2 len
           H1 H2).
Qed.

Lemma sample_kdf_length (N r p : Z) (passwd salt : list ascii) (n : nat)
    (out : list ascii) :
  sample_kdf passwd salt N r p n = Some out -> length out = n.
Proof.
  intros [= <-]. rewrite length_take, !length_app, repeat_length. lia.
Qed.

Lemma generate_password_deterministic_witness :
  exists p1 p2,
    generate_password sample_kdf 16384 8 1 sample_env_1 (bytes "secret")
      (bytes "example.com") (bytes "alice") (bytes "1") (bytes ":alnum:") 12
    = Some p1
    /\ generate_password sample_kdf 16384 8 1 sample_env_2 (bytes "secret")
         (bytes "example.com") (bytes "alice") (bytes "1") (bytes ":alnum:")
         12
       = Some p2
    /\ p1 = p2.
Proof.
  eexists _, _.
  split; [vm_compute; reflexivity|].
  split; [vm_compute; reflexivity|].
  apply (generate_password_deterministic sample_kdf 16384 8 1
           sample_env_1 sample_env_2 (bytes "secret") (bytes "example.com")
           (bytes "alice") (bytes "1") (bytes ":alnum:") _ _ 12).
  - intros passwd salt n out. apply sample_kdf_length.
  - vm_compute. reflexivity.
  - vm_compute. reflexivity.
Defined.

(** ** The example line of the specification *)

Lemma mapped_forallb (f : ascii -> bool) (raw alphabet : list ascii) :
  alphabet <> [] -> forallb f alphabet = true ->
  forallb f (mapped raw alphabet) = true.
Proof.
  intros Hne Hf. apply forallb_forall. intros ch Hch.
  pose proof (mapped_in raw alphabet Hne) as Hin.
  rewrite Forall_forall in Hin. apply list_elem_of_In in Hch.
  specialize (Hin ch Hch). rewrite forallb_forall in Hf. now apply Hf.
Qed.

Lemma example_line_parsed (avg : Z) :
  let db :=
    parse_accounts avg (bytes "example.com,alice,1,12,:alnum:" ++ [LF]) in
  p_buffer db = example_buffer
  /\ al_accounts (p_list db) = [example_account].
Proof.
  cbv zeta. rewrite parse_accounts_buffer, parse_accounts_accounts.
  split; vm_compute; reflexivity.
Qed.

Lemma example_run
    (crypto_scrypt :
       list ascii -> list ascii -> Z -> Z -> Z -> nat -> option (list ascii))
    (MP_N MP_r MP_p : Z) (master raw : list ascii) (e : environment) :
  (forall passwd salt n out,
     crypto_scrypt passwd salt MP_N MP_r MP_p n = Some out ->
     length out = n) ->
  crypto_scrypt master (bytes "example.comalice1") MP_N MP_r MP_p 12%nat
  = Some raw ->
  (200 <= env_fuel e)%nat /\ env_charset_alloc e = true
  /\ env_salt_alloc e <> None ->
  generate_password crypto_scrypt MP_N MP_r MP_p e master
    (drop 0 example_buffer) (drop 12 example_buffer)
    (drop 18 example_buffer) (drop 23 example_buffer) 12
  = Some (mapped raw alnum_alphabet).
Proof.
  intros Hlen Hraw (Hfuel & Halloc & Hsalt).
  apply (generate_password_runs crypto_scrypt MP_N MP_r MP_p Hlen e master
           _ _ _ _ alnum_alphabet raw).
  - rewrite Halloc.
    apply (enumerate_charset_transfer 200 _ (fun _ => NUL));
      [vm_compute; reflexivity|exact Hfuel].
  - discriminate.
  - vm_compute; reflexivity.
  - exact Hsalt.
  - replace (cstr (drop 0 example_buffer) ++ cstr (drop 12 example_buffer)
             ++ cstr (drop 18 example_buffer))
      with (bytes "example.comalice1") by (vm_compute; reflexivity).
    exact Hraw.
Qed.

(** The pipeline on the record of the example line, in any run. *)
Lemma example_record_password
    (crypto_scrypt :
       list ascii -> list ascii -> Z -> Z -> Z -> nat -> option (list ascii))
    (MP_N MP_r MP_p : Z) (avg : Z) (master : list ascii) (e : environment) :
  record_password crypto_scrypt MP_N MP_r MP_p e master
    (parse_accounts avg (bytes "example.com,alice,1,12,:alnum:" ++ [LF]))
    example_account
  = generate_password crypto_scrypt MP_N MP_r MP_p e master
      (drop 0 example_buffer) (drop 12 example_buffer)
      (drop 18 example_buffer) (drop 23 example_buffer) 12.
Proof.
  destruct (example_line_parsed avg) as [Hbuf _]. cbv zeta in Hbuf.
  unfold record_password, example_account.
  cbn [a_domain a_username a_iteration a_characters a_length].
  rewrite Hbuf. reflexivity.
Qed.

Lemma example_unique
    (crypto_scrypt :
       list ascii -> list ascii -> Z -> Z -> Z -> nat -> option (list ascii))
    (MP_N MP_r MP_p : Z) (master raw pw' : list ascii)
    (e0 e : environment) :
  (forall passwd salt n out,
     crypto_scrypt passwd salt MP_N MP_r MP_p n = Some out ->
     length out = n) ->
  crypto_scrypt master (bytes "example.comalice1") MP_N MP_r MP_p 12%nat
  = Some raw ->
  (200 <= env_fuel e0)%nat /\ env_charset_alloc e0 = true
  /\ env_salt_alloc e0 <> None ->
  generate_password crypto_scrypt MP_N MP_r MP_p e master
    (drop 0 example_buffer) (drop 12 example_buffer)
    (drop 18 example_buffer) (drop 23 example_buffer) 12
  = Some pw' ->
  pw' = mapped raw alnum_alphabet.
Proof.
  intros Hlen Hraw He0 H.
  pose proof (example_run crypto_scrypt MP_N MP_r MP_p master raw e0
                Hlen Hraw He0) as H0.
  exact (generate_password_agree crypto_scrypt MP_N MP_r MP_p Hlen
           e e0 master _ _ _ _ pw' _ _ H H0).
Qed.

Lemma sample_env_1_runs :
  (200 <= env_fuel sample_env_1)%nat /\ env_charset_alloc sample_env_1 = true
  /\ env_salt_alloc sample_env_1 <> None.
Proof.
  split; [cbn; lia|]. split; [reflexivity|discriminate].
Qed.

(** C1, as the code has it (parse_accounts and the pipeline): the parser
    reads the field between the third and the fourth comma as the length
    and the text after the fourth comma, up to the newline, as the charset
    specification.  The line [example.com,alice,1,12,:alnum:] gives one
    record with domain example.com, username alice, iteration 1, charset
    specification :alnum: and length 12; for any master secret, with the key
    derivation returning 12 raw bytes for the salt example.comalice1, every
    run whose allocations succeed and whose fuel is at least 200 produces
    the same password of 12 alphanumeric characters, and no run produces
    another one. *)
Theorem example_line_gives_12_alphanumeric_characters
    (crypto_scrypt :
       list ascii -> list ascii -> Z -> Z -> Z -> nat -> option (list ascii))
    (MP_N MP_r MP_p : Z) (avg : Z) (master raw : list ascii) :
  (forall passwd salt n out,
     crypto_scrypt passwd salt MP_N MP_r MP_p n = Some out ->
     length out = n) ->
  crypto_scrypt master (bytes "example.comalice1") MP_N MP_r MP_p 12%nat
  = Some raw ->
  let db :=
    parse_accounts avg (bytes "example.com,alice,1,12,:alnum:" ++ [LF]) in
  exists a pw,
    al_accounts (p_list db) = [a]
    /\ field_text db (a_domain a) = Some (bytes "example.com")
    /\ field_text db (a_username a) = Some (bytes "alice")
    /\ field_text db (a_iteration a) = Some (bytes "1")
    /\ field_text db (a_characters a) = Some (bytes ":alnum:")
    /\ a_length a = 12
    /\ length pw = 12%nat
    /\ forallb isalnum pw = true
    /\ (forall e,
          (200 <= env_fuel e)%nat /\ env_charset_alloc e = true
          /\ env_salt_alloc e <> None ->
          record_password crypto_scrypt MP_N MP_r MP_p e master db a
          = Some pw)
    /\ (forall e pw',
          record_password crypto_scrypt MP_N MP_r MP_p e master db a
          = Some pw' ->
          pw' = pw).
Proof.
  intros Hlen Hraw db.
  destruct (example_line_parsed avg) as [Hbuf Hacc]. fold db in Hbuf, Hacc.
  exists example_account, (mapped raw alnum_alphabet).
  split; [exact Hacc|].
  unfold field_text, example_account.
  cbn [a_domain a_username a_iteration a_characters a_length]. rewrite Hbuf.
  split; [vm_compute; reflexivity|].
  split; [vm_compute; reflexivity|].
  split; [vm_compute; reflexivity|].
  split; [vm_compute; reflexivity|].
  split; [reflexivity|].
  split.
  { unfold mapped. rewrite length_map. exact (Hlen _ _ _ _ Hraw). }
  split.
  { apply mapped_forallb; [discriminate|vm_compute; reflexivity]. }
  fold example_account. subst db. split.
  - intros e He. rewrite example_record_password.
    now apply example_run.
  - intros e pw' H. rewrite example_record_password in H.
    exact (example_unique crypto_scrypt MP_N MP_r MP_p master raw pw'
             sample_env_1 e Hlen Hraw sample_env_1_runs H).
Qed.

Lemma example_line_gives_12_alphanumeric_characters_witness :
  let db :=
    parse_accounts 64 (bytes "example.com,alice,1,12,:alnum:" ++ [LF]) in
  exists a pw,
    al_accounts (p_list db) = [a]
    /\ field_text db (a_domain a) = Some (bytes "example.com")
    /\ field_text db (a_username a) = Some (bytes "alice")
    /\ field_text db (a_iteration a) = Some (bytes "1")
    /\ field_text db (a_characters a) = Some (bytes ":alnum:")
    /\ a_length a = 12
    /\ length pw = 12%nat
    /\ forallb isalnum pw = true
    /\ (forall e,
          (200 <= env_fuel e)%nat /\ env_charset_alloc e = true
          /\ env_salt_alloc e <> None ->
          record_password sample_kdf 16384 8 1 e (bytes "secret") db a
          = Some pw)
    /\ (forall e pw',
          record_password sample_kdf 16384 8 1 e (bytes "secret") db a
          = Some pw' ->
          pw' = pw).
Proof.
  apply (example_line_gives_12_alphanumeric_characters sample_kdf 16384 8 1
           64 (bytes "secret") (bytes "secretexampl")).
  - intros passwd salt n out. apply sample_kdf_length.
  - vm_compute. reflexivity.
Defined.

(** C1, as stated, fails: on the line of the specification, with the charset
    specification before the length, the parser reads [:alnum:] as the
    length, reports it and returns an empty list, with or without a newline
    at the end of the line; no record is there to derive a password from. *)
Lemma specification_line_is_refused :
  ~ (exists avg a,
       In a (al_accounts
               (p_list (parse_accounts avg
                          (bytes "example.com,alice,1,:alnum:,12" ++ [LF])))))
  /\ ~ (exists avg a,
          In a (al_accounts
                  (p_list (parse_accounts avg
                             (bytes "example.com,alice,1,:alnum:,12")))))
  /\ p_stderr (parse_from 1 (bytes "example.com,alice,1,:alnum:,12" ++ [LF]))
     = [InvalidLength 1].
Proof.
  split; [|split]. 
  - intros (avg & a & H). rewrite parse_accounts_accounts in H.
    vm_compute in H. exact H.
  - intros (avg & a & H). rewrite parse_accounts_accounts in H.
    vm_compute in H. exact H.
  - vm_compute. reflexivity.
Qed.

(* ================================================================== *)
(** * Part III: further properties of the code                         *)
(* ================================================================== *)

(** ** [push_char] *)

Lemma push_seq_null (end_ : nat) (xs chars : list ascii) :
  push_seq end_ xs (chars, None) = (chars, None).
Proof.
  induction xs as [|c xs IH]; [reflexivity|exact IH].
Qed.

Lemma push_seq_cons (end_ : nat) (c : ascii) (xs chars : list ascii)
    (begin : option nat) :
  push_seq end_ (c :: xs) (chars, begin)
  = push_seq end_ xs (push_char chars begin end_ c).
Proof.
  unfold push_seq. cbn [fold_left fst snd]. now destruct (push_char _ _ _ _).
Qed.

Lemma push_seq_array (end_ : nat) (xs chars : list ascii) (k : nat) :
  (end_ <= length chars)%nat -> (k <= end_)%nat ->
  fst (push_seq end_ xs (chars, Some k))
  = take k chars ++ take (end_ - k) xs
    ++ drop (Nat.min end_ (k + length xs)) chars.
Proof.
  revert chars k. induction xs as [|c xs IH]; intros chars k Hlen Hk.
  - cbn [push_seq fold_left fst length]. rewrite take_nil, Nat.add_0_r.
    rewrite Nat.min_r by lia. cbn [app]. now rewrite take_drop.
  - rewrite push_seq_cons. unfold push_char.
    destruct (Nat.ltb_spec k end_) as [Hlt|Hge].
    + rewrite IH by (rewrite ?length_insert; lia).
      rewrite (take_S_r _ k c) by (apply list_lookup_insert_eq; lia).
      rewrite take_insert_ge by lia.
      rewrite drop_insert_lt by (cbn [length]; lia).
      replace (end_ - k)%nat with (S (end_ - S k)) by lia.
      cbn [take length]. rewrite <- app_assoc. cbn [app].
      now rewrite Nat.add_succ_r.
    + rewrite push_seq_null. cbn [fst].
      replace (end_ - k)%nat with 0%nat by lia. rewrite take_0.
      rewrite Nat.min_l by lia. replace end_ with k by lia.
      cbn [app]. now rewrite take_drop.
Qed.

Lemma push_seq_pointer (end_ : nat) (xs chars : list ascii) (k : nat) :
  (k <= end_)%nat ->
  snd (push_seq end_ xs (chars, Some k))
  = if (k + length xs <=? end_)%nat then Some (k + length xs)%nat else None.
Proof.
  revert chars k. induction xs as [|c xs IH]; intros chars k Hk.
  - cbn [push_seq fold_left snd length]. rewrite Nat.add_0_r.
    now destruct (Nat.leb_spec k end_); [|lia].
  - rewrite push_seq_cons. unfold push_char. cbn [length].
    destruct (Nat.ltb_spec k end_) as [Hlt|Hge].
    + rewrite IH by lia. rewrite Nat.add_succ_r. reflexivity.
    + rewrite push_seq_null. cbn [snd].
      destruct (Nat.leb_spec (k + S (length xs)) end_); [lia|reflexivity].
Qed.

(** X1 (push_char): a run of pushes into an array whose end is at [end_],
    started at an offset [k] inside it, never changes the length of the
    array nor anything before [k] or from [end_] on; it returns the offset
    after the last byte when all the bytes fit before [end_], having written
    them in order, and [nullptr] otherwise, having filled the array up to
    [end_] with the bytes that fitted. *)
Theorem push_char_run_stays_in_bounds
    (end_ : nat) (xs chars : list ascii) (k : nat) :
  (end_ <= length chars)%nat -> (k <= end_)%nat ->
  let r := push_seq end_ xs (chars, Some k) in
  length (fst r) = length chars
  /\ take k (fst r) = take k chars
  /\ drop end_ (fst r) = drop end_ chars
  /\ ((k + length xs <= end_)%nat ->
      r = (take k chars ++ xs ++ drop (k + length xs) chars,
           Some (k + length xs)%nat))
  /\ ((end_ < k + length xs)%nat ->
      snd r = None
      /\ fst r = take k chars ++ take (end_ - k) xs ++ drop end_ chars).
Proof.
  intros Hlen Hk. cbv zeta.
  pose proof (push_seq_array end_ xs chars k Hlen Hk) as Ha.
  pose proof (push_seq_pointer end_ xs chars k Hk) as Hp.
  assert (Hlen' : length (fst (push_seq end_ xs (chars, Some k)))
                  = length chars).
  { rewrite Ha, !length_app, !length_take, length_drop. lia. }
  split; [exact Hlen'|].
  split.
  { rewrite Ha. rewrite take_app_le by (rewrite length_take; lia).
    rewrite take_take. f_equal. lia. }
  split.
  { rewrite Ha, app_assoc. rewrite drop_app_ge
      by (rewrite length_app, !length_take; lia).
    rewrite length_app, !length_take, drop_drop. f_equal. lia. }
  split.
  - intros Hfit. rewrite (surjective_pairing (push_seq _ _ _)), Ha, Hp.
    destruct (Nat.leb_spec (k + length xs) end_); [|lia].
    rewrite Nat.min_r by lia. rewrite (take_ge xs) by lia. reflexivity.
  - intros Hover. rewrite Hp, Ha.
    destruct (Nat.leb_spec (k + length xs) end_); [lia|].
    rewrite Nat.min_l by lia. split; reflexivity.
Qed.

Lemma push_char_run_stays_in_bounds_witness :
  let r := push_seq 4 (bytes "abc") (bytes "wxyz!", Some 2%nat) in
  length (fst r) = 5%nat
  /\ take 2 (fst r) = take 2 (bytes "wxyz!")
  /\ drop 4 (fst r) = drop 4 (bytes "wxyz!")
  /\ ((2 + 3 <= 4)%nat ->
      r = (take 2 (bytes "wxyz!") ++ bytes "abc"
           ++ drop (2 + 3) (bytes "wxyz!"), Some (2 + 3)%nat))
  /\ ((4 < 2 + 3)%nat ->
      snd r = None
      /\ fst r = take 2 (bytes "wxyz!") ++ take (4 - 2) (bytes "abc")
                 ++ drop 4 (bytes "wxyz!")).
Proof.
  apply (push_char_run_stays_in_bounds 4 (bytes "abc") (bytes "wxyz!") 2).
  - cbn. lia.
  - lia.
Defined.

(** ** [enumerate_charset]: what it returns *)

Lemma sc_push_length (s : scan_state) (c : ascii) :
  length (sc_chars (sc_push s c)) = length (sc_chars s).
Proof.
  unfold sc_push, push_char. destruct (sc_result s) as [b|]; [|reflexivity].
  destruct (b <? chars_end)%nat; cbn [sc_chars]; [|reflexivity].
  apply length_insert.
Qed.

Lemma sc_push_result_bound (s : scan_state) (c : ascii) (k : nat) :
  sc_result (sc_push s c) = Some k -> (k <= chars_end)%nat.
Proof.
  unfold sc_push, push_char. destruct (sc_result s) as [b|]; [|discriminate].
  destruct (Nat.ltb_spec b chars_end); cbn [sc_result]; [|discriminate].
  intros [= <-]. lia.
Qed.

Lemma related_refl (s : scan_state) :
  length (sc_chars s) = chars_end -> related s s.
Proof.
  intros H. repeat split; auto.
Qed.

Lemma scan_run_length (fuel : nat) (pt : point) (s t : scan_state) :
  length (sc_chars s) = chars_end -> scan_run fuel pt s = Some t ->
  length (sc_chars t) = chars_end.
Proof.
  intros Hlen Hrun.
  destruct (scan_run_related fuel pt s s t (related_refl s Hlen) Hrun)
    as (t' & Hrun' & HR).
  apply HR.
Qed.

Lemma strlen_le_terminator (p : list ascii) (j : nat) :
  p !! j = Some NUL -> (strlen p <= j)%nat.
Proof.
  unfold strlen. revert j. induction p as [|c r IH]; intros j Hj.
  - discriminate.
  - cbn [cstr]. destruct (Ascii.eqb_spec c NUL) as [->|Hne]; [cbn; lia|].
    destruct j as [|j]; cbn in Hj; [congruence|].
    cbn [length]. specialize (IH j Hj). lia.
Qed.

(** The alphabet returned is a C string that fits the array. *)
Lemma enumerated_is_bounded_string
    (fuel : nat) (stack : nat -> ascii) (malloc_ok : bool)
    (spec : option (list ascii)) (res : list ascii) (rlen : nat) :
  enumerate_charset fuel stack malloc_ok spec = Some (Enumerated res rlen) ->
  rlen = length res /\ (rlen <= 94)%nat /\ Forall (fun c => c <> NUL) res.
Proof.
  unfold enumerate_charset. destruct spec as [spec|]; [|discriminate].
  destruct (scan_run fuel AtWhile _) as [t|] eqn:Hrun; [|discriminate].
  apply scan_run_length in Hrun; [|apply length_fresh].
  unfold scan_finish.
  set (a := if Ascii.eqb (sc_l t) NUL then t else sc_push t (sc_l t)).
  set (b := if sc_op a then sc_push a "-" else a).
  assert (Ha : length (sc_chars a) = chars_end).
  { subst a. destruct (Ascii.eqb (sc_l t) NUL); [exact Hrun|].
    now rewrite sc_push_length. }
  assert (Hb : length (sc_chars b) = chars_end).
  { subst b. destruct (sc_op a); [|exact Ha]. now rewrite sc_push_length. }
  destruct (sc_result (sc_push b NUL)) as [k|] eqn:Hk; [|discriminate].
  destruct malloc_ok; [|discriminate].
  intros [= <- <-].
  destruct (push_writes_terminator b k Hb Hk) as (j & Hj & Hlt).
  pose proof (sc_push_result_bound b NUL k Hk) as Hbound.
  pose proof (strlen_le_terminator _ j Hj) as Hs.
  rewrite take_strlen. unfold chars_end in Hbound.
  split; [reflexivity|]. split; [lia|]. apply cstr_nul_free.
Qed.

(** X2 (enumerate_charset): whatever the specification, when the function
    returns an alphabet, the length it reports is the length of the
    alphabet, at most 94, and the alphabet holds no NUL: it is a C string
    that fits the 95-byte array with its terminator. *)
Theorem enumerate_charset_returns_bounded_string
    (fuel : nat) (stack : nat -> ascii) (malloc_ok : bool)
    (spec : option (list ascii)) (res : list ascii) (rlen : nat) :
  enumerate_charset fuel stack malloc_ok spec = Some (Enumerated res rlen) ->
  rlen = length res /\ (rlen <= 94)%nat /\ Forall (fun c => c <> NUL) res.
Proof.
  apply enumerated_is_bounded_string.
Qed.

Lemma enumerate_charset_returns_bounded_string_witness :
  10%nat = length (bytes "0123456789") /\ (10 <= 94)%nat
  /\ Forall (fun c => c <> NUL) (bytes "0123456789").
Proof.
  apply (enumerate_charset_returns_bounded_string 100 (fun _ => "x"%char)
           true (Some (bytes ":digit:")) (bytes "0123456789") 10).
  vm_compute. reflexivity.
Defined.

(** X3 (enumerate_charset): the result depends neither on what the
    uninitialised array [chars] held on entry nor on the number of turns
    allowed, once they suffice: a result obtained in one run is the result
    of every run with at least as much fuel, on any contents of the
    array. *)
Theorem enumerate_charset_ignores_uninitialised_array
    (fuel fuel' : nat) (stack stack' : nat -> ascii) (malloc_ok : bool)
    (spec : option (list ascii)) (r : charset_result) :
  enumerate_charset fuel stack malloc_ok spec = Some r ->
  (fuel <= fuel')%nat ->
  enumerate_charset fuel' stack' malloc_ok spec = Some r.
Proof.
  intros H Hle.
  exact (enumerate_charset_transfer fuel fuel' stack stack' malloc_ok spec r
           H Hle).
Qed.

Lemma enumerate_charset_ignores_uninitialised_array_witness :
  enumerate_charset 300 (fun n => ascii_of_nat n) true
    (Some (bytes "a-f0-9_"))
  = Some (Enumerated (bytes "abcdef0123456789_") 17).
Proof.
  apply (enumerate_charset_ignores_uninitialised_array 100 300
           (fun _ => "x"%char) (fun n => ascii_of_nat n) true
           (Some (bytes "a-f0-9_"))).
  - vm_compute. reflexivity.
  - lia.
Defined.

(** ** [enumerate_charset]: class names and literal specifications *)

Lemma resolve_class_idempotent (spec : list ascii) :
  resolve_class (resolve_class spec) = resolve_class spec.
Proof.
  unfold resolve_class at 2 3.
  destruct (streq spec "" || streq spec ":graph:" || streq spec "*") eqn:E0;
    [reflexivity|].
  destruct (streq spec ":alnum:") eqn:E1; [reflexivity|].
  destruct (streq spec ":alpha:") eqn:E2; [reflexivity|].
  destruct (streq spec ":digit:") eqn:E3; [reflexivity|].
  destruct (streq spec ":lower:") eqn:E4; [reflexivity|].
  destruct (streq spec ":punct:") eqn:E5; [reflexivity|].
  destruct (streq spec ":upper:") eqn:E6; [reflexivity|].
  destruct (streq spec ":word:") eqn:E7; [reflexivity|].
  destruct (streq spec ":xdigit:") eqn:E8; [reflexivity|].
  apply orb_false_elim in E0 as [E0 E9].
  rewrite E9.
  unfold resolve_class.
  now rewrite E0, E9, E1, E2, E3, E4, E5, E6, E7, E8.
Qed.

(** X4 (enumerate_charset): a specification and the range expression that
    its class name resolves to compile to the same result in every run; so
    [:digit:] compiles as [0-9] does, and likewise for the other classes. *)
Theorem class_name_compiles_as_its_range_expression
    (fuel : nat) (stack : nat -> ascii) (malloc_ok : bool)
    (spec : list ascii) :
  enumerate_charset fuel stack malloc_ok (Some spec)
  = enumerate_charset fuel stack malloc_ok (Some (resolve_class spec))
  /\ enumerate_charset fuel stack malloc_ok (Some (bytes ":digit:"))
     = enumerate_charset fuel stack malloc_ok (Some (bytes "0-9")).
Proof.
  assert (H : forall sp,
             enumerate_charset fuel stack malloc_ok (Some sp)
             = enumerate_charset fuel stack malloc_ok
                 (Some (resolve_class sp))).
  { intros sp. unfold enumerate_charset.
    now rewrite resolve_class_idempotent. }
  split; [apply H|]. rewrite (H (bytes ":digit:")). reflexivity.
Qed.

Lemma literal_char_facts (c : ascii) :
  literal_char c = true ->
  plain_char c = true /\ Ascii.eqb c "-" = false
  /\ Ascii.eqb c ":" = false /\ Ascii.eqb c "*" = false.
Proof.
  unfold literal_char. intros H.
  apply andb_prop in H as [H H3]. apply andb_prop in H as [H H2].
  apply andb_prop in H as [H0 H1].
  apply negb_true_iff in H1, H2, H3. auto.
Qed.

(** Without a range operator every character is emitted as it is read. *)
Lemma expand_literal (pending : option ascii) (xs : list ascii) :
  forallb literal_char xs = true ->
  expand pending false xs
  = match pending with Some l => l :: xs | None => xs end.
Proof.
  revert pending. induction xs as [|c xs IH]; intros pending Hl.
  - destruct pending; reflexivity.
  - cbn [forallb] in Hl. apply andb_prop in Hl as [Hc Hxs].
    destruct (literal_char_facts c Hc) as (_ & Hd & _).
    cbn [expand]. rewrite Hd.
    destruct pending as [l|]; now rewrite IH.
Qed.

(** A specification of literal characters is no class name. *)
Lemma class_expression_literal (spec : list ascii) :
  spec <> [] -> forallb literal_char spec = true ->
  class_expression spec = spec.
Proof.
  intros Hne Hl.
  assert (H : forall lit,
             lit = [] \/ existsb (fun c => negb (literal_char c)) lit = true ->
             bytes_eqb spec lit = false).
  { intros lit Hlit. destruct (bytes_eqb spec lit) eqn:E; [|reflexivity].
    apply bytes_eqb_eq in E. subst lit.
    destruct Hlit as [->|Hex]; [contradiction|].
    apply existsb_exists in Hex as (c & Hin & Hc).
    rewrite forallb_forall in Hl. rewrite (Hl c Hin) in Hc. discriminate. }
  unfold class_expression.
  rewrite !H by (first [left; reflexivity|right; reflexivity]).
  reflexivity.
Qed.

(** X5 (enumerate_charset): a specification of at most 94 plain characters,
    none of them [-], [:] or [*], and not empty, is its own alphabet: the
    function returns the characters in the order given, a character written
    twice appearing twice. *)
Theorem literal_specification_is_its_own_alphabet
    (spec : list ascii) (stack : nat -> ascii) :
  spec <> [] ->
  forallb literal_char spec = true ->
  (length spec <= 94)%nat ->
  exists n, forall fuel, (n <= fuel)%nat ->
    enumerate_charset fuel stack true (Some spec)
    = Some (Enumerated spec (length spec)).
Proof.
  intros Hne Hl Hlen.
  assert (Hp : forallb plain_char spec = true).
  { apply forallb_forall. intros c Hc. rewrite forallb_forall in Hl.
    now destruct (literal_char_facts c (Hl c Hc)). }
  destruct (enumerate_charset_plain spec stack true Hp) as [n Hn].
  exists n. intros fuel Hle. rewrite (Hn fuel Hle).
  unfold expansion. rewrite (class_expression_literal spec Hne Hl).
  rewrite (expand_literal None spec Hl).
  destruct (Nat.leb_spec (length spec) 94); [reflexivity|lia].
Qed.

Lemma literal_specification_is_its_own_alphabet_witness :
  exists n, forall fuel, (n <= fuel)%nat ->
    enumerate_charset fuel (fun _ => "x"%char) true (Some (bytes "abcabc!"))
    = Some (Enumerated (bytes "abcabc!") (length (bytes "abcabc!"))).
Proof.
  apply (literal_specification_is_its_own_alphabet (bytes "abcabc!")
           (fun _ => "x"%char)).
  - discriminate.
  - vm_compute. reflexivity.
  - cbn. lia.
Defined.

(** ** [enumerate_charset]: a range up to the largest [char] *)

Lemma schar_le_DEL (c : ascii) : schar c <= schar DEL.
Proof.
  change (schar DEL) with 127. unfold schar.
  pose proof (uchar_range c). destruct (Z.ltb_spec (uchar c) 128); lia.
Qed.

(** The range loop with [DEL] as right endpoint is never left. *)
Lemma scan_run_range_to_DEL (fuel : nat) (s : scan_state) :
  scan_run fuel (AtFor DEL) s = None.
Proof.
  revert s. induction fuel as [|fuel IH]; intros s; [reflexivity|].
  cbn [scan_run scan_step].
  destruct (Z.leb_spec (schar (sc_l s)) (schar DEL)) as [_|H];
    [apply IH|].
  pose proof (schar_le_DEL (sc_l s)). lia.
Qed.

Lemma resolve_class_DEL (spec : list ascii) :
  existsb (Ascii.eqb DEL) (cstr spec) = true -> resolve_class spec = spec.
Proof.
  intros Hs.
  assert (H : forall lit, existsb (Ascii.eqb DEL) (bytes lit) = false ->
                          streq spec lit = false).
  { intros lit Hl. destruct (streq spec lit) eqn:E; [|reflexivity].
    apply bytes_eqb_eq in E. rewrite E in Hs. congruence. }
  unfold resolve_class. rewrite !H by reflexivity. reflexivity.
Qed.

(** The three turns that lead from the start of the scan into the range
    loop. *)
Lemma scan_step_left_endpoint (l : ascii) (rest chars : list ascii)
    (result : option nat) (op : bool) :
  l <> NUL -> l <> "-"%char -> isspace l = false ->
  scan_step AtWhile
    {| sc_spec := l :: rest; sc_chars := chars; sc_result := result;
       sc_l := NUL; sc_op := op |}
  = Some (AtWhile,
          {| sc_spec := rest; sc_chars := chars; sc_result := result;
             sc_l := l; sc_op := op |}).
Proof.
  intros Hnul Hdash Hsp. apply Ascii.eqb_neq in Hnul, Hdash.
  unfold scan_step. cbn [deref sc_spec sc_l]. rewrite Hnul, Hsp, Hdash.
  reflexivity.
Qed.

Lemma scan_step_operator (l : ascii) (rest chars : list ascii)
    (result : option nat) (op : bool) :
  l <> NUL ->
  scan_step AtWhile
    {| sc_spec := "-"%char :: rest; sc_chars := chars; sc_result := result;
       sc_l := l; sc_op := op |}
  = Some (AtWhile,
          {| sc_spec := rest; sc_chars := chars; sc_result := result;
             sc_l := l; sc_op := true |}).
Proof.
  intros Hnul. apply Ascii.eqb_neq in Hnul.
  unfold scan_step. cbn [deref sc_spec sc_l]. rewrite Hnul. reflexivity.
Qed.

Lemma scan_step_right_endpoint_DEL (l : ascii) (rest chars : list ascii)
    (result : option nat) :
  l <> NUL ->
  scan_step AtWhile
    {| sc_spec := DEL :: rest; sc_chars := chars; sc_result := result;
       sc_l := l; sc_op := true |}
  = Some (AtFor DEL,
          {| sc_spec := DEL :: rest; sc_chars := chars; sc_result := result;
             sc_l := l; sc_op := true |}).
Proof.
  intros Hnul. apply Ascii.eqb_neq in Hnul.
  unfold scan_step. cbn [deref sc_spec sc_l sc_op]. rewrite Hnul.
  reflexivity.
Qed.

(** X6 (enumerate_charset): with [char] signed, a specification that begins
    with a range whose right endpoint is DEL (0x7F, the largest [char])
    makes the function loop for ever: [l <= c] holds for every [l], and
    [l++] wraps around from 127 to -128. *)
Theorem range_up_to_DEL_never_returns
    (l : ascii) (rest : list ascii) (fuel : nat) (stack : nat -> ascii)
    (malloc_ok : bool) :
  l <> NUL -> l <> "-"%char -> isspace l = false ->
  enumerate_charset fuel stack malloc_ok
    (Some (l :: "-"%char :: DEL :: rest))
  = None.
Proof.
  intros Hnul Hdash Hsp. unfold enumerate_charset.
  rewrite resolve_class_DEL.
  2:{ cbn [cstr]. apply Ascii.eqb_neq in Hnul. rewrite Hnul.
      change (Ascii.eqb "-" NUL) with false.
      change (Ascii.eqb DEL NUL) with false. cbv iota. cbn [existsb].
      change (Ascii.eqb DEL DEL) with true.
      now rewrite orb_true_l, !orb_true_r. }
  destruct fuel as [|fuel]; [reflexivity|]. cbn [scan_run].
  rewrite (scan_step_left_endpoint l _ _ _ _ Hnul Hdash Hsp).
  destruct fuel as [|fuel]; [reflexivity|]. cbn [scan_run].
  rewrite (scan_step_operator l _ _ _ _ Hnul).
  destruct fuel as [|fuel]; [reflexivity|]. cbn [scan_run].
  rewrite (scan_step_right_endpoint_DEL l _ _ _ Hnul).
  now rewrite scan_run_range_to_DEL.
Qed.

Lemma range_up_to_DEL_never_returns_witness :
  enumerate_charset 1000 (fun _ => "x"%char) true
    (Some ("a"%char :: "-"%char :: DEL :: bytes "0-9"))
  = None.
Proof.
  apply (range_up_to_DEL_never_returns "a"%char (bytes "0-9") 1000
           (fun _ => "x"%char) true).
  - discriminate.
  - discriminate.
  - reflexivity.
Defined.

(** ** [to_chars] on an alphabet from [enumerate_charset] *)

Lemma mapped_nul_free (raw alphabet : list ascii) :
  alphabet <> [] -> Forall (fun c => c <> NUL) alphabet ->
  Forall (fun c => c <> NUL) (mapped raw alphabet).
Proof.
  intros Hne Hnul. pose proof (mapped_in raw alphabet Hne) as Hin.
  rewrite Forall_forall in Hin, Hnul. apply Forall_forall.
  intros c Hc. apply Hnul, list_elem_of_In, Hin, Hc.
Qed.

(** X7 (enumerate_charset, to_chars): an alphabet that [enumerate_charset]
    returns, if it is not empty, serves [to_chars] for any raw bytes:
    [to_chars] succeeds, and the buffer then holds a C string of exactly as
    many characters as there were raw bytes, each of them taken from the
    alphabet, the bytes after its terminator being left as they were. *)
Theorem to_chars_on_enumerated_alphabet
    (fuel : nat) (stack : nat -> ascii) (malloc_ok : bool)
    (spec : option (list ascii)) (res raw more : list ascii) (rlen : nat)
    (t : ascii) :
  enumerate_charset fuel stack malloc_ok spec = Some (Enumerated res rlen) ->
  rlen <> 0%nat ->
  exists text,
    to_chars (raw ++ t :: more) (length raw) res (Z.of_nat rlen)
    = Some (text ++ NUL :: more)
    /\ cstr (text ++ NUL :: more) = text
    /\ strlen (text ++ NUL :: more) = length raw
    /\ Forall (fun ch => In ch res) text.
Proof.
  intros He Hne.
  destruct (enumerated_is_bounded_string
              fuel stack malloc_ok spec res rlen He) as (-> & Hle & Hnul).
  assert (Hres : res <> []) by (intros ->; now apply Hne).
  exists (mapped raw res).
  split; [apply to_chars_mapped; [exact Hres|lia]|].
  pose proof (mapped_nul_free raw res Hres Hnul) as Hm.
  split; [now apply cstr_app_nul|].
  split; [|now apply mapped_in].
  rewrite strlen_app_nul by exact Hm. unfold mapped. apply length_map.
Qed.

Lemma to_chars_on_enumerated_alphabet_witness :
  exists text,
    to_chars (bytes "hello" ++ "x"%char :: bytes "yz")
      (length (bytes "hello")) (bytes "0123456789") (Z.of_nat 10)
    = Some (text ++ NUL :: bytes "yz")
    /\ cstr (text ++ NUL :: bytes "yz") = text
    /\ strlen (text ++ NUL :: bytes "yz") = length (bytes "hello")
    /\ Forall (fun ch => In ch (bytes "0123456789")) text.
Proof.
  apply (to_chars_on_enumerated_alphabet 100 (fun _ => "x"%char) true
           (Some (bytes ":digit:")) (bytes "0123456789") (bytes "hello")
           (bytes "yz") 10 "x"%char).
  - vm_compute. reflexivity.
  - discriminate.
Defined.

(** ** [derive_password] *)

Lemma derive_password_outcome
    (crypto_scrypt :
       list ascii -> list ascii -> Z -> Z -> Z -> nat -> option (list ascii))
    (MP_N MP_r MP_p : Z) (heap : option (nat -> ascii))
    (master d u i buf : list ascii) (buf_len : nat) :
  derive_password crypto_scrypt MP_N MP_r MP_p heap master d u i buf_len buf
  = match heap with
    | None => None
    | Some _ =>
        match crypto_scrypt master (cstr d ++ cstr u ++ cstr i)
                MP_N MP_r MP_p buf_len with
        | Some out => Some (out ++ drop buf_len buf)
        | None => None
        end
    end.
Proof.
  unfold derive_password. destruct heap as [block|]; [|reflexivity].
  now rewrite salt_bytes.
Qed.

(** X8 (derive_password): the function fails exactly when the allocation of
    the salt or the key derivation fails; otherwise it leaves in the buffer
    the bytes derived from the master password and the concatenation of
    domain, username and iteration, followed by the bytes of the buffer
    from [buf_len] on, untouched.  What the allocated block held does not
    matter, and two accounts whose three fields concatenate to the same
    bytes get the same derived bytes. *)
Theorem derive_password_depends_on_concatenation_only
    (crypto_scrypt :
       list ascii -> list ascii -> Z -> Z -> Z -> nat -> option (list ascii))
    (MP_N MP_r MP_p : Z) (block block' : nat -> ascii)
    (master d u i d' u' i' buf : list ascii) (buf_len : nat) :
  cstr d ++ cstr u ++ cstr i = cstr d' ++ cstr u' ++ cstr i' ->
  derive_password crypto_scrypt MP_N MP_r MP_p (Some block) master d u i
    buf_len buf
  = derive_password crypto_scrypt MP_N MP_r MP_p (Some block') master d' u'
      i' buf_len buf
  /\ derive_password crypto_scrypt MP_N MP_r MP_p None master d u i
       buf_len buf = None
  /\ (forall buf',
        derive_password crypto_scrypt MP_N MP_r MP_p (Some block) master
          d u i buf_len buf = Some buf' <->
        exists out,
          crypto_scrypt master (cstr d ++ cstr u ++ cstr i) MP_N MP_r MP_p
            buf_len = Some out
          /\ buf' = out ++ drop buf_len buf).
Proof.
  intros Hcat. rewrite !derive_password_outcome, Hcat.
  split; [reflexivity|]. split; [reflexivity|].
  intros buf'. destruct (crypto_scrypt _ _ _ _ _ _) as [out|].
  - split.
    + intros [= <-]. eauto.
    + intros (out' & [= <-] & ->). reflexivity.
  - split; [discriminate|]. intros (out' & H & _). discriminate.
Qed.

Lemma derive_password_depends_on_concatenation_only_witness :
  derive_password sample_kdf 16384 8 1 (Some (fun _ => "x"%char))
    (bytes "secret") (bytes "a") (bytes "aa") (bytes "1") 8 (bytes "........!")
  = derive_password sample_kdf 16384 8 1 (Some (fun _ => NUL))
      (bytes "secret") (bytes "aa") (bytes "a") (bytes "1") 8
      (bytes "........!")
  /\ derive_password sample_kdf 16384 8 1 None (bytes "secret") (bytes "a")
       (bytes "aa") (bytes "1") 8 (bytes "........!") = None
  /\ (forall buf',
        derive_password sample_kdf 16384 8 1 (Some (fun _ => "x"%char))
          (bytes "secret") (bytes "a") (bytes "aa") (bytes "1") 8
          (bytes "........!") = Some buf' <->
        exists out,
          sample_kdf (bytes "secret")
            (cstr (bytes "a") ++ cstr (bytes "aa") ++ cstr (bytes "1"))
            16384 8 1 8 = Some out
          /\ buf' = out ++ drop 8 (bytes "........!")).
Proof.
  apply (derive_password_depends_on_concatenation_only sample_kdf 16384 8 1
           (fun _ => "x"%char) (fun _ => NUL) (bytes "secret")
           (bytes "a") (bytes "aa") (bytes "1")
           (bytes "aa") (bytes "a") (bytes "1") (bytes "........!") 8).
  reflexivity.
Defined.

(** ** The account list *)

Lemma push_account_well_sized (l : account_list) (a : account) :
  well_sized l -> (0 < al_capacity l)%nat ->
  well_sized (push_account l a)
  /\ (0 < al_capacity (push_account l a))%nat
  /\ al_accounts (push_account l a) = al_accounts l ++ [a].
Proof.
  intros [Hsize Hcap] Hpos. unfold well_sized, push_account.
  cbn [al_accounts al_size al_capacity].
  rewrite Hsize, take_ge by lia. rewrite length_app. cbn [length].
  destruct (Nat.eqb_spec (length (al_accounts l)) (al_capacity l));
    repeat split; lia.
Qed.

(** X9 (push_account): on a list whose size is the number of its elements
    and does not exceed a capacity of at least one, [push_account] appends
    the account after the elements in use, adds one to the size, and keeps
    the size within the capacity, which it doubles exactly when the list
    was full and leaves alone otherwise. *)
Theorem push_account_appends_within_capacity
    (l : account_list) (a : account) :
  well_sized l -> (0 < al_capacity l)%nat ->
  let l' := push_account l a in
  well_sized l'
  /\ al_accounts l' = al_accounts l ++ [a]
  /\ al_size l' = S (al_size l)
  /\ al_capacity l'
     = (if (al_size l =? al_capacity l)%nat then 2 * al_capacity l
        else al_capacity l)%nat.
Proof.
  intros Hw Hpos. cbv zeta.
  destruct (push_account_well_sized l a Hw Hpos) as (Hw' & _ & Hacc).
  split; [exact Hw'|]. split; [exact Hacc|]. split; [reflexivity|].
  unfold push_account. cbn [al_capacity].
  destruct (al_size l =? al_capacity l)%nat; lia.
Qed.

Lemma push_account_appends_within_capacity_witness :
  let l := {| al_accounts := [no_account]; al_size := 1; al_capacity := 1 |} in
  let l' := push_account l example_account in
  well_sized l'
  /\ al_accounts l' = al_accounts l ++ [example_account]
  /\ al_size l' = S (al_size l)
  /\ al_capacity l'
     = (if (al_size l =? al_capacity l)%nat then 2 * al_capacity l
        else al_capacity l)%nat.
Proof.
  apply (push_account_appends_within_capacity
           {| al_accounts := [no_account]; al_size := 1; al_capacity := 1 |}
           example_account).
  - split; cbn; lia.
  - cbn. lia.
Defined.

(** The list of the parser stays well sized, with room for growth. *)
Lemma parse_byte_well_sized (c : ascii) (s s' : parse_state) :
  well_sized (ps_list s) -> (0 < al_capacity (ps_list s))%nat ->
  parse_byte c s = Next s' ->
  well_sized (ps_list s') /\ (0 < al_capacity (ps_list s'))%nat.
Proof.
  intros Hw Hpos. unfold parse_byte.
  repeat case_match; try discriminate; intros [= <-]; cbn [ps_list];
    try (split; assumption).
  destruct (push_account_well_sized (ps_list s)
              {| a_domain := a_domain (ps_account s);
                 a_username := a_username (ps_account s);
                 a_iteration := a_iteration (ps_account s);
                 a_characters := Some (ps_cur s);
                 a_length := a_length (ps_account s) |} Hw Hpos)
    as (? & ? & _).
  split; assumption.
Qed.

Lemma parse_loop_well_sized (xs : list ascii) (s s' : parse_state) :
  well_sized (ps_list s) -> (0 < al_capacity (ps_list s))%nat ->
  parse_loop xs s = Next s' ->
  well_sized (ps_list s') /\ (0 < al_capacity (ps_list s'))%nat.
Proof.
  revert s. induction xs as [|c xs IH]; intros s Hw Hpos; cbn [parse_loop].
  - intros [= <-]. split; assumption.
  - destruct (parse_byte c s) as [r|t] eqn:E; [discriminate|].
    destruct (parse_byte_well_sized c s t Hw Hpos E). now apply IH.
Qed.

Lemma parse_byte_freed (c : ascii) (s r : parse_state) :
  parse_byte c s = Return r ->
  ps_list r = {| al_accounts := []; al_size := 0; al_capacity := 0 |}.
Proof.
  unfold parse_byte. repeat case_match; try discriminate.
  now intros [= <-].
Qed.

Lemma parse_loop_freed (xs : list ascii) (s r : parse_state) :
  parse_loop xs s = Return r ->
  ps_list r = {| al_accounts := []; al_size := 0; al_capacity := 0 |}.
Proof.
  revert s. induction xs as [|c xs IH]; intros s; cbn [parse_loop].
  - discriminate.
  - destruct (parse_byte c s) as [r'|t] eqn:E.
    + intros [= <-]. eapply parse_byte_freed, E.
    + apply IH.
Qed.

(** X10 (parse_accounts, new_account_list, push_account,
    free_account_list): when the average entry size is positive, the list
    that [parse_accounts] returns is well sized, for every buffer: its size
    is the number of its records and does not exceed its capacity; it
    starts with a capacity of at least one, and after a refused length it is
    the freed list, with size and capacity 0. *)
Theorem parse_accounts_returns_well_sized_list
    (avg : Z) (buffer : list ascii) :
  0 < avg ->
  let l := p_list (parse_accounts avg buffer) in
  well_sized l
  /\ ((0 < al_capacity l)%nat
      \/ l = {| al_accounts := []; al_size := 0; al_capacity := 0 |}).
Proof.
  intros Havg. cbv zeta. unfold parse_accounts, parse_from.
  set (k := if Z.of_nat (length buffer) <? avg then 1%nat
            else Z.to_nat (Z.quot (Z.of_nat (length buffer)) avg)).
  assert (Hk : (0 < k)%nat).
  { subst k. destruct (Z.ltb_spec (Z.of_nat (length buffer)) avg); [lia|].
    assert (1 <= Z.quot (Z.of_nat (length buffer)) avg); [|lia].
    rewrite Z.quot_div_nonneg by lia.
    apply Z.div_le_lower_bound; lia. }
  match goal with
  | |- context [parse_loop buffer ?s] => set (s0 := s)
  end.
  assert (Hw0 : well_sized (ps_list s0)) by (split; cbn; lia).
  destruct (parse_loop buffer s0) as [r|s] eqn:E; cbn [p_list].
  - rewrite (parse_loop_freed _ _ _ E).
    split; [split; cbn; lia|right; reflexivity].
  - destruct (parse_loop_well_sized _ _ _ Hw0 Hk E) as [Hw Hpos].
    destruct (ps_cur s <? length buffer)%nat.
    + destruct (push_account_well_sized (ps_list s)
                  {| a_domain := a_domain (ps_account s);
                     a_username := a_username (ps_account s);
                     a_iteration := a_iteration (ps_account s);
                     a_characters := Some (ps_cur s);
                     a_length := a_length (ps_account s) |} Hw Hpos)
        as (? & ? & _).
      split; [assumption|left; assumption].
    + split; [assumption|left; assumption].
Qed.

Lemma parse_accounts_returns_well_sized_list_witness :
  let l :=
    p_list (parse_accounts 2
              (bytes "a,b,1,8,x" ++ [LF] ++ bytes "c,d,1,9,y" ++ [LF]
               ++ bytes "e,f,1,7,z" ++ [LF] ++ bytes "g,h,1,6,")) in
  well_sized l
  /\ ((0 < al_capacity l)%nat
      \/ l = {| al_accounts := []; al_size := 0; al_capacity := 0 |}).
Proof.
  apply (parse_accounts_returns_well_sized_list 2
           (bytes "a,b,1,8,x" ++ [LF] ++ bytes "c,d,1,9,y" ++ [LF]
            ++ bytes "e,f,1,7,z" ++ [LF] ++ bytes "g,h,1,6,")).
  lia.
Defined.

(** ** The parser and its buffer *)

Lemma parse_byte_rewrites (c : ascii) (s : parse_state) :
  exists b, rewritten c b
            /\ ps_buf (flow_state (parse_byte c s)) = ps_buf s ++ [b].
Proof.
  unfold parse_byte, rewritten.
  destruct (Ascii.eqb_spec c "010") as [->|Hlf].
  - exists NUL. split; [right; split; [reflexivity|right; reflexivity]|].
    repeat case_match; reflexivity.
  - destruct (Ascii.eqb_spec c ",") as [->|Hcomma].
    + repeat case_match; cbn [flow_state ps_buf];
        (exists NUL; split; [right; split; [reflexivity|left; reflexivity]|
                             reflexivity])
        || (exists ","%char; split; [left; reflexivity|reflexivity]).
    + exists c. split; [left; reflexivity|reflexivity].
Qed.

Lemma parse_loop_rewrites (xs : list ascii) (s : parse_state) :
  exists ys,
    ps_buf (flow_state (parse_loop xs s)) = ps_buf s ++ ys
    /\ Forall2 rewritten (take (length ys) xs) ys
    /\ (forall s', parse_loop xs s = Next s' -> length ys = length xs).
Proof.
  revert s. induction xs as [|c xs IH]; intros s; cbn [parse_loop].
  - exists []. rewrite app_nil_r. repeat split; auto.
  - destruct (parse_byte_rewrites c s) as (b & Hb & Hbuf).
    destruct (parse_byte c s) as [r|t] eqn:E; cbn [flow_state] in *.
    + exists [b]. split; [exact Hbuf|]. split; [|discriminate].
      cbn [length take]. constructor; [exact Hb|constructor].
    + destruct (IH t) as (ys & Hys & Hall & Hlen).
      exists (b :: ys). rewrite Hys, Hbuf, <- app_assoc.
      split; [reflexivity|]. split.
      * cbn [length take]. constructor; assumption.
      * intros s' Hs'. cbn [length]. f_equal. exact (Hlen s' Hs').
Qed.

Lemma Forall2_rewritten_refl (xs : list ascii) : Forall2 rewritten xs xs.
Proof.
  induction xs; constructor; [now left|assumption].
Qed.

(** X11 (parse_accounts): the parser rewrites its buffer in place and only
    at delimiters: the buffer keeps its length, and each byte after the
    parse is the byte before it, or a NUL where a comma or a newline
    stood. *)
Theorem parse_accounts_writes_NUL_over_delimiters_only
    (avg : Z) (buffer : list ascii) :
  Forall2 rewritten buffer (p_buffer (parse_accounts avg buffer))
  /\ length (p_buffer (parse_accounts avg buffer)) = length buffer.
Proof.
  assert (H : Forall2 rewritten buffer
                (p_buffer (parse_accounts avg buffer))).
  { rewrite parse_accounts_buffer. unfold parse_from.
    match goal with
    | |- context [parse_loop buffer ?s] => set (s0 := s)
    end.
    destruct (parse_loop_rewrites buffer s0) as (ys & Hys & Hall & Hlen).
    destruct (parse_loop buffer s0) as [r|s] eqn:E;
      cbn [flow_state p_buffer] in *; rewrite Hys; cbn [ps_buf s0 app].
    - rewrite <- (take_drop (length ys) buffer) at 1.
      apply Forall2_app; [exact Hall|apply Forall2_rewritten_refl].
    - rewrite (Hlen s eq_refl), take_ge in Hall by lia. exact Hall. }
  split; [exact H|]. symmetry. eapply Forall2_length, H.
Qed.

(** ** The parser and its pointers *)

Lemma fields_inside_mono (n m : nat) (a : account) :
  (n <= m)%nat -> fields_inside n a -> fields_inside m a.
Proof.
  unfold fields_inside, inside. intros Hle (Hd & Hu & Hi & Hc).
  destruct (a_domain a), (a_username a), (a_iteration a), (a_characters a);
    repeat split; auto; lia.
Qed.

Lemma parse_byte_pointers (c : ascii) (s : parse_state) :
  pointers_inside s -> pointers_inside (flow_state (parse_byte c s)).
Proof.
  intros (Hcur & Ha & Hl).
  assert (Hl' : Forall (fields_inside (S (length (ps_buf s))))
                  (al_accounts (ps_list s))).
  { eapply Forall_impl; [exact Hl|]. intros a. apply fields_inside_mono. lia. }
  assert (Ha' : fields_inside (S (length (ps_buf s))) (ps_account s))
    by (eapply fields_inside_mono; [|exact Ha]; lia).
  destruct Ha' as (Hd & Hu & Hi & Hc).
  unfold parse_byte, pointers_inside.
  repeat case_match;
    cbn [flow_state ps_cur ps_buf ps_account ps_list al_accounts
         free_account_list push_account no_account];
    rewrite length_app; cbn [length]; rewrite Nat.add_1_r;
    (split; [lia|]);
    (split; [unfold fields_inside; cbn [a_domain a_username a_iteration
               a_characters inside];
             repeat split;
             try first [exact Hd|exact Hu|exact Hi|exact Hc|exact I|lia]|]);
    try exact Hl'; try constructor;
    try match goal with
        | H : ?f (ps_account s) = _ |- inside _ (?f (ps_account s)) =>
            rewrite H; assumption
        end.
  apply Forall_app. split; [now apply Forall_take|].
  constructor; [|constructor].
  unfold fields_inside, inside in *. cbn. repeat split; auto; lia.
Qed.

Lemma parse_loop_pointers (xs : list ascii) (s : parse_state) :
  pointers_inside s -> pointers_inside (flow_state (parse_loop xs s)).
Proof.
  revert s. induction xs as [|c xs IH]; intros s Hs; cbn [parse_loop].
  - exact Hs.
  - pose proof (parse_byte_pointers c s Hs) as Hb.
    destruct (parse_byte c s) as [r|t]; [exact Hb|]. now apply IH.
Qed.

(** X12 (parse_accounts): every pointer stored in a record of the returned
    list that is not null points inside the buffer: domain, username,
    iteration and characters are offsets below the length of the buffer,
    also in the record appended at the end of the buffer. *)
Theorem parse_accounts_pointers_stay_inside_buffer
    (avg : Z) (buffer : list ascii) :
  Forall (fields_inside (length buffer))
    (al_accounts (p_list (parse_accounts avg buffer))).
Proof.
  rewrite parse_accounts_accounts. unfold parse_from.
  match goal with
  | |- context [parse_loop buffer ?s] => set (s0 := s)
  end.
  assert (H0 : pointers_inside s0).
  { subst s0. unfold pointers_inside, fields_inside, inside. cbn.
    repeat split; auto. }
  pose proof (parse_loop_pointers buffer s0 H0) as H.
  destruct (parse_loop buffer s0) as [r|s] eqn:E; cbn [flow_state p_list] in *.
  - rewrite (parse_loop_freed _ _ _ E). constructor.
  - pose proof (parse_loop_length _ _ _ E) as Hlen. cbn in Hlen.
    destruct H as (Hcur & Ha & Hl). rewrite Hlen in *.
    destruct (Nat.ltb_spec (ps_cur s) (length buffer)) as [Hlt|Hge];
      [|exact Hl].
    unfold push_account. cbn [al_accounts].
    apply Forall_app. split; [now apply Forall_take|].
    constructor; [|constructor].
    unfold fields_inside, inside in *. cbn. tauto.
Qed.

(** ** The parser on a database of well-formed and incomplete lines *)

Lemma length_snoc (b : list ascii) (x : ascii) :
  length (b ++ [x]) = S (length b).
Proof.
  rewrite length_app. cbn. lia.
Qed.

Lemma parse_loop_copy (xs rest b : list ascii) (cur : nat) (a : account)
    (l : account_list) (e : list diagnostic) :
  field_bytes xs = true ->
  parse_loop (xs ++ rest)
    {| ps_buf := b; ps_cur := cur; ps_account := a; ps_list := l;
       ps_stderr := e |}
  = parse_loop rest
      {| ps_buf := b ++ xs; ps_cur := cur; ps_account := a; ps_list := l;
         ps_stderr := e |}.
Proof.
  intros Hf. now rewrite parse_loop_field.
Qed.

(** After the length, commas are bytes of the pattern. *)
Lemma parse_loop_pattern (xs rest b : list ascii) (cur d u i : nat)
    (c : option nat) (len : Z) (l : account_list) (e : list diagnostic) :
  no_newline xs = true -> len <> 0 ->
  parse_loop (xs ++ rest)
    {| ps_buf := b; ps_cur := cur;
       ps_account := {| a_domain := Some d; a_username := Some u;
                        a_iteration := Some i; a_characters := c;
                        a_length := len |};
       ps_list := l; ps_stderr := e |}
  = parse_loop rest
      {| ps_buf := b ++ xs; ps_cur := cur;
         ps_account := {| a_domain := Some d; a_username := Some u;
                          a_iteration := Some i; a_characters := c;
                          a_length := len |};
         ps_list := l; ps_stderr := e |}.
Proof.
  intros Hn Hlen. revert b. induction xs as [|x xs IH]; intros b.
  - cbn [app]. now rewrite app_nil_r.
  - cbn [no_newline forallb] in Hn. apply andb_prop in Hn as [Hx Hxs].
    apply negb_true_iff in Hx.
    cbn [app parse_loop]. unfold parse_byte at 1.
    change (Ascii.eqb x "010") with (Ascii.eqb x LF). rewrite Hx.
    cbn [ps_account ps_buf ps_cur ps_list ps_stderr a_domain a_username
         a_iteration a_length].
    apply Z.eqb_neq in Hlen. rewrite Hlen.
    destruct (Ascii.eqb x ","); rewrite (IH Hxs); now rewrite <- app_assoc.
Qed.

Lemma parse_byte_comma_1 (b : list ascii) (cur : nat) (l : account_list)
    (e : list diagnostic) :
  parse_byte ","
    {| ps_buf := b; ps_cur := cur; ps_account := no_account; ps_list := l;
       ps_stderr := e |}
  = Next {| ps_buf := b ++ [NUL]; ps_cur := length (b ++ [NUL]);
            ps_account := {| a_domain := Some cur; a_username := None;
                             a_iteration := None; a_characters := None;
                             a_length := 0 |};
            ps_list := l; ps_stderr := e |}.
Proof.
  rewrite length_snoc. reflexivity.
Qed.

Lemma parse_byte_comma_2 (b : list ascii) (cur d : nat) (l : account_list)
    (e : list diagnostic) :
  parse_byte ","
    {| ps_buf := b; ps_cur := cur;
       ps_account := {| a_domain := Some d; a_username := None;
                        a_iteration := None; a_characters := None;
                        a_length := 0 |};
       ps_list := l; ps_stderr := e |}
  = Next {| ps_buf := b ++ [NUL]; ps_cur := length (b ++ [NUL]);
            ps_account := {| a_domain := Some d; a_username := Some cur;
                             a_iteration := None; a_characters := None;
                             a_length := 0 |};
            ps_list := l; ps_stderr := e |}.
Proof.
  rewrite length_snoc. reflexivity.
Qed.

Lemma parse_byte_comma_3 (b : list ascii) (cur d u : nat) (l : account_list)
    (e : list diagnostic) :
  parse_byte ","
    {| ps_buf := b; ps_cur := cur;
       ps_account := {| a_domain := Some d; a_username := Some u;
                        a_iteration := None; a_characters := None;
                        a_length := 0 |};
       ps_list := l; ps_stderr := e |}
  = Next {| ps_buf := b ++ [NUL]; ps_cur := length (b ++ [NUL]);
            ps_account := {| a_domain := Some d; a_username := Some u;
                             a_iteration := Some cur; a_characters := None;
                             a_length := 0 |};
            ps_list := l; ps_stderr := e |}.
Proof.
  rewrite length_snoc. reflexivity.
Qed.

Lemma parse_byte_comma_4 (b tok : list ascii) (d u i : nat)
    (l : account_list) (e : list diagnostic) :
  0 < atoi tok ->
  parse_byte ","
    {| ps_buf := b ++ tok; ps_cur := length b;
       ps_account := {| a_domain := Some d; a_username := Some u;
                        a_iteration := Some i; a_characters := None;
                        a_length := 0 |};
       ps_list := l; ps_stderr := e |}
  = Next {| ps_buf := (b ++ tok) ++ [NUL];
            ps_cur := length ((b ++ tok) ++ [NUL]);
            ps_account := {| a_domain := Some d; a_username := Some u;
                             a_iteration := Some i; a_characters := None;
                             a_length := atoi tok |};
            ps_list := l; ps_stderr := e |}.
Proof.
  intros Hpos. rewrite length_snoc. unfold parse_byte.
  change (Ascii.eqb "," "010") with false.
  change (Ascii.eqb "," ",") with true. cbv iota.
  cbn [ps_account ps_buf ps_cur ps_list ps_stderr a_domain a_username
       a_iteration a_characters a_length].
  change (0 =? 0) with true. cbv iota.
  replace (drop (length b) ((b ++ tok) ++ [NUL])) with (tok ++ [NUL])
    by (now rewrite <- app_assoc, drop_app_length).
  rewrite atoi_terminated.
  destruct (Z.eqb_spec (atoi tok) 0); [lia|].
  destruct (Z.ltb_spec (atoi tok) 0); [lia|]. reflexivity.
Qed.

Lemma parse_byte_newline_entry (b : list ascii) (cur d u : nat)
    (i c : option nat) (len : Z) (l : account_list) (e : list diagnostic) :
  parse_byte LF
    {| ps_buf := b; ps_cur := cur;
       ps_account := {| a_domain := Some d; a_username := Some u;
                        a_iteration := i; a_characters := c;
                        a_length := len |};
       ps_list := l; ps_stderr := e |}
  = Next {| ps_buf := b ++ [NUL]; ps_cur := length (b ++ [NUL]);
            ps_account := no_account;
            ps_list :=
              push_account l
                {| a_domain := Some d; a_username := Some u;
                   a_iteration := i; a_characters := Some cur;
                   a_length := len |};
            ps_stderr := e |}.
Proof.
  rewrite length_snoc. reflexivity.
Qed.

Lemma parse_byte_newline_incomplete (b : list ascii) (cur : nat)
    (d i c : option nat) (len : Z) (l : account_list)
    (e : list diagnostic) :
  parse_byte LF
    {| ps_buf := b; ps_cur := cur;
       ps_account := {| a_domain := d; a_username := None;
                        a_iteration := i; a_characters := c;
                        a_length := len |};
       ps_list := l; ps_stderr := e |}
  = Next {| ps_buf := b ++ [NUL]; ps_cur := length (b ++ [NUL]);
            ps_account := no_account; ps_list := l;
            ps_stderr := e ++ [InvalidEntry (al_size l + 1)] |}.
Proof.
  rewrite length_snoc. unfold parse_byte.
  change (Ascii.eqb LF "010") with true. cbv iota.
  cbn [a_domain a_username ps_account]. now destruct d.
Qed.

(** ** The parser on a database of lines *)


Lemma entry_ok_fields (e : entry) :
  entry_ok e = true ->
  field_bytes (e_domain e) = true /\ field_bytes (e_username e) = true
  /\ field_bytes (e_iteration e) = true /\ field_bytes (e_length e) = true
  /\ no_newline (e_characters e) = true /\ 0 < atoi (e_length e).
Proof.
  unfold entry_ok. intros H.
  repeat (apply andb_prop in H as [H ?]).
  repeat split; auto. now apply Z.ltb_lt.
Qed.

(** The line of an entry, read from the start of a line: one record is
    appended, and the parser stands at the start of the next line. *)
Lemma parse_loop_entry_line (e : entry) (rest b : list ascii)
    (l : account_list) (err : list diagnostic) :
  entry_ok e = true ->
  parse_loop (entry_text e ++ LF :: rest)
    {| ps_buf := b; ps_cur := length b; ps_account := no_account;
       ps_list := l; ps_stderr := err |}
  = parse_loop rest
      {| ps_buf := b ++ line_rewritten (Entry e);
         ps_cur := length (b ++ line_rewritten (Entry e));
         ps_account := no_account;
         ps_list := push_account l (entry_account (length b) e);
         ps_stderr := err |}.
Proof.
  intros Hok.
  destruct (entry_ok_fields e Hok) as (Hd & Hu & Hi & Hl & Hc & Hpos).
  unfold entry_text. repeat (rewrite <- !app_assoc; cbn [app]).
  rewrite (parse_loop_copy (e_domain e)) by exact Hd.
  cbn [parse_loop]. rewrite parse_byte_comma_1.
  rewrite (parse_loop_copy (e_username e)) by exact Hu.
  cbn [parse_loop]. rewrite parse_byte_comma_2.
  rewrite (parse_loop_copy (e_iteration e)) by exact Hi.
  cbn [parse_loop]. rewrite parse_byte_comma_3.
  rewrite (parse_loop_copy (e_length e)) by exact Hl.
  cbn [parse_loop]. rewrite parse_byte_comma_4 by exact Hpos.
  rewrite (parse_loop_pattern (e_characters e)) by (auto; lia).
  cbn [parse_loop]. change "010"%char with LF.
  rewrite parse_byte_newline_entry.
  f_equal. unfold line_rewritten, entry_account.
  assert (Hbuf :
    (((((((((b ++ e_domain e) ++ [NUL]) ++ e_username e) ++ [NUL])
         ++ e_iteration e) ++ [NUL]) ++ e_length e) ++ [NUL])
      ++ e_characters e) ++ [NUL]
    = b ++ e_domain e ++ NUL :: e_username e ++ NUL :: e_iteration e
      ++ NUL :: e_length e ++ NUL :: e_characters e ++ [NUL]).
  { repeat (rewrite <- app_assoc; cbn [app]). reflexivity. }
  rewrite Hbuf. f_equal. f_equal. f_equal.
  - rewrite !length_app. cbn [length]. f_equal. lia.
  - rewrite !length_app. cbn [length]. f_equal. lia.
  - rewrite !length_app. cbn [length]. f_equal. lia.
Qed.

Lemma parse_loop_incomplete_line (a : list ascii) (o : option (list ascii))
    (rest b : list ascii) (l : account_list) (err : list diagnostic) :
  line_ok (Incomplete a o) = true ->
  parse_loop (line_text (Incomplete a o) ++ LF :: rest)
    {| ps_buf := b; ps_cur := length b; ps_account := no_account;
       ps_list := l; ps_stderr := err |}
  = parse_loop rest
      {| ps_buf := b ++ line_rewritten (Incomplete a o);
         ps_cur := length (b ++ line_rewritten (Incomplete a o));
         ps_account := no_account; ps_list := l;
         ps_stderr := err ++ [InvalidEntry (al_size l + 1)] |}.
Proof.
  destruct o as [c|]; cbn [line_ok line_text line_rewritten]; intros Hok.
  - apply andb_prop in Hok as [Ha Hc].
    rewrite <- !app_assoc. cbn [app].
    rewrite (parse_loop_copy a) by exact Ha.
    cbn [parse_loop]. rewrite parse_byte_comma_1.
    rewrite (parse_loop_copy c) by exact Hc.
    cbn [parse_loop]. change "010"%char with LF.
    rewrite parse_byte_newline_incomplete.
    assert (Hbuf : (((b ++ a) ++ [NUL]) ++ c) ++ [NUL]
                   = b ++ a ++ NUL :: c ++ [NUL]).
    { repeat (rewrite <- app_assoc; cbn [app]). reflexivity. }
    now rewrite Hbuf.
  - rewrite (parse_loop_copy a) by exact Hok.
    cbn [parse_loop]. change "010"%char with LF.
    unfold no_account at 1.
    rewrite parse_byte_newline_incomplete.
    now rewrite <- app_assoc.
Qed.

Lemma length_line_rewritten (l : db_line) :
  length (line_rewritten l) = S (length (line_text l)).
Proof.
  destruct l as [e|a [c|]]; unfold line_rewritten, line_text, entry_text;
    repeat (rewrite ?length_app; cbn [length]); lia.
Qed.

(** A database read from the start of a line: the records of its entries
    are appended in order, one diagnostic is written per incomplete line,
    and the parser stands at the start of what follows. *)
Lemma parse_loop_database (ls : list db_line) (rest b : list ascii)
    (l : account_list) (err : list diagnostic) :
  forallb line_ok ls = true ->
  parse_loop (database ls ++ rest)
    {| ps_buf := b; ps_cur := length b; ps_account := no_account;
       ps_list := l; ps_stderr := err |}
  = parse_loop rest
      {| ps_buf := b ++ flat_map line_rewritten ls;
         ps_cur := length (b ++ flat_map line_rewritten ls);
         ps_account := no_account;
         ps_list :=
           fold_left push_account (expected_accounts (length b) ls) l;
         ps_stderr := err ++ expected_stderr (al_size l) ls |}.
Proof.
  revert b l err. induction ls as [|l0 ls IH]; intros b l err Hok.
  - cbn. now rewrite !app_nil_r.
  - cbn [forallb] in Hok. apply andb_prop in Hok as [Hl0 Hls].
    cbn [database flat_map]. fold (database ls).
    repeat (rewrite <- !app_assoc; cbn [app]).
    assert (Hpos : length (b ++ line_rewritten l0)
                   = (length b + S (length (line_text l0)))%nat)
      by (now rewrite length_app, length_line_rewritten).
    destruct l0 as [e|a o].
    + cbn [line_text]. rewrite parse_loop_entry_line by exact Hl0.
      rewrite IH by exact Hls. rewrite Hpos.
      cbn [expected_accounts expected_stderr fold_left line_text].
      now rewrite <- !app_assoc.
    + rewrite parse_loop_incomplete_line by exact Hl0.
      rewrite IH by exact Hls. rewrite Hpos.
      cbn [expected_accounts expected_stderr].
      rewrite <- !app_assoc. reflexivity.
Qed.

Lemma fold_push_account (xs : list account) (l : account_list) :
  al_size l = length (al_accounts l) ->
  al_accounts (fold_left push_account xs l) = al_accounts l ++ xs
  /\ al_size (fold_left push_account xs l) = (al_size l + length xs)%nat.
Proof.
  revert l. induction xs as [|a xs IH]; intros l Hs.
  - cbn. rewrite app_nil_r. split; [reflexivity|lia].
  - cbn [fold_left]. destruct (IH (push_account l a)) as [Ha Hn].
    { cbn. rewrite Hs, take_ge by lia. rewrite length_app. cbn. lia. }
    rewrite Ha, Hn. cbn [push_account al_accounts al_size length].
    rewrite Hs, take_ge by lia. rewrite <- app_assoc. split; [reflexivity|lia].
Qed.

Lemma cstr_terminated (xs rest : list ascii) :
  cstr (xs ++ NUL :: rest) = cstr xs.
Proof.
  induction xs as [|x xs IH]; cbn [app cstr].
  - reflexivity.
  - destruct (Ascii.eqb x NUL); [reflexivity|now rewrite IH].
Qed.

(** The text of a field that stands in the buffer with its terminator. *)
Lemma text_at_field (buf pre xs rest : list ascii) (off : nat) :
  buf = pre ++ xs ++ NUL :: rest -> off = length pre ->
  text_at buf (Some off) = Some (cstr xs).
Proof.
  intros -> ->. unfold text_at.
  now rewrite drop_app_length, cstr_terminated.
Qed.

Lemma length_entries (ls : list db_line) (pos : nat) :
  length (expected_accounts pos ls) = length (entries ls).
Proof.
  revert pos. induction ls as [|[e|a o] ls IH]; intros pos; cbn;
    [reflexivity| |]; now rewrite IH.
Qed.

(** The records expected for a database show the fields of its entries. *)
Lemma texts_in_expected (ls : list db_line) (pre post : list ascii) :
  map (texts_in (pre ++ flat_map line_rewritten ls ++ post))
    (expected_accounts (length pre) ls)
  = map entry_view (entries ls).
Proof.
  revert pre. induction ls as [|l0 ls IH]; intros pre.
  - reflexivity.
  - assert (Hpos : length (pre ++ line_rewritten l0)
                   = (length pre + S (length (line_text l0)))%nat)
      by (now rewrite length_app, length_line_rewritten).
    assert (Htail :
      map (texts_in (pre ++ flat_map line_rewritten (l0 :: ls) ++ post))
        (expected_accounts (length pre + S (length (line_text l0))) ls)
      = map entry_view (entries ls)).
    { rewrite <- Hpos, <- (IH (pre ++ line_rewritten l0)).
      cbn [flat_map]. now rewrite <- !app_assoc. }
    destruct l0 as [e|a o]; cbn [expected_accounts entries map];
      [|exact Htail].
    rewrite Htail. f_equal.
    unfold texts_in, entry_view, entry_account.
    cbn [a_domain a_username a_iteration a_characters a_length
         flat_map line_rewritten].
    repeat f_equal.
    + eapply (text_at_field _ pre (e_domain e));
        [repeat (rewrite <- !app_assoc; cbn [app]); reflexivity|reflexivity].
    + eapply (text_at_field _ (pre ++ e_domain e ++ [NUL]) (e_username e));
        [repeat (rewrite <- !app_assoc; cbn [app]); reflexivity|].
      rewrite !length_app. cbn [length]. lia.
    + eapply (text_at_field _
                (pre ++ e_domain e ++ NUL :: e_username e ++ [NUL])
                (e_iteration e));
        [repeat (rewrite <- !app_assoc; cbn [app]); reflexivity|].
      repeat (rewrite !length_app; cbn [length]). lia.
    + eapply (text_at_field _
                (pre ++ e_domain e ++ NUL :: e_username e ++ NUL ::
                 e_iteration e ++ NUL :: e_length e ++ [NUL])
                (e_characters e));
        [repeat (rewrite <- !app_assoc; cbn [app]); reflexivity|].
      repeat (rewrite !length_app; cbn [length]). lia.
Qed.

Lemma length_database (ls : list db_line) :
  length (flat_map line_rewritten ls) = length (database ls).
Proof.
  induction ls as [|l ls IH]; [reflexivity|].
  cbn [flat_map database]. fold (database ls).
  rewrite !length_app, IH, length_line_rewritten. cbn [length]. lia.
Qed.

Lemma parse_from_database (k : nat) (ls : list db_line) :
  forallb line_ok ls = true ->
  parse_from k (database ls)
  = {| p_list :=
         fold_left push_account (expected_accounts 0 ls)
           (new_account_list k);
       p_buffer := flat_map line_rewritten ls;
       p_stderr := expected_stderr 0 ls |}.
Proof.
  intros Hok. unfold parse_from.
  pose proof (parse_loop_database ls [] [] (new_account_list k) [] Hok) as H.
  rewrite app_nil_r in H. cbn [parse_loop app length] in H.
  change (al_size (new_account_list k)) with 0%nat in H.
  rewrite H. cbn [ps_cur ps_buf ps_list ps_stderr].
  now rewrite length_database, Nat.ltb_irrefl.
Qed.

(** X13 (parse_accounts): reading back a database.  For a database of
   lines each ended by a newline, every line being an entry
   [domain,username,iteration,length,characters] (no comma or newline in
   the first four fields, no newline in the fifth, a length that [atoi]
   reads as an [int] above zero) or an incomplete line with fewer than two
   commas, the list returned holds one record per entry, in order, whose
   fields read back as the entry's domain, username, iteration and
   characters and whose length is the [int] that [atoi] reads in the
   entry's length; the incomplete lines are dropped, each with one
   diagnostic that carries one more than the number of records appended
   before it; nothing else is reported. *)
Theorem parse_accounts_reads_back_entries
    (avg : Z) (ls : list db_line) :
  forallb line_ok ls = true ->
  let p := parse_accounts avg (database ls) in
  map (texts_in (p_buffer p)) (al_accounts (p_list p))
  = map entry_view (entries ls)
  /\ al_size (p_list p) = length (entries ls)
  /\ p_stderr p = expected_stderr 0 ls
  /\ p_buffer p = flat_map line_rewritten ls.
Proof.
  intros Hok. cbv zeta.
  rewrite parse_accounts_buffer, parse_accounts_accounts,
    parse_accounts_size, parse_accounts_stderr.
  rewrite (parse_from_database 1 ls Hok). cbn [p_list p_buffer p_stderr].
  destruct (fold_push_account (expected_accounts 0 ls) (new_account_list 1)
              eq_refl) as [Ha Hn].
  rewrite Ha, Hn. cbn [new_account_list al_accounts al_size app Nat.add].
  split.
  { pose proof (texts_in_expected ls [] []) as Hv.
    cbn [app length] in Hv. rewrite app_nil_r in Hv. exact Hv. }
  split; [apply length_entries|]. split; reflexivity.
Qed.

Lemma parse_accounts_reads_back_entries_witness :
  let ls :=
    [Entry {| e_domain := bytes "example.org"; e_username := bytes "joe";
              e_iteration := bytes "1"; e_length := bytes "12";
              e_characters := bytes "a-z,0-9" |};
     Incomplete (bytes "stray") None;
     Entry {| e_domain := bytes "mail.net"; e_username := bytes "ann";
              e_iteration := bytes "3"; e_length := bytes "20";
              e_characters := bytes ":alnum:" |}] in
  let p := parse_accounts 64 (database ls) in
  map (texts_in (p_buffer p)) (al_accounts (p_list p))
  = map entry_view (entries ls)
  /\ al_size (p_list p) = length (entries ls)
  /\ p_stderr p = expected_stderr 0 ls
  /\ p_buffer p = flat_map line_rewritten ls.
Proof.
  apply (parse_accounts_reads_back_entries 64
           [Entry {| e_domain := bytes "example.org";
                     e_username := bytes "joe";
                     e_iteration := bytes "1"; e_length := bytes "12";
                     e_characters := bytes "a-z,0-9" |};
            Incomplete (bytes "stray") None;
            Entry {| e_domain := bytes "mail.net"; e_username := bytes "ann";
                     e_iteration := bytes "3"; e_length := bytes "20";
                     e_characters := bytes ":alnum:" |}]).
  vm_compute. reflexivity.
Defined.

(** ** The parser and a last line without newline *)

Lemma parse_from_unterminated (k : nat) (ls : list db_line)
    (t : list ascii) :
  forallb line_ok ls = true -> field_bytes t = true -> t <> [] ->
  parse_from k (database ls ++ t)
  = {| p_list :=
         fold_left push_account
           (expected_accounts 0 ls
            ++ [{| a_domain := None; a_username := None;
                   a_iteration := None;
                   a_characters := Some (length (database ls));
                   a_length := 0 |}])
           (new_account_list k);
       p_buffer := flat_map line_rewritten ls ++ t;
       p_stderr := expected_stderr 0 ls |}.
Proof.
  intros Hok Ht Hne. unfold parse_from.
  pose proof (parse_loop_database ls t [] (new_account_list k) [] Hok) as H.
  cbn [app length] in H.
  change (al_size (new_account_list k)) with 0%nat in H.
  rewrite <- (app_nil_r t) in H at 2.
  rewrite (parse_loop_copy t []) in H by exact Ht.
  cbn [parse_loop] in H. rewrite H.
  cbn [ps_cur ps_buf ps_list ps_stderr ps_account no_account a_domain
       a_username a_iteration a_length].
  rewrite length_database, length_app.
  assert (Hlen : (0 < length t)%nat) by (destruct t; [congruence|cbn; lia]).
  destruct (Nat.ltb_spec (length (database ls))
              (length (database ls) + length t)) as [_|Hge]; [|lia].
  now rewrite fold_left_app.
Qed.

(** X14 (parse_accounts): a last line without its newline escapes the
    check that every other line gets.  When the lines ended by a newline
    are followed by a last piece of text that holds no comma and no newline
    and is not empty, that text is appended as one more record, after the
    records of the entries: its domain, username and iteration are null
    pointers and its length is 0, its characters point at the text; no
    diagnostic is written for it, and its bytes are left as they were, so
    no terminator is written after it. *)
Theorem parse_accounts_keeps_unterminated_last_line
    (avg : Z) (ls : list db_line) (t : list ascii) :
  forallb line_ok ls = true -> field_bytes t = true -> t <> [] ->
  let p := parse_accounts avg (database ls ++ t) in
  al_accounts (p_list p)
  = expected_accounts 0 ls
    ++ [{| a_domain := None; a_username := None; a_iteration := None;
           a_characters := Some (length (database ls)); a_length := 0 |}]
  /\ al_size (p_list p) = S (length (entries ls))
  /\ p_stderr p = expected_stderr 0 ls
  /\ p_buffer p = flat_map line_rewritten ls ++ t.
Proof.
  intros Hok Ht Hne. cbv zeta.
  rewrite parse_accounts_buffer, parse_accounts_accounts,
    parse_accounts_size, parse_accounts_stderr.
  rewrite (parse_from_unterminated 1 ls t Hok Ht Hne).
  cbn [p_list p_buffer p_stderr].
  match goal with
  | |- context [fold_left push_account ?xs ?l] =>
      destruct (fold_push_account xs l eq_refl) as [Ha Hn]
  end.
  rewrite Ha, Hn. cbn [new_account_list al_accounts al_size app Nat.add].
  split; [reflexivity|]. split; [|split; reflexivity].
  rewrite length_app, length_entries. cbn [length]. lia.
Qed.

Lemma parse_accounts_keeps_unterminated_last_line_witness :
  let ls :=
    [Entry {| e_domain := bytes "example.org"; e_username := bytes "joe";
              e_iteration := bytes "1"; e_length := bytes "12";
              e_characters := bytes ":alnum:" |}] in
  let p := parse_accounts 64 (database ls ++ bytes "stray") in
  al_accounts (p_list p)
  = expected_accounts 0 ls
    ++ [{| a_domain := None; a_username := None; a_iteration := None;
           a_characters := Some (length (database ls)); a_length := 0 |}]
  /\ al_size (p_list p) = S (length (entries ls))
  /\ p_stderr p = expected_stderr 0 ls
  /\ p_buffer p = flat_map line_rewritten ls ++ bytes "stray".
Proof.
  apply (parse_accounts_keeps_unterminated_last_line 64
           [Entry {| e_domain := bytes "example.org";
                     e_username := bytes "joe";
                     e_iteration := bytes "1"; e_length := bytes "12";
                     e_characters := bytes ":alnum:" |}]
           (bytes "stray")).
  - vm_compute. reflexivity.
  - vm_compute. reflexivity.
  - discriminate.
Defined.

(** ** [enumerate_charset]: descending ranges and the last alias *)

Lemma streq_length (spec : list ascii) (lit : string) :
  length (cstr spec) <> length (bytes lit) -> streq spec lit = false.
Proof.
  intros Hlen. unfold streq.
  destruct (bytes_eqb (cstr spec) (bytes lit)) eqn:E; [|reflexivity].
  apply bytes_eqb_eq in E. now rewrite E in Hlen.
Qed.

(** A specification of three characters is no class name. *)
Lemma resolve_class_three (l o c : ascii) :
  l <> NUL -> o <> NUL -> c <> NUL ->
  resolve_class [l; o; c] = [l; o; c].
Proof.
  intros Hl Ho Hc. apply Ascii.eqb_neq in Hl, Ho, Hc.
  assert (Hlen : length (cstr [l; o; c]) = 3%nat)
    by (cbn [cstr]; now rewrite Hl, Ho, Hc).
  unfold resolve_class.
  rewrite !streq_length by (rewrite Hlen; vm_compute; discriminate).
  reflexivity.
Qed.

Lemma scan_step_right_endpoint (l c : ascii) (rest chars : list ascii)
    (result : option nat) :
  l <> NUL -> c <> NUL -> c <> "-"%char -> isspace c = false ->
  scan_step AtWhile
    {| sc_spec := c :: rest; sc_chars := chars; sc_result := result;
       sc_l := l; sc_op := true |}
  = Some (AtFor c,
          {| sc_spec := c :: rest; sc_chars := chars; sc_result := result;
             sc_l := l; sc_op := true |}).
Proof.
  intros Hl Hc Hdash Hsp. apply Ascii.eqb_neq in Hl, Hc, Hdash.
  unfold scan_step. cbn [deref sc_spec sc_l sc_op].
  now rewrite Hc, Hsp, Hl, Hdash.
Qed.

(** X15 (enumerate_charset): a specification that is one range [l-c] whose
    right endpoint lies below the left one as a signed [char] pushes
    nothing: the function returns success with an empty alphabet of length
    0.  This holds for every such pair, and so for a right endpoint with its
    high bit set, which is negative as a [char]. *)
Theorem descending_range_expands_to_nothing
    (l c : ascii) (stack : nat -> ascii) (fuel : nat) :
  l <> NUL -> l <> "-"%char -> isspace l = false ->
  c <> NUL -> c <> "-"%char -> isspace c = false ->
  schar c < schar l -> (5 <= fuel)%nat ->
  enumerate_charset fuel stack true (Some [l; "-"%char; c])
  = Some (Enumerated [] 0).
Proof.
  intros Hl Hld Hls Hc Hcd Hcs Hlt Hfuel. unfold enumerate_charset.
  rewrite (resolve_class_three l "-" c Hl ltac:(discriminate) Hc).
  do 5 (destruct fuel as [|fuel]; [lia|]). clear Hfuel.
  cbn [scan_run].
  rewrite (scan_step_left_endpoint l _ _ _ _ Hl Hld Hls).
  rewrite (scan_step_operator l _ _ _ _ Hl).
  rewrite (scan_step_right_endpoint l c _ _ _ Hl Hc Hcd Hcs).
  unfold scan_step at 1. cbn [sc_l].
  destruct (Z.leb_spec (schar l) (schar c)) as [Hle|_]; [lia|].
  reflexivity.
Qed.

Lemma descending_range_expands_to_nothing_witness :
  enumerate_charset 5 (fun _ => "x"%char) true
    (Some ["a"%char; "-"%char; "233"%char])
  = Some (Enumerated [] 0).
Proof.
  apply (descending_range_expands_to_nothing "a"%char "233"%char
           (fun _ => "x"%char) 5).
  - discriminate.
  - discriminate.
  - reflexivity.
  - discriminate.
  - discriminate.
  - reflexivity.
  - reflexivity.
  - lia.
Defined.

(** X16 (enumerate_charset): the last alias of the chain, the one that
    would let [*] stand for the printable characters and seven characters
    outside ASCII, is never taken: [*] is caught by the first test and
    compiles as [!-~] does, and the class resolution yields the extended
    expression only for a specification that already is that expression. *)
Theorem extended_star_alias_is_never_taken (spec : list ascii) :
  (streq spec "*" = true -> resolve_class spec = bytes "!-~")
  /\ (resolve_class spec = star_extended -> spec = star_extended).
Proof.
  unfold resolve_class. split.
  - intros ->. now rewrite !orb_true_r.
  - destruct (streq spec "" || streq spec ":graph:" || streq spec "*")
      eqn:E0; [intros H; vm_compute in H; discriminate H|].
    apply orb_false_elim in E0 as [_ E0]. rewrite E0.
    repeat (match goal with
            | |- context [if streq spec ?lit then _ else _] =>
                destruct (streq spec lit);
                [intros H; vm_compute in H; discriminate H|]
            end).
    intros H; exact H.
Qed.
